(** * PromptFusion Canvas: the workflow queue of App.tsx and its two stage clients

    A shallow embedding of the queue engine of [src/App.tsx] (the item store,
    the event log, the driver loop [processQueue] and the user commands) and of
    the stage clients [describeImage] and [generateVariation] of the Gemini
    service, followed by the properties the specification states about them.

    React state is modelled as one record [State]; every handler of the
    component is a function [State -> State].  The refs [itemsRef] and
    [settingsRef] are taken to mirror [items] and [settings] whenever the loop
    reads them (the effects that copy the state into them have run).  An
    [await] of the driver loop is a suspension point: the loop is cut there
    into atomic steps, and what the awaited call delivers (a file read, a
    stream chunk, a network answer, the pacing timer) is an event handed to
    the suspended invocation.  Several invocations of [processQueue] can be
    suspended at once (stop, then start while an item is still in flight);
    each has its slot in [workers]. *)

From Stdlib Require Import String Ascii NArith.
From stdpp Require Import base decidable option list strings numbers pretty.

Local Open Scope string_scope.
Local Open Scope list_scope.

(** ** JavaScript values used by the source *)

(** Truthiness of a possibly undefined string: [undefined] and the empty
    string are falsy. *)
Definition truthy (v : option string) : bool :=
  match v with
  | Some s => if decide (s = EmptyString) then false else true
  | None => false
  end.

(** [a || b] on possibly undefined strings. *)
Definition js_or (a b : option string) : option string :=
  if truthy a then a else b.

(** [a || 'literal'], whose value is always a string. *)
Definition js_or_str (a : option string) (b : string) : string :=
  match a with
  | Some s => if decide (s = EmptyString) then b else s
  | None => b
  end.

(** [s.includes(sub)]. *)
Definition includes (s sub : string) : bool :=
  match String.index 0 sub s with Some _ => true | None => false end.

(** White space removed by [String.prototype.trim], restricted to the ASCII
    range (tab, line feed, vertical tab, form feed, carriage return, space). *)
Definition is_space (c : ascii) : bool :=
  let n := nat_of_ascii c in
  (Nat.leb 9 n && Nat.leb n 13) || Nat.eqb n 32.

Fixpoint trim_start (s : string) : string :=
  match s with
  | String c r => if is_space c then trim_start r else s
  | EmptyString => EmptyString
  end.

Fixpoint trim_end (s : string) : string :=
  match s with
  | String c r =>
      match trim_end r with
      | EmptyString => if is_space c then EmptyString else String c EmptyString
      | r' => String c r'
      end
  | EmptyString => EmptyString
  end.

Definition trim (s : string) : string := trim_end (trim_start s).

(** The string holds ASCII characters only.  On such a string [trim] removes
    what [String.prototype.trim] removes; beyond ASCII the source also strips
    the Unicode white space (U+00A0, U+FEFF, U+2028, U+2029, the space
    separators), which [is_space] does not list. *)
Fixpoint ascii_only (s : string) : bool :=
  match s with
  | EmptyString => true
  | String c r => Nat.ltb (nat_of_ascii c) 128 && ascii_only r
  end.

(** ** types.ts *)

(** Modelled from the spec: [types.ts] is not among the sources.  The enum
    [WorkflowStatus] has the five states of the spec's data model, named as
    the source names them. *)
Inductive WorkflowStatus := PENDING | ANALYZING | GENERATING | COMPLETED | ERROR.

#[global] Instance WorkflowStatus_eq_dec : EqDecision WorkflowStatus.
Proof. solve_decision. Defined.

(** The browser's [File]: only [name] and [type] are read by the source. *)
Record File := { file_name : string; file_type : string }.

#[global] Instance File_eq_dec : EqDecision File.
Proof. solve_decision. Defined.

(** Modelled from the spec: [WorkItem] of [types.ts], with the fields the
    source reads and writes.  The spec calls [originalPrompt] the description,
    [generatedImageUrl] the result image and [error] the error message; an
    optional field that is [undefined] is [None]. *)
Record WorkItem := {
  item_id : string;
  item_file : File;
  previewUrl : string;
  item_status : WorkflowStatus;
  progressLog : list string;
  originalPrompt : option string;
  generatedImageUrl : option string;
  item_error : option string
}.

(** [Partial<WorkItem>] as the source builds it: a key is either left out
    ([None]) or given, possibly with the value [undefined] ([Some None]). *)
Record PartialWorkItem := {
  p_status : option WorkflowStatus;
  p_progressLog : option (list string);
  p_originalPrompt : option (option string);
  p_generatedImageUrl : option (option string);
  p_error : option (option string)
}.

(** [{ ...item, ...updates }]. *)
Definition spread (item : WorkItem) (updates : PartialWorkItem) : WorkItem :=
  {| item_id := item_id item;
     item_file := item_file item;
     previewUrl := previewUrl item;
     item_status := default (item_status item) (p_status updates);
     progressLog := default (progressLog item) (p_progressLog updates);
     originalPrompt := default (originalPrompt item) (p_originalPrompt updates);
     generatedImageUrl := default (generatedImageUrl item) (p_generatedImageUrl updates);
     item_error := default (item_error item) (p_error updates) |}.

(** Severity of a log record: [SystemLog['type']]. *)
Inductive LogType := info | success | warning | error.

#[global] Instance LogType_eq_dec : EqDecision LogType.
Proof. solve_decision. Defined.

(** Modelled from the spec: [SystemLog] of [types.ts].  The time stamp and the
    [details] payload are written once and read by no operation of the engine;
    they are left out. *)
Record SystemLog := {
  log_id : string;
  log_type : LogType;
  log_message : string
}.

(** Modelled from the spec: [ServiceConfig] and [AppSettings] of [types.ts]. *)
Record ServiceConfig := {
  apiKey : option string;
  baseUrl : option string;
  model : option string;
  aspectRatio : option string;
  systemInstruction : option string
}.

Record AppSettings := {
  analysisConfig : ServiceConfig;
  generationConfig : ServiceConfig
}.

Definition DEFAULT_SETTINGS : AppSettings :=
  {| analysisConfig :=
       {| apiKey := Some EmptyString;
          baseUrl := Some EmptyString;
          model := Some "gemini-3-flash-preview";
          aspectRatio := None;
          systemInstruction := Some "Analyze the image and write a high-quality stable diffusion style prompt (tags or natural language) to recreate it. Focus on subject, medium, lighting, and style." |};
     generationConfig :=
       {| apiKey := Some EmptyString;
          baseUrl := Some EmptyString;
          model := Some "gemini-3-pro-image-preview";
          aspectRatio := Some "16:9";
          systemInstruction := Some "Generate a high-fidelity image based on the provided description." |} |}.

(** ** The host environment *)

(** What the program takes from the browser and the build: the results of
    [Math.random().toString(36).substring(2, 9)] in call order, the blob URL
    of a file, the two environment tables read by [getEnv], and the message
    of the [AbortError] a fetch rejects with when its signal is aborted. *)
Record Host := {
  random_id : nat -> string;
  createObjectURL : File -> string;
  meta_env : option (string -> option string);
  process_env : option (string -> option string);
  abort_message : option string
}.

(** ** services/utils.ts: getEnv *)

(** [getEnv(key)]: the Vite table under [VITE_key] first, then [process.env]
    under [key]; the empty string when neither holds a truthy value. *)
Definition getEnv (host : Host) (key : string) : string :=
  match meta_env host with
  | Some env =>
      if truthy (env ("VITE_" +:+ key)) then js_or_str (env ("VITE_" +:+ key)) EmptyString
      else
        match process_env host with
        | Some penv => if truthy (penv key) then js_or_str (penv key) EmptyString else EmptyString
        | None => EmptyString
        end
  | None =>
      match process_env host with
      | Some penv => if truthy (penv key) then js_or_str (penv key) EmptyString else EmptyString
      | None => EmptyString
      end
  end.

(** ** services/geminiService.ts: what the remote side may do *)

(** A promise either resolves with a value or rejects with a thrown value, of
    which the source only ever reads [message]. *)
Inductive Settled (A : Type) :=
| Resolved (a : A)
| Rejected (message : option string).
Arguments Resolved {A} a.
Arguments Rejected {A} message.

(** A call settles at some time (in milliseconds after it was made) or stays
    suspended for ever. *)
Inductive Timed (A : Type) :=
| At (t : N) (a : A)
| Never.
Arguments At {A} t a.
Arguments Never {A}.

(** What an [await] on a body or on the stream delivers. *)
Inductive Read (A : Type) :=
| Arrives (delay : N) (a : A)
| Throws (delay : N) (message : option string)
| Stalls.
Arguments Arrives {A} delay a.
Arguments Throws {A} delay message.
Arguments Stalls {A}.

(** The parsed body of a successful image response, as far as the source
    looks into it. *)
Inductive GenData :=
| DataObject (url b64_json : option string) (stringified : string)
    (* data.data?.[0]?.url, data.data?.[0]?.b64_json, JSON.stringify(data) *)
| DataNull (message : option string).
    (* reading [data.data] throws a TypeError with this message *)

Record Response := {
  ok : bool;
  status : N;
  statusText : string;
  text : Read string;                 (* await response.text() *)
  text_error_message : option string; (* JSON.parse(errText).error.message, when there is one *)
  json : Read GenData                 (* await response.json() *)
}.

(** The remote image service as [fetch] sees it. *)
Inductive NetBehaviour :=
| Responds (latency : N) (response : Response)
| Fails (latency : N) (message : option string)
| Silent.

(** The request [generateVariation] posts. *)
Record GenRequest := {
  req_url : string;
  req_authorization : string;
  req_model : string;
  req_prompt : string;
  req_size : string
}.

(** The request [describeImage] hands to the SDK. *)
Record SdkRequest := {
  sdk_apiKey : string;
  sdk_baseUrl : option string;
  sdk_model : string;
  sdk_mimeType : string;
  sdk_data : string;
  sdk_text : string;
  sdk_systemInstruction : option string
}.

(** [fileToBase64(file)]: the base64 part of the data URL, or a rejection. *)
Inductive FileRead :=
| FileLoaded (base64 : string)
| FileFailed (message : option string).

(** The SDK stream: the [text] of each chunk in order, then how it ends. *)
Inductive StreamEnd :=
| EndOfStream
| StreamThrows (message : option string)
| StreamStalls.

Record SdkStream := {
  chunks : list (option string);
  finish : StreamEnd
}.

Section GeminiService.

Variable host : Host.

(** [fetchWithTimeout(url, options, timeout = 120000)]: the fetch races the
    abort timer.  A response or failure that has not arrived when the timer
    fires loses to the abort.  [timeout] is a delay [setTimeout] takes as it
    is (below 2^31 ms); the source only ever uses the default. *)
Definition fetchWithTimeout (net : NetBehaviour) (timeout : option N) : Timed (Settled Response) :=
  let timeout := default 120000%N timeout in
  match net with
  | Responds latency response =>
      if (latency <? timeout)%N then At latency (Resolved response)
      else At timeout (Rejected (abort_message host))
  | Fails latency message =>
      if (latency <? timeout)%N then At latency (Rejected message)
      else At timeout (Rejected (abort_message host))
  | Silent => At timeout (Rejected (abort_message host))
  end.

(** [url.replace(/\/$/, EMPTY)]: one trailing slash is dropped. *)
Fixpoint drop_trailing_slash (url : string) : string :=
  match url with
  | EmptyString => EmptyString
  | String c EmptyString => if Ascii.eqb c "/"%char then EmptyString else url
  | String c r => String c (drop_trailing_slash r)
  end.

Definition cleanBaseUrl (url : option string) : string :=
  if truthy url then drop_trailing_slash (js_or_str url EmptyString) else EmptyString.

(** [config.apiKey || getEnv('API_KEY')], then the guard [if (!apiKey) throw]
    and [apiKey.trim()]: the key the call goes on with, or [None] when the
    guard throws. *)
Definition resolveApiKey (config : ServiceConfig) : option string :=
  let apiKey := js_or (apiKey config) (Some (getEnv host "API_KEY")) in
  if truthy apiKey then Some (trim (js_or_str apiKey EmptyString)) else None.

Definition usingCustomUrl (config : ServiceConfig) : bool :=
  truthy (baseUrl config) && truthy (trim <$> baseUrl config).

(** *** describeImage *)

Definition analysis_key_missing : string :=
  "API Key for Analysis step is missing. Please check Settings.".

Definition describe_request (file : File) (config : ServiceConfig) (apiKey base64 : string) : SdkRequest :=
  {| sdk_apiKey := apiKey;
     sdk_baseUrl := if usingCustomUrl config then Some (cleanBaseUrl (baseUrl config)) else None;
     sdk_model := js_or_str (model config) "gemini-3-flash-preview";
     sdk_mimeType := file_type file;
     sdk_data := base64;
     sdk_text := "Describe this image in detail to generate a similar image. Do not use conversational filler.";
     sdk_systemInstruction := systemInstruction config |}.

(** One turn of [for await (const chunk of streamResponse)]: the new
    [fullText] and, when the chunk carries text, the argument of
    [onStreamUpdate]. *)
Definition describe_chunk (fullText : string) (chunk_text : option string) : string * option string :=
  if truthy chunk_text then
    let fullText' := fullText +:+ js_or_str chunk_text EmptyString in
    (fullText', Some fullText')
  else (fullText, None).

(** [return fullText || 'No description generated.']. *)
Definition describe_return (fullText : string) : string :=
  js_or_str (Some fullText) "No description generated.".

(** The [catch] of [describeImage]: the message of the error it rethrows. *)
Definition describe_catch (config : ServiceConfig) (message : option string) : string :=
  let msg := js_or_str message "Unknown error" in
  let msg :=
    if includes msg "400" || includes msg "API_KEY_INVALID" then
      if negb (usingCustomUrl config) then
        msg +:+ " " +:+ String (ascii_of_nat 10) (String (ascii_of_nat 10)
          "[HINT] You are hitting Google Official. If you are using a proxy Key (like Apicore), you MUST set the Base URL in Settings -> Step 1.")
      else
        msg +:+ " " +:+ String (ascii_of_nat 10) (String (ascii_of_nat 10)
          "[HINT] Key rejected by your custom endpoint. Check if the key is correct.")
    else msg in
  "Analysis failed: " +:+ msg.

(** The stream loop from a given [fullText]: the calls of [onStreamUpdate] it
    makes, and how the call ends. *)
Fixpoint describe_stream (config : ServiceConfig) (fullText : string)
    (chunks : list (option string)) (finish : StreamEnd)
    : list string * option (Settled string) :=
  match chunks with
  | c :: rest =>
      let '(fullText', update) := describe_chunk fullText c in
      let '(updates, r) := describe_stream config fullText' rest finish in
      (option_list update ++ updates, r)
  | [] =>
      match finish with
      | EndOfStream => ([], Some (Resolved (describe_return fullText)))
      | StreamThrows message => ([], Some (Rejected (Some (describe_catch config message))))
      | StreamStalls => ([], None)
      end
  end.

(** [describeImage(file, config, onStreamUpdate)]: the arguments
    [onStreamUpdate] is called with, in order, and the way the call settles
    ([None]: the promise never settles).  [read] is what the file reader
    delivers and [sdk] what the SDK does with the request. *)
Definition describeImage (file : File) (config : ServiceConfig)
    (read : FileRead) (sdk : SdkRequest -> SdkStream)
    : list string * option (Settled string) :=
  match resolveApiKey config with
  | None => ([], Some (Rejected (Some analysis_key_missing)))
  | Some apiKey =>
      match read with
      | FileFailed message => ([], Some (Rejected message))
      | FileLoaded base64 =>
          let stream := sdk (describe_request file config apiKey base64) in
          describe_stream config EmptyString (chunks stream) (finish stream)
      end
  end.

(** *** generateVariation *)

Definition generation_key_missing : string := "API Key for Generation step is missing.".

Definition newline : string := String (ascii_of_nat 10) EmptyString.

Definition generation_request (prompt : string) (config : ServiceConfig) (apiKey : string) : GenRequest :=
  let baseUrl := cleanBaseUrl (trim <$> baseUrl config) in
  let baseUrl := if truthy (Some baseUrl) then baseUrl else "https://api.apicore.ai/v1" in
  {| req_url := baseUrl +:+ "/images/generations";
     req_authorization := "Bearer " +:+ apiKey;
     req_model := js_or_str (trim <$> model config) "gemini-3-pro-image-preview";
     req_prompt :=
       if truthy (systemInstruction config)
       then js_or_str (systemInstruction config) EmptyString +:+ newline +:+ newline
              +:+ "Positive Prompt: " +:+ prompt
       else prompt;
     req_size := js_or_str (aspectRatio config) "16:9" |}.

(** The branch [if (!response.ok)]: the message of the error it throws.
    [String.substring] counts the characters of the string as it is held
    here; on ASCII text these are the code units [substring] counts in the
    source. *)
Definition api_error (response : Response) (errText : string) : string :=
  let detailedError := "API Error " +:+ pretty (status response) +:+ ": " +:+ statusText response in
  if truthy (text_error_message response)
  then detailedError +:+ " - " +:+ js_or_str (text_error_message response) EmptyString
  else detailedError +:+ newline +:+ "Raw: " +:+ String.substring 0 300 errText.

(** The body of the [try] of [generateVariation] after the response has
    arrived at time [t]; every error is rethrown by the [catch] as
    [new Error(error.message)]. *)
Definition generation_body (t : N) (response : Response) : Timed (Settled string) :=
  if ok response then
    match json response with
    | Arrives d (DataObject url b64_json stringified) =>
        if truthy url then At (t + d) (Resolved (js_or_str url EmptyString))
        else if truthy b64_json
        then At (t + d) (Resolved ("data:image/png;base64," +:+ js_or_str b64_json EmptyString))
        else At (t + d) (Rejected (Some ("Invalid Response Structure: "
                                           +:+ String.substring 0 200 stringified +:+ "...")))
    | Arrives d (DataNull message) => At (t + d) (Rejected message)
    | Throws d message => At (t + d) (Rejected message)
    | Stalls => Never
    end
  else
    match text response with
    | Arrives d errText => At (t + d) (Rejected (Some (api_error response errText)))
    | Throws d message => At (t + d) (Rejected message)
    | Stalls => Never
    end.

(** The [try] of [generateVariation]: the fetch under its default timeout,
    then the body. *)
Definition generation_try (net : NetBehaviour) : Timed (Settled string) :=
  match fetchWithTimeout net None with
  | At t (Resolved response) => generation_body t response
  | At t (Rejected message) => At t (Rejected message)
  | Never => Never
  end.

(** [generateVariation(originalFile, prompt, config)]. *)
Definition generateVariation (originalFile : File) (prompt : string) (config : ServiceConfig)
    (net : GenRequest -> NetBehaviour) : Timed (Settled string) :=
  match resolveApiKey config with
  | None => At 0 (Rejected (Some generation_key_missing))
  | Some apiKey => generation_try (net (generation_request prompt config apiKey))
  end.

End GeminiService.

(** ** App.tsx: the component state *)

(** A suspended invocation of [processQueue], named by the [await] it is
    suspended at.  [currentItem] is the snapshot the loop took from
    [itemsRef.current]; [config] is the configuration object the stage call
    was given. *)
Inductive Phase :=
| ReadingFile (currentItem : WorkItem) (config : ServiceConfig) (apiKey : string)
    (* describeImage: await fileToBase64(file) *)
| Streaming (currentItem : WorkItem) (config : ServiceConfig) (fullText : string)
    (* describeImage: await generateContentStream(..), for await (chunk of ..) *)
| Posting (currentItem : WorkItem) (request : GenRequest)
    (* generateVariation: await fetchWithTimeout(..), response.text(), response.json() *)
| Pacing
    (* await delay(500) *)
| Exited.
    (* the finally block has run *)

Record State := {
  items : list WorkItem;          (* useState<WorkItem[]>, mirrored by itemsRef *)
  logs : list SystemLog;          (* useState<SystemLog[]> *)
  isProcessing : bool;            (* useState(false) *)
  isProcessingRef : bool;         (* useRef(false) *)
  settings : AppSettings;         (* useState(DEFAULT_SETTINGS), mirrored by settingsRef *)
  workers : list Phase;           (* the invocations of processQueue that passed its guard *)
  idCalls : nat                   (* number of generateId() calls made so far *)
}.

Definition initial_state : State :=
  {| items := []; logs := []; isProcessing := false; isProcessingRef := false;
     settings := DEFAULT_SETTINGS; workers := []; idCalls := 0 |}.

Definition setItems (f : list WorkItem -> list WorkItem) (s : State) : State :=
  {| items := f (items s); logs := logs s; isProcessing := isProcessing s;
     isProcessingRef := isProcessingRef s; settings := settings s;
     workers := workers s; idCalls := idCalls s |}.

Definition setLogs (f : list SystemLog -> list SystemLog) (s : State) : State :=
  {| items := items s; logs := f (logs s); isProcessing := isProcessing s;
     isProcessingRef := isProcessingRef s; settings := settings s;
     workers := workers s; idCalls := idCalls s |}.

Definition setIsProcessing (b : bool) (s : State) : State :=
  {| items := items s; logs := logs s; isProcessing := b;
     isProcessingRef := isProcessingRef s; settings := settings s;
     workers := workers s; idCalls := idCalls s |}.

Definition set_isProcessingRef (b : bool) (s : State) : State :=
  {| items := items s; logs := logs s; isProcessing := isProcessing s;
     isProcessingRef := b; settings := settings s;
     workers := workers s; idCalls := idCalls s |}.

Definition setSettings (f : AppSettings -> AppSettings) (s : State) : State :=
  {| items := items s; logs := logs s; isProcessing := isProcessing s;
     isProcessingRef := isProcessingRef s; settings := f (settings s);
     workers := workers s; idCalls := idCalls s |}.

Definition set_workers (f : list Phase -> list Phase) (s : State) : State :=
  {| items := items s; logs := logs s; isProcessing := isProcessing s;
     isProcessingRef := isProcessingRef s; settings := settings s;
     workers := f (workers s); idCalls := idCalls s |}.

Definition set_idCalls (n : nat) (s : State) : State :=
  {| items := items s; logs := logs s; isProcessing := isProcessing s;
     isProcessingRef := isProcessingRef s; settings := settings s;
     workers := workers s; idCalls := n |}.

(** Statements of a handler run in sequence: [s |> f |> g] is [g (f s)]. *)
Notation "s |> f" := (f s) (at level 45, left associativity, only parsing).

Section App.

Variable host : Host.

(** [generateId()]: the next result of the random source. *)
Definition generateId (s : State) : string * State :=
  (random_id host (idCalls s), set_idCalls (S (idCalls s)) s).

(** [addLog(type, message)]. *)
Definition addLog (type : LogType) (message : string) (s : State) : State :=
  let '(i, s1) := generateId s in
  setLogs (fun prev => prev ++ [{| log_id := i; log_type := type; log_message := message |}]) s1.

(** The items [files.map(file => ({ id: generateId(), .. }))] builds, the
    [k]-th with the [k]-th next random id. *)
Fixpoint newItems (n : nat) (files : list File) : list WorkItem :=
  match files with
  | [] => []
  | file :: rest =>
      {| item_id := random_id host n;
         item_file := file;
         previewUrl := createObjectURL host file;
         item_status := PENDING;
         progressLog := ["Queued for processing..."];
         originalPrompt := None;
         generatedImageUrl := None;
         item_error := None |} :: newItems (S n) rest
  end.

Definition handleFilesSelected (files : list File) (s : State) : State :=
  s |> setItems (fun prev => prev ++ newItems (idCalls s) files)
    |> set_idCalls (idCalls s + length files)
    |> addLog info ("Added " +:+ pretty (length files) +:+ " files to queue.").

Definition updateItem (id : string) (updates : PartialWorkItem) (s : State) : State :=
  setItems (fun prev =>
    (fun item => if decide (item_id item = id) then spread item updates else item) <$> prev) s.

Definition handleRemoveItem (id : string) (s : State) : State :=
  setItems (fun prev => filter (fun item => item_id item <> id) prev) s.

Definition handleRetryItem (id : string) (s : State) : State :=
  s |> updateItem id
         {| p_status := Some PENDING;
            p_error := Some None;
            p_generatedImageUrl := Some None;
            p_originalPrompt := Some None;
            p_progressLog := Some ["Retrying..."] |}
    |> addLog info ("Retrying item " +:+ id).

Definition handleAspectRatioChange (newRatio : string) (s : State) : State :=
  s |> setSettings (fun prev =>
         {| analysisConfig := analysisConfig prev;
            generationConfig :=
              {| apiKey := apiKey (generationConfig prev);
                 baseUrl := baseUrl (generationConfig prev);
                 model := model (generationConfig prev);
                 aspectRatio := Some newRatio;
                 systemInstruction := systemInstruction (generationConfig prev) |} |})
    |> addLog info ("Aspect Ratio changed to " +:+ newRatio).

(** [handleBatchDownload]: only its log records touch the state. *)
Definition handleBatchDownload (s : State) : State :=
  let completedItems :=
    filter (fun item => item_status item = COMPLETED /\ truthy (generatedImageUrl item) = true)
           (items s) in
  match completedItems with
  | [] => addLog warning "No completed images to download." s
  | _ => addLog info ("Starting batch download for " +:+ pretty (length completedItems) +:+ " images...") s
  end.

Definition stopProcessing (s : State) : State :=
  s |> set_isProcessingRef false
    |> setIsProcessing false
    |> addLog warning "Processing stopped by user.".

Definition clearCompleted (s : State) : State :=
  if isProcessing s then s
  else
    s |> setItems (fun prev =>
           filter (fun item => item_status item <> COMPLETED /\ item_status item <> ERROR) prev)
      |> addLog info "Cleared completed/error items.".

Definition resetAll (s : State) : State :=
  if isProcessing s then s
  else
    s |> setItems (fun _ => [])
      |> addLog warning "All items reset.".

(** [onSave] of the settings modal. *)
Definition saveSettings (newSettings : AppSettings) (s : State) : State :=
  s |> setSettings (fun _ => newSettings)
    |> addLog info "Settings updated.".

(** [stats]: the fold over the current items. *)
Record ProcessingStats := {
  total : nat; completed : nat; failed : nat; pending : nat
}.

Definition stats (s : State) : ProcessingStats :=
  foldl (fun acc item =>
    {| total := S (total acc);
       completed := if decide (item_status item = COMPLETED) then S (completed acc) else completed acc;
       failed := if decide (item_status item = ERROR) then S (failed acc) else failed acc;
       pending := if decide (item_status item = PENDING) then S (pending acc) else pending acc |})
    {| total := 0; completed := 0; failed := 0; pending := 0 |} (items s).

End App.


(** ** App.tsx: the driver loop *)

(** What an [await] of a suspended invocation delivers. *)
Inductive EngineEvent :=
| FileReadDone (read : FileRead)
| SdkChunk (chunk_text : option string)
| SdkEnds (finish : StreamEnd)
| NetAnswers (net : GenRequest -> NetBehaviour)
| DelayElapsed.

(** What the user can do on the rendered page. *)
Inductive UiEvent :=
| SelectFiles (files : list File)
| ClickRetry (i : nat)
| ClickRemove (i : nat)
| ClickStart
| ClickStop
| ClickClearCompleted
| ClickResetAll
| ClickDownloadAll
| ChangeAspectRatio (newRatio : string)
| SaveSettings (newSettings : AppSettings)
| ClearLogs.

Inductive Event :=
| Ui (e : UiEvent)
| Engine (w : nat) (e : EngineEvent).

Section Engine.

Variable host : Host.

(** [itemsRef.current.findIndex(item => item.status === PENDING)]; [None] is
    the source's [-1]. *)
Definition findPendingIndex (l : list WorkItem) : option nat :=
  fst <$> list_find (fun item => item_status item = PENDING) l.

Definition set_worker (w : nat) (ph : Phase) (s : State) : State :=
  set_workers (fun ws => <[w := ph]> ws) s.

(** The [catch] of the loop body, up to [await delay(500)]. *)
Definition catch_error (w : nat) (currentItem : WorkItem) (message : option string)
    (s : State) : State :=
  let errorMsg := js_or_str message "Unknown error occurred" in
  s |> addLog host error
         ("Failed processing " +:+ file_name (item_file currentItem) +:+ ": " +:+ errorMsg)
    |> updateItem (item_id currentItem)
         {| p_status := Some ERROR; p_error := Some (Some errorMsg);
            p_progressLog := None; p_originalPrompt := None; p_generatedImageUrl := None |}
    |> set_worker w Pacing.

(** The loop body from its first statement to the first [await] inside
    [describeImage]. *)
Definition begin_item (w : nat) (currentItem : WorkItem) (s : State) : State :=
  let s1 :=
    s |> addLog host info
           ("Processing Item: " +:+ file_name (item_file currentItem)
              +:+ " (" +:+ item_id currentItem +:+ ")")
      |> updateItem (item_id currentItem)
           {| p_status := Some ANALYZING; p_originalPrompt := Some (Some EmptyString);
              p_progressLog := None; p_generatedImageUrl := None; p_error := None |}
      |> addLog host info "[Step 1] Sending to Vision API..." in
  let config := analysisConfig (settings s1) in
  match resolveApiKey host config with
  | None => catch_error w currentItem (Some analysis_key_missing) s1
  | Some apiKey => set_worker w (ReadingFile currentItem config apiKey) s1
  end.

(** From the return of [describeImage] to the first [await] inside
    [generateVariation]. *)
Definition begin_generation (w : nat) (currentItem : WorkItem) (description : string)
    (s : State) : State :=
  let s1 :=
    s |> updateItem (item_id currentItem)
           {| p_originalPrompt := Some (Some description);
              p_status := None; p_progressLog := None; p_generatedImageUrl := None;
              p_error := None |}
      |> addLog host success "[Step 1] Analysis complete."
      |> updateItem (item_id currentItem)
           {| p_status := Some GENERATING;
              p_progressLog := None; p_originalPrompt := None; p_generatedImageUrl := None;
              p_error := None |} in
  let s2 :=
    addLog host info
      ("[Step 2] Sending to Image Gen API (Ratio: "
         +:+ js_or_str (aspectRatio (generationConfig (settings s1))) "Default" +:+ ")...") s1 in
  let config := generationConfig (settings s2) in
  match resolveApiKey host config with
  | None => catch_error w currentItem (Some generation_key_missing) s2
  | Some apiKey =>
      set_worker w (Posting currentItem
                      (generation_request description config apiKey)) s2
  end.

(** From the return of [generateVariation] to [await delay(500)]. *)
Definition complete_item (w : nat) (currentItem : WorkItem) (generatedImage : string)
    (s : State) : State :=
  s |> updateItem (item_id currentItem)
         {| p_status := Some COMPLETED; p_generatedImageUrl := Some (Some generatedImage);
            p_progressLog := None; p_originalPrompt := None; p_error := None |}
    |> addLog host success "[Step 2] Image generation successful."
    |> set_worker w Pacing.

(** The [finally] block. *)
Definition finish_queue (w : nat) (s : State) : State :=
  s |> set_isProcessingRef false
    |> setIsProcessing false
    |> addLog host info "Queue processing finished or stopped."
    |> set_worker w Exited.

(** The test of the [while] with [currentIndex] just computed.  An index past
    the end makes [currentItem.file] throw, which leaves through [finally]. *)
Definition loop_head (w : nat) (currentIndex : option nat) (s : State) : State :=
  match currentIndex with
  | Some i =>
      if isProcessingRef s then
        match items s !! i with
        | Some currentItem => begin_item w currentItem s
        | None => finish_queue w s
        end
      else finish_queue w s
  | None => finish_queue w s
  end.

(** [processQueue()], up to its first suspension.  The new invocation takes
    the next free slot of [workers]. *)
Definition processQueue (s : State) : State :=
  if isProcessingRef s then s
  else
    let w := length (workers s) in
    s |> set_workers (fun ws => ws ++ [Exited])
      |> set_isProcessingRef true
      |> setIsProcessing true
      |> addLog host info "Queue processing started."
      |> (fun s1 => loop_head w (findPendingIndex (items s1)) s1).

(** Invocation [w] resumes with what its [await] delivers.  An event its
    current [await] is not waiting for does nothing. *)
Definition engine_step (w : nat) (e : EngineEvent) (s : State) : State :=
  match workers s !! w, e with
  | Some (ReadingFile c config apiKey), FileReadDone (FileLoaded _) =>
      set_worker w (Streaming c config EmptyString) s
  | Some (ReadingFile c config apiKey), FileReadDone (FileFailed message) =>
      catch_error w c message s
  | Some (Streaming c config fullText), SdkChunk chunk_text =>
      let '(fullText', update) := describe_chunk fullText chunk_text in
      let s1 :=
        match update with
        | Some partialText =>
            updateItem (item_id c)
              {| p_originalPrompt := Some (Some partialText);
                 p_status := None; p_progressLog := None; p_generatedImageUrl := None;
                 p_error := None |} s
        | None => s
        end in
      set_worker w (Streaming c config fullText') s1
  | Some (Streaming c config fullText), SdkEnds EndOfStream =>
      begin_generation w c (describe_return fullText) s
  | Some (Streaming c config fullText), SdkEnds (StreamThrows message) =>
      catch_error w c (Some (describe_catch config message)) s
  | Some (Posting c request), NetAnswers net =>
      match generation_try host (net request) with
      | At _ (Resolved generatedImage) => complete_item w c generatedImage s
      | At _ (Rejected message) => catch_error w c message s
      | Never => s
      end
  | Some Pacing, DelayElapsed =>
      loop_head w (findPendingIndex (items s)) s
  | _, _ => s
  end.

(** The footer with the batch controls is rendered when there are items. *)
Definition footer_shown (s : State) : bool :=
  match items s with [] => false | _ => true end.

(** The page as rendered from [s] reacting to a user event: a control that is
    not rendered, or is disabled, receives no click. *)
Definition ui_step (e : UiEvent) (s : State) : State :=
  match e with
  | SelectFiles files => handleFilesSelected host files s
  | ClickRetry i =>
      match items s !! i with
      | Some item =>
          if decide (item_status item = ERROR) then handleRetryItem host (item_id item) s else s
      | None => s
      end
  | ClickRemove i =>
      match items s !! i with
      | Some item => handleRemoveItem (item_id item) s
      | None => s
      end
  | ClickStart =>
      if footer_shown s && negb (isProcessing s) && negb (Nat.eqb (pending (stats s)) 0)
      then processQueue s else s
  | ClickStop =>
      if footer_shown s && isProcessing s then stopProcessing host s else s
  | ClickClearCompleted =>
      if footer_shown s && negb (isProcessing s) then clearCompleted host s else s
  | ClickResetAll =>
      if footer_shown s && negb (isProcessing s) then resetAll host s else s
  | ClickDownloadAll =>
      if footer_shown s && negb (isProcessing s || Nat.eqb (completed (stats s)) 0)
      then handleBatchDownload host s else s
  | ChangeAspectRatio newRatio => handleAspectRatioChange host newRatio s
  | SaveSettings newSettings => saveSettings host newSettings s
  | ClearLogs => setLogs (fun _ => []) s
  end.

Definition step (e : Event) (s : State) : State :=
  match e with
  | Ui e => ui_step e s
  | Engine w e => engine_step w e s
  end.

Definition run (es : list Event) (s : State) : State := foldl (fun s e => step e s) s es.

(** The states the page can be in. *)
Inductive reachable : State -> Prop :=
| reachable_initial : reachable initial_state
| reachable_step s e : reachable s -> reachable (step e s).

End Engine.

(** ** Sequences of store operations *)

(** The two operations that add to the store or write into it. *)
Inductive StoreOp :=
| AddFiles (files : list File)
| Update (id : string) (updates : PartialWorkItem).

Definition store_op (host : Host) (s : State) (op : StoreOp) : State :=
  match op with
  | AddFiles files => handleFilesSelected host files s
  | Update id updates => updateItem id updates s
  end.

(** The files of the [AddFiles] operations, in call order and, within a
    call, in the order of the call. *)
Fixpoint added_files (ops : list StoreOp) : list File :=
  match ops with
  | [] => []
  | AddFiles files :: rest => files ++ added_files rest
  | Update _ _ :: rest => added_files rest
  end.

(** ** Sample inputs *)

Definition sample_host : Host :=
  {| random_id := fun n => pretty n;
     createObjectURL := fun f => "blob:" +:+ file_name f;
     meta_env := None;
     process_env := None;
     abort_message := Some "signal is aborted without reason" |}.

Definition sample_config (key : string) : ServiceConfig :=
  {| apiKey := Some key; baseUrl := None; model := None; aspectRatio := None;
     systemInstruction := None |}.

Definition sample_settings : AppSettings :=
  {| analysisConfig := sample_config "k1"; generationConfig := sample_config "k2" |}.

Definition sample_file (name : string) : File :=
  {| file_name := name; file_type := "image/png" |}.

Definition sample_response (url : string) : Response :=
  {| ok := true; status := 200; statusText := "OK"; text := Stalls;
     text_error_message := None;
     json := Arrives 5 (DataObject (Some url) None "{}") |}.

(** Three files have been added and the keys saved. *)
Definition sample_loaded : State :=
  run sample_host
    [Ui (SaveSettings sample_settings);
     Ui (SelectFiles [sample_file "a.png"; sample_file "b.png"; sample_file "c.png"])]
    initial_state.

(** The queue has been started: the first item is being analysed. *)
Definition sample_analyzing : State :=
  run sample_host [Ui ClickStart; Engine 0 (FileReadDone (FileLoaded "AAAA"))] sample_loaded.

(** The first item is being generated. *)
Definition sample_generating : State :=
  run sample_host [Engine 0 (SdkChunk (Some "a cat")); Engine 0 (SdkEnds EndOfStream)]
    sample_analyzing.

(** A full run in which the analysis of the second item failed. *)
Definition sample_finished : State :=
  run sample_host
    [Engine 0 (NetAnswers (fun _ => Responds 100 (sample_response "http://img/1")));
     Engine 0 DelayElapsed;
     Engine 0 (FileReadDone (FileLoaded "BBBB"));
     Engine 0 (SdkEnds (StreamThrows (Some "503 overloaded")));
     Engine 0 DelayElapsed;
     Engine 0 (FileReadDone (FileLoaded "CCCC"));
     Engine 0 (SdkChunk (Some "a dog"));
     Engine 0 (SdkEnds EndOfStream);
     Engine 0 (NetAnswers (fun _ => Responds 100 (sample_response "http://img/3")));
     Engine 0 DelayElapsed]
    sample_generating.

(** The value a possibly missing environment table holds under a key. *)
Definition env_lookup (table : option (string -> option string)) (key : string) : option string :=
  match table with
  | Some t => t key
  | None => None
  end.

(** A host whose build provides [VITE_API_KEY]. *)
Definition sample_host_with_env : Host :=
  {| random_id := fun n => pretty n;
     createObjectURL := fun f => "blob:" +:+ file_name f;
     meta_env := Some (fun key => if decide (key = "VITE_API_KEY") then Some "env-key" else None);
     process_env := None;
     abort_message := Some "signal is aborted without reason" |}.



(** ** The invariant of the reachable states *)

(** The item a suspended invocation is working on, and the status its last
    update gave that item. *)
Definition current (ph : Phase) : option (WorkItem * WorkflowStatus) :=
  match ph with
  | ReadingFile c _ _ => Some (c, ANALYZING)
  | Streaming c _ _ => Some (c, ANALYZING)
  | Posting c _ => Some (c, GENERATING)
  | Pacing => None
  | Exited => None
  end.

(** The id was produced by one of the first [n] calls of [generateId]. *)
Definition issued (host : Host) (n : nat) (id : string) : Prop :=
  exists k, k < n /\ id = random_id host k.

(** Result, error message and description agree with the status: a result
    exactly on a completed item, an error message exactly on a failed one, and
    a non-empty description once the analysis is over. *)
Definition item_consistent (item : WorkItem) : Prop :=
  (is_Some (generatedImageUrl item) <-> item_status item = COMPLETED) /\
  (is_Some (item_error item) <-> item_status item = ERROR) /\
  (item_status item = GENERATING \/ item_status item = COMPLETED ->
     exists d, originalPrompt item = Some d /\ d <> EmptyString).

Record Inv (host : Host) (s : State) : Prop := {
  inv_nodup : NoDup (item_id <$> items s);
  inv_issued : forall item, item ∈ items s -> issued host (idCalls s) (item_id item);
  inv_items : forall item, item ∈ items s -> item_consistent item;
  inv_current : forall w ph c st,
    workers s !! w = Some ph -> current ph = Some (c, st) ->
    issued host (idCalls s) (item_id c) /\
    forall item, item ∈ items s -> item_id item = item_id c -> item_status item = st;
  inv_inflight : forall w1 w2 ph1 ph2 c1 c2 st1 st2,
    workers s !! w1 = Some ph1 -> workers s !! w2 = Some ph2 ->
    current ph1 = Some (c1, st1) -> current ph2 = Some (c2, st2) ->
    item_id c1 = item_id c2 -> w1 = w2
}.

(** The items of [l] with those of id [id] replaced by their image under [g]. *)
Definition update_id (id : string) (g : WorkItem -> WorkItem) (l : list WorkItem) : list WorkItem :=
  (fun item => if decide (item_id item = id) then g item else item) <$> l.
(** ** What one invocation does to the state *)

(** A log record without its id. *)
Definition log_view (r : SystemLog) : LogType * string := (log_type r, log_message r).

(** Between [s] and [s'] invocation [w] has moved to [ph'], the items of id
    [id] have been rewritten by [g], the records [new] have been logged, and
    the flags and settings are as they were. *)
Record advances (w : nat) (ph' : Phase) (id : string) (g : WorkItem -> WorkItem)
    (new : list (LogType * string)) (s s' : State) : Prop := {
  adv_workers : workers s' = <[w := ph']> (workers s);
  adv_items : items s' = update_id id g (items s);
  adv_logs : log_view <$> logs s' = (log_view <$> logs s) ++ new;
  adv_ref : isProcessingRef s' = isProcessingRef s;
  adv_processing : isProcessing s' = isProcessing s;
  adv_settings : settings s' = settings s
}.

(** The events of one invocation, delivered in order. *)
Definition run_worker (host : Host) (w : nat) (es : list EngineEvent) (s : State) : State :=
  foldl (fun s e => engine_step host w e s) s es.

(** The updates the driver loop writes. *)
Definition set_analyzing : PartialWorkItem :=
  {| p_status := Some ANALYZING; p_originalPrompt := Some (Some EmptyString);
     p_progressLog := None; p_generatedImageUrl := None; p_error := None |}.

Definition set_prompt (text : string) : PartialWorkItem :=
  {| p_originalPrompt := Some (Some text); p_status := None; p_progressLog := None;
     p_generatedImageUrl := None; p_error := None |}.

Definition set_generating (description : string) : PartialWorkItem :=
  {| p_status := Some GENERATING; p_originalPrompt := Some (Some description);
     p_progressLog := None; p_generatedImageUrl := None; p_error := None |}.

Definition set_completed (generatedImage : string) : PartialWorkItem :=
  {| p_status := Some COMPLETED; p_generatedImageUrl := Some (Some generatedImage);
     p_progressLog := None; p_originalPrompt := None; p_error := None |}.

Definition set_error (errorMsg : string) : PartialWorkItem :=
  {| p_status := Some ERROR; p_error := Some (Some errorMsg);
     p_progressLog := None; p_originalPrompt := None; p_generatedImageUrl := None |}.

(** The message the [catch] of the loop logs and stores. *)
Definition errorMsg_of (message : option string) : string :=
  js_or_str message "Unknown error occurred".

Definition failed_record (currentItem : WorkItem) (message : option string) : LogType * string :=
  (error, "Failed processing " +:+ file_name (item_file currentItem) +:+ ": "
            +:+ errorMsg_of message).

(** The text [fullText] has grown to after the chunks. *)
Fixpoint stream_text (fullText : string) (chunks : list (option string)) : string :=
  match chunks with
  | [] => fullText
  | c :: rest => stream_text (fst (describe_chunk fullText c)) rest
  end.

(** [g] leaves everything of an item but its description. *)
Definition keeps_but_prompt (g : WorkItem -> WorkItem) : Prop :=
  forall item,
    item_id (g item) = item_id item /\ item_file (g item) = item_file item /\
    previewUrl (g item) = previewUrl item /\ item_status (g item) = item_status item /\
    progressLog (g item) = progressLog item /\
    generatedImageUrl (g item) = generatedImageUrl item /\
    item_error (g item) = item_error item.

(** [item'] is [item] completed with this description and result. *)
Definition completed_as (description generatedImage : string) (item item' : WorkItem) : Prop :=
  item_id item' = item_id item /\ item_file item' = item_file item /\
  item_status item' = COMPLETED /\ originalPrompt item' = Some description /\
  generatedImageUrl item' = Some generatedImage /\ item_error item' = item_error item.

(** [item'] is [item] failed with this message. *)
Definition failed_as (errorMsg : string) (item item' : WorkItem) : Prop :=
  item_id item' = item_id item /\ item_file item' = item_file item /\
  item_status item' = ERROR /\ item_error item' = Some errorMsg /\
  generatedImageUrl item' = generatedImageUrl item.

(** The events of an analysis that reads its file and streams [chunks]. *)
Definition analysis_events (base64 : string) (chunks : list (option string)) : list EngineEvent :=
  FileReadDone (FileLoaded base64) :: (SdkChunk <$> chunks).

(** The events of an item whose two stages succeed. *)
Definition success_events (base64 : string) (chunks : list (option string))
    (net : GenRequest -> NetBehaviour) : list EngineEvent :=
  analysis_events base64 chunks ++ [SdkEnds EndOfStream; NetAnswers net].

(** The two ways the analysis of an item can fail once the key is there: the
    file cannot be read, or the SDK throws, at once or after some chunks. *)
Inductive AnalysisFailure :=
| FileReadFails (message : option string)
| SdkFails (base64 : string) (chunks : list (option string)) (message : option string).

Definition failure_events (f : AnalysisFailure) : list EngineEvent :=
  match f with
  | FileReadFails message => [FileReadDone (FileFailed message)]
  | SdkFails base64 chunks message =>
      analysis_events base64 chunks ++ [SdkEnds (StreamThrows message)]
  end.

(** The message of the error [describeImage] rejects with. *)
Definition failure_message (config : ServiceConfig) (f : AnalysisFailure) : option string :=
  match f with
  | FileReadFails message => message
  | SdkFails _ _ message => Some (describe_catch config message)
  end.

(** [item'] is [item] brought to an end, one way or the other. *)
Definition terminal_as (item item' : WorkItem) : Prop :=
  item_id item' = item_id item /\ item_file item' = item_file item /\
  (item_status item' = COMPLETED \/ item_status item' = ERROR).

(** What the rest of an item in flight may bring: the file read, the chunks,
    the end of the stream and the answer of the image service.  The
    invocation takes from it what it is still waiting for. *)
Definition rest_of_item (read : FileRead) (chunks : list (option string)) (finish : StreamEnd)
    (net : GenRequest -> NetBehaviour) : list EngineEvent :=
  FileReadDone read :: (SdkChunk <$> chunks) ++ [SdkEnds finish; NetAnswers net].

(** Whether an invocation suspended at [ph] is waiting for the event. *)
Definition awaited (ph : Phase) (e : EngineEvent) : bool :=
  match ph, e with
  | ReadingFile _ _ _, FileReadDone _ => true
  | Streaming _ _ _, SdkChunk _ => true
  | Streaming _ _ _, SdkEnds EndOfStream => true
  | Streaming _ _ _, SdkEnds (StreamThrows _) => true
  | Posting _ _, NetAnswers _ => true
  | Pacing, DelayElapsed => true
  | _, _ => false
  end.

(** Events of any invocations, delivered in order. *)
Definition run_engine (host : Host) (es : list (nat * EngineEvent)) (s : State) : State :=
  foldl (fun s e => engine_step host e.1 e.2 s) s es.


(** An item as [handleFilesSelected] creates it. *)
Definition sample_item (id name : string) : WorkItem :=
  {| item_id := id; item_file := sample_file name; previewUrl := "blob:" +:+ name;
     item_status := PENDING; progressLog := ["Queued for processing..."];
     originalPrompt := None; generatedImageUrl := None; item_error := None |}.

(** ** The loop and the store order *)

(** Between [s] and [s'] invocation [w] has begun the item [item] found at
    position [i]: the item there has left [PENDING] for [ANALYZING], or for
    [ERROR] when the analysis could not even be called, with its id and file;
    the items of other ids are as they were, no item has come or gone; and
    the invocation has not left its loop and holds no other item. *)
Definition begins_item (w i : nat) (item : WorkItem) (s s' : State) : Prop :=
  (exists item',
      items s' !! i = Some item' /\
      item_id item' = item_id item /\ item_file item' = item_file item /\
      (item_status item' = ANALYZING \/ item_status item' = ERROR)) /\
  (forall j other, items s !! j = Some other -> item_id other <> item_id item ->
      items s' !! j = Some other) /\
  length (items s') = length (items s) /\
  (exists ph, workers s' !! w = Some ph /\ ph <> Exited /\
      forall c st, current ph = Some (c, st) -> c = item).

(** Every invocation of [processQueue] has run its [finally]: no loop is
    left. *)
Definition loop_ended (s : State) : Prop :=
  forall w ph, workers s !! w = Some ph -> ph = Exited.

(** Stop has been clicked while the first item was being analysed. *)
Definition sample_stopped : State := run sample_host [Ui ClickStop] sample_analyzing.

(** The first item is completed and the second is being analysed when Stop
    is clicked. *)
Definition sample_stopped_later : State :=
  run sample_host
    [Engine 0 (NetAnswers (fun _ => Responds 100 (sample_response "http://img/1")));
     Engine 0 DelayElapsed;
     Engine 0 (FileReadDone (FileLoaded "BBBB"));
     Ui ClickStop]
    sample_generating.
(** ** The steps of the state machine *)

(** The status changes one step of the driver loop can make to an item.  A
    missing analysis key takes a pending item to [ERROR] within the step that
    started it, and a missing generation key takes an item under analysis to
    [ERROR] within the step that ended its stream. *)
Definition transition (a b : WorkflowStatus) : bool :=
  match a, b with
  | PENDING, ANALYZING => true
  | PENDING, ERROR => true
  | ANALYZING, GENERATING => true
  | ANALYZING, ERROR => true
  | GENERATING, COMPLETED => true
  | GENERATING, ERROR => true
  | _, _ => false
  end.

(** The item is being worked on. *)
Definition active (item : WorkItem) : Prop :=
  item_status item = ANALYZING \/ item_status item = GENERATING.

#[global] Instance active_dec item : Decision (active item).
Proof. unfold active. apply _. Defined.

(** What the update [u] of one loop step does, when the step found the item
    in status [st] and leaves the invocation at [ph']: it writes a result only
    together with [COMPLETED] and an error message only together with
    [ERROR], neither of them empty; it changes the status along a
    [transition] or not at all; it leaves [progressLog] alone; and the
    invocation stays on the item exactly when the item is not over. *)
Record update_ok (st : WorkflowStatus) (c : WorkItem) (ph' : Phase) (u : PartialWorkItem)
    : Prop := {
  uo_result :
    p_generatedImageUrl u = None \/
    exists url, p_generatedImageUrl u = Some (Some url) /\ url <> EmptyString /\
                p_status u = Some COMPLETED;
  uo_error :
    p_error u = None \/
    exists msg, p_error u = Some (Some msg) /\ msg <> EmptyString /\
                p_status u = Some ERROR;
  uo_status :
    p_status u = None \/ exists st', p_status u = Some st' /\ transition st st' = true;
  uo_progressLog : p_progressLog u = None;
  uo_exited : ph' <> Exited;
  uo_over :
    current ph' = None -> p_status u = Some COMPLETED \/ p_status u = Some ERROR;
  uo_current :
    forall c' st', current ph' = Some (c', st') ->
      c' = c /\ default st (p_status u) = st'
}.

(** The identity of an item: what no operation but creation ever sets. *)
Definition identity (item : WorkItem) : string * File * string :=
  (item_id item, item_file item, previewUrl item).

(** The update that writes nothing. *)
Definition write_nothing : PartialWorkItem :=
  {| p_status := None; p_progressLog := None; p_originalPrompt := None;
     p_generatedImageUrl := None; p_error := None |}.

(** Every active item is the item of some invocation in flight. *)
Definition attended (s : State) : Prop :=
  forall item, item ∈ items s -> active item ->
    exists w ph c st, workers s !! w = Some ph /\ current ph = Some (c, st) /\
                      item_id c = item_id item.

(** The two running flags agree, and they are up only while some invocation
    has not left its loop. *)
Definition flags_ok (s : State) : Prop :=
  isProcessing s = isProcessingRef s /\
  (isProcessingRef s = true -> exists w ph, workers s !! w = Some ph /\ ph <> Exited).

(** Results and error messages, where present, are not empty. *)
Definition filled (item : WorkItem) : Prop :=
  (forall url, generatedImageUrl item = Some url -> url <> EmptyString) /\
  (forall msg, item_error item = Some msg -> msg <> EmptyString).


(** The update [handleRetryItem] writes. *)
Definition set_retry : PartialWorkItem :=
  {| p_status := Some PENDING; p_error := Some None; p_generatedImageUrl := Some None;
     p_originalPrompt := Some None; p_progressLog := Some ["Retrying..."] |}.

(** What one step does to the items and to the invocations.  A step of the
    user ([user] is [true]) may take items out, append new ones or reset a
    failed item.  In any step an invocation, already there or just created,
    may write an update to the item it has in flight or to the pending item
    it starts, or an invocation that has no item in flight may leave. *)
Inductive changes (host : Host) (user : bool) (s s' : State) : Prop :=
| changes_same :
    items s' = items s -> workers s' = workers s -> changes host user s s'
| changes_sublist :
    user = true ->
    items s' `sublist_of` items s -> workers s' = workers s -> changes host user s s'
| changes_add files :
    user = true ->
    items s' = items s ++ newItems host (idCalls s) files -> workers s' = workers s ->
    changes host user s s'
| changes_retry i item :
    user = true ->
    items s !! i = Some item -> item_status item = ERROR ->
    items s' = update_id (item_id item) (fun item => spread item set_retry) (items s) ->
    workers s' = workers s -> changes host user s s'
| changes_work ws w ph c st ph' u :
    ws = workers s \/ ws = workers s ++ [Exited] ->
    ws !! w = Some ph ->
    current ph = Some (c, st) \/
    (current ph = None /\ st = PENDING /\ c ∈ items s /\ item_status c = PENDING) ->
    items s' = update_id (item_id c) (fun item => spread item u) (items s) ->
    workers s' = <[w := ph']> ws ->
    update_ok st c ph' u -> changes host user s s'
| changes_finish ws w ph :
    ws = workers s \/ ws = workers s ++ [Exited] ->
    ws !! w = Some ph -> current ph = None ->
    items s' = items s -> workers s' = <[w := Exited]> ws -> changes host user s s'.

(** Whether the event is a command of the user. *)
Definition by_user (e : Event) : bool :=
  match e with Ui _ => true | Engine _ _ => false end.

(** The first item of the sample run while it is analysed, and once its
    stream has ended without text. *)
Definition sample_item_analyzing : WorkItem :=
  spread (sample_item "1" "a.png") set_analyzing.

Definition sample_item_generating : WorkItem :=
  spread (sample_item "1" "a.png") (set_generating "No description generated.").

(** The number of items of a status. *)
Definition count_status (st : WorkflowStatus) (l : list WorkItem) : nat :=
  length (filter (fun item => item_status item = st) l).

(** The update of an item whose analysis key is missing: the loop marks it
    [ANALYZING] with an empty description and its [catch] fails it. *)
Definition set_no_analysis_key : PartialWorkItem :=
  {| p_status := Some ERROR; p_originalPrompt := Some (Some EmptyString);
     p_error := Some (Some analysis_key_missing);
     p_progressLog := None; p_generatedImageUrl := None |}.

(** [logs.some(l => l.type === 'error')]: the mark on the button of the
    debug console. *)
Definition error_mark (s : State) : bool :=
  existsb (fun l => bool_decide (log_type l = error)) (logs s).

(** ** A whole run of the queue *)

(** What the outside world delivers for one item: the file read, the chunks
    and the end of the stream, and the behaviour of the image service. *)
Record Outcome := {
  o_read : FileRead;
  o_chunks : list (option string);
  o_finish : StreamEnd;
  o_net : GenRequest -> NetBehaviour
}.

(** Both stage calls settle: the stream ends and the image request is
    answered, fails or is aborted. *)
Definition settles (host : Host) (o : Outcome) : Prop :=
  o_finish o <> StreamStalls /\
  forall request, generation_try host (o_net o request) <> Never.

(** The events of an invocation that has just started an item, for the items
    of the plan in turn: the rest of the item, then the end of the delay. *)
Definition queue_events (plan : list Outcome) : list EngineEvent :=
  flat_map (fun o => rest_of_item (o_read o) (o_chunks o) (o_finish o) (o_net o)
                       ++ [DelayElapsed]) plan.

(** [item'] is what a finished run leaves of [item]: a pending item has come
    to an end, any other item is as it was. *)
Definition finished_from (item item' : WorkItem) : Prop :=
  if decide (item_status item = PENDING) then terminal_as item item' else item' = item.

(** An item whose analysis and generation succeed, and one whose stream
    breaks. *)
Definition sample_outcome (url : string) : Outcome :=
  {| o_read := FileLoaded "AAAA"; o_chunks := [Some "a cat"]; o_finish := EndOfStream;
     o_net := fun _ => Responds 100 (sample_response url) |}.

Definition sample_outcome_failing : Outcome :=
  {| o_read := FileLoaded "BBBB"; o_chunks := [];
     o_finish := StreamThrows (Some "503 overloaded"); o_net := fun _ => Silent |}.

(** ** The stage clients *)

(** The string holds white space only. *)
Fixpoint blank (s : string) : bool :=
  match s with
  | EmptyString => true
  | String c r => is_space c && blank r
  end.

(** The configuration with another base URL. *)
Definition with_baseUrl (u : option string) (config : ServiceConfig) : ServiceConfig :=
  {| apiKey := apiKey config; baseUrl := u; model := model config;
     aspectRatio := aspectRatio config; systemInstruction := systemInstruction config |}.

(** ** services/utils.ts: fileToBase64 *)

(** [s.split(sep)] for a separator of one character: the pieces between the
    separators, in order; a string without the separator is its only piece. *)
Fixpoint split_on (sep : ascii) (s : string) : list string :=
  match s with
  | EmptyString => [EmptyString]
  | String c r =>
      if Ascii.eqb c sep then EmptyString :: split_on sep r
      else
        match split_on sep r with
        | piece :: pieces => String c piece :: pieces
        | [] => [String c EmptyString]
        end
  end.

(** Whether the character occurs in the string. *)
Fixpoint has_char (c : ascii) (s : string) : bool :=
  match s with
  | EmptyString => false
  | String c' r => Ascii.eqb c' c || has_char c r
  end.

(** What the [FileReader] ends with: [onload] with [reader.result] a string
    or something else, or [onerror]. *)
Inductive ReaderResult :=
| ResultString (s : string)
| ResultOther.

Inductive ReaderEnd :=
| OnLoad (result : ReaderResult)
| OnError (message : option string).

(** [fileToBase64(file)]: how the promise settles.  The value it resolves
    with is [reader.result.split(',')[1]], which is [undefined] ([None]) when
    the result holds no comma. *)
Definition fileToBase64 (e : ReaderEnd) : Settled (option string) :=
  match e with
  | OnLoad (ResultString s) => Resolved (split_on "," s !! 1)
  | OnLoad ResultOther => Rejected (Some "Failed to convert file to base64")
  | OnError message => Rejected message
  end.

(** ** components/FlowCanvasItem.tsx *)

(** The pane of the description: the text, with the cursor while the item
    is analysed, or a placeholder. *)
Inductive PromptPane :=
| PromptText (text : string) (cursor : bool)
| PromptPlaceholder (text : string).

Definition prompt_pane (item : WorkItem) : PromptPane :=
  if truthy (originalPrompt item)
  then PromptText (js_or_str (originalPrompt item) EmptyString)
         (bool_decide (item_status item = ANALYZING))
  else PromptPlaceholder
         (if decide (item_status item = PENDING) then "Waiting for analysis..."
          else "Analysis failed.").

(** [item.error && ..]: the message of the error box, when it is rendered. *)
Definition error_box (item : WorkItem) : option string :=
  if truthy (item_error item) then item_error item else None.

(** The pane of the result: the image, the spinner or the word Waiting. *)
Inductive OutputPane :=
| OutputImage (src : string)
| OutputRendering
| OutputWaiting.

Definition output_pane (item : WorkItem) : OutputPane :=
  if truthy (generatedImageUrl item)
  then OutputImage (js_or_str (generatedImageUrl item) EmptyString)
  else if decide (item_status item = GENERATING) then OutputRendering else OutputWaiting.

(** [item.status === WorkflowStatus.ERROR && onRetry]: whether the retry
    control is rendered, [onRetry] telling whether the handler was passed. *)
Definition retry_shown (onRetry : bool) (item : WorkItem) : bool :=
  bool_decide (item_status item = ERROR) && onRetry.

(** The badge DONE. *)
Definition done_badge (item : WorkItem) : bool :=
  bool_decide (item_status item = COMPLETED).

(** A pending item has no description. *)
Definition pending_blank (s : State) : Prop :=
  forall item, item ∈ items s -> item_status item = PENDING -> originalPrompt item = None.

(** The first item of the sample run once it is completed. *)
Definition sample_item_completed : WorkItem :=
  spread (spread (sample_item "1" "a.png") (set_generating "a cat"))
    (set_completed "http://img/1").

(** ** App.tsx: the downloads of handleBatchDownload *)

(** One [link.click()]: the address, the file name and the delay of its
    timer in milliseconds. *)
Record Download := { dl_href : string; dl_name : string; dl_delay : nat }.

(** [name.split('.')[0]]. *)
Definition stem (name : string) : string :=
  default EmptyString (head (split_on "." name)).

(** The items [handleBatchDownload] keeps. *)
Definition completedItems (l : list WorkItem) : list WorkItem :=
  filter (fun item => item_status item = COMPLETED /\ truthy (generatedImageUrl item) = true) l.

(** [completedItems.forEach((item, index) => setTimeout(.., index * 500))]. *)
Definition batchDownloads (l : list WorkItem) : list Download :=
  imap (fun index item =>
          {| dl_href := js_or_str (generatedImageUrl item) EmptyString;
             dl_name := "batch-" +:+ pretty (index + 1) +:+ "-"
                          +:+ stem (file_name (item_file item)) +:+ ".png";
             dl_delay := index * 500 |})
       (completedItems l).

(** ** components/SettingsModal.tsx *)

(** The two sections of the settings, [section] of [handleChange]. *)
Inductive ConfigSection := AnalysisSection | GenerationSection.

(** [keyof ServiceConfig]. *)
Inductive ConfigField :=
| ApiKeyField | BaseUrlField | ModelField | AspectRatioField | SystemInstructionField.

(** [{ ...config, [field]: value }]. *)
Definition set_field (field : ConfigField) (value : string) (config : ServiceConfig)
    : ServiceConfig :=
  {| apiKey := if field is ApiKeyField then Some value else apiKey config;
     baseUrl := if field is BaseUrlField then Some value else baseUrl config;
     model := if field is ModelField then Some value else model config;
     aspectRatio := if field is AspectRatioField then Some value else aspectRatio config;
     systemInstruction :=
       if field is SystemInstructionField then Some value else systemInstruction config |}.

(** The configuration without a key of its own. *)
Definition without_apiKey (config : ServiceConfig) : ServiceConfig :=
  {| apiKey := None; baseUrl := baseUrl config; model := model config;
     aspectRatio := aspectRatio config; systemInstruction := systemInstruction config |}.

(** [handleChange(section, field, value)] on the form data. *)
Definition handleChange (section : ConfigSection) (field : ConfigField) (value : string)
    (prev : AppSettings) : AppSettings :=
  match section with
  | AnalysisSection =>
      {| analysisConfig := set_field field value (analysisConfig prev);
         generationConfig := generationConfig prev |}
  | GenerationSection =>
      {| analysisConfig := analysisConfig prev;
         generationConfig := set_field field value (generationConfig prev) |}
  end.

(** The inputs of the form, each bound to one field of the active tab. *)
Inductive FormInput := BaseUrlInput | ModelInput | ApiKeyInput | SystemInstructionInput.

Definition input_field (input : FormInput) : ConfigField :=
  match input with
  | BaseUrlInput => BaseUrlField
  | ModelInput => ModelField
  | ApiKeyInput => ApiKeyField
  | SystemInstructionInput => SystemInstructionField
  end.

(** The form data after the change events of a session, in order; the form
    opens on the current settings. *)
Definition edit_form (edits : list (ConfigSection * FormInput * string))
    (formData : AppSettings) : AppSettings :=
  foldl (fun prev e => handleChange e.1.1 (input_field e.1.2) e.2 prev) formData edits.

(** ** Failures and the log *)

(** Between [s] and [s'] records were appended to the log, and either none
    of them is an error record and no item has turned [ERROR], or exactly one
    is: it names the file of some item [c] and a message, and the items of
    the id of [c] are now [ERROR] with that message while the others are as
    they were. *)
Definition reports_failures (s s' : State) : Prop :=
  exists new,
    log_view <$> logs s' = (log_view <$> logs s) ++ new /\
    ((filter (fun r : LogType * string => r.1 = error) new = [] /\
      forall i item item',
        items s !! i = Some item -> items s' !! i = Some item' ->
        item_status item' = ERROR -> item_status item = ERROR) \/
     (exists c msg,
        filter (fun r : LogType * string => r.1 = error) new
        = [(error, "Failed processing " +:+ file_name (item_file c) +:+ ": " +:+ msg)] /\
        msg <> EmptyString /\
        forall i item item',
          items s !! i = Some item -> items s' !! i = Some item' ->
          (item_id item = item_id c ->
           item_status item' = ERROR /\ item_error item' = Some msg) /\
          (item_id item <> item_id c -> item' = item))).
(** * Properties *)

(** ** The store and the log under the basic operations *)

Section StoreFacts.

Variable host : Host.

Lemma addLog_logs type message s :
  logs (addLog host type message s)
  = logs s ++ [{| log_id := random_id host (idCalls s); log_type := type;
                  log_message := message |}].
Proof. reflexivity. Qed.

Lemma updateItem_items id u s :
  items (updateItem id u s)
  = (fun item => if decide (item_id item = id) then spread item u else item) <$> items s.
Proof. reflexivity. Qed.

Lemma spread_id item u : item_id (spread item u) = item_id item.
Proof. reflexivity. Qed.

(** An update keeps every item at its place, with its id and its file. *)
Lemma updateItem_ids id u s : item_id <$> items (updateItem id u s) = item_id <$> items s.
Proof.
  rewrite updateItem_items, <- list_fmap_compose. apply list_fmap_ext.
  intros i item _. simpl. by destruct (decide _).
Qed.

Lemma updateItem_files id u s : item_file <$> items (updateItem id u s) = item_file <$> items s.
Proof.
  rewrite updateItem_items, <- list_fmap_compose. apply list_fmap_ext.
  intros i item _. simpl. by destruct (decide _).
Qed.

Lemma updateItem_length id u s : length (items (updateItem id u s)) = length (items s).
Proof. rewrite updateItem_items. apply length_fmap. Qed.

Lemma updateItem_lookup id u s i :
  items (updateItem id u s) !! i
  = (fun item => if decide (item_id item = id) then spread item u else item) <$> items s !! i.
Proof. rewrite updateItem_items. apply list_lookup_fmap. Qed.

Lemma updateItem_lookup_ne id u s i item :
  items s !! i = Some item -> item_id item <> id ->
  items (updateItem id u s) !! i = Some item.
Proof. intros Hi Hne. rewrite updateItem_lookup, Hi. simpl. by rewrite decide_False. Qed.

Lemma updateItem_lookup_eq id u s i item :
  items s !! i = Some item -> item_id item = id ->
  items (updateItem id u s) !! i = Some (spread item u).
Proof. intros Hi He. rewrite updateItem_lookup, Hi. simpl. by rewrite decide_True. Qed.

(** An update for an id the store does not hold changes nothing. *)
Lemma updateItem_absent id u s :
  id ∉ (item_id <$> items s) -> updateItem id u s = s.
Proof.
  intros Hid. destruct s as [its lg p r st ws n]. unfold updateItem, setItems. simpl in *.
  f_equal. induction its as [|item its IH]; [done|].
  rewrite fmap_cons, not_elem_of_cons in Hid. destruct Hid as [Hne Hid].
  rewrite fmap_cons, IH by done. by rewrite decide_False.
Qed.

Lemma newItems_files n files : item_file <$> newItems host n files = files.
Proof. revert n. induction files as [|f files IH]; intros n; simpl; [done|]. by rewrite IH. Qed.

Lemma newItems_length n files : length (newItems host n files) = length files.
Proof. revert n. induction files as [|f files IH]; intros n; simpl; [done|]. by rewrite IH. Qed.

Lemma newItems_lookup n files k item :
  newItems host n files !! k = Some item ->
  item_id item = random_id host (n + k) /\ item_status item = PENDING /\
  generatedImageUrl item = None /\ item_error item = None /\
  files !! k = Some (item_file item).
Proof.
  revert n k. induction files as [|f files IH]; intros n k; simpl; [done|].
  destruct k as [|k]; simpl.
  - intros [= <-]. simpl. by rewrite Nat.add_0_r.
  - intros Hk. apply IH in Hk. by rewrite <- Nat.add_succ_comm.
Qed.

Lemma handleFilesSelected_items files s :
  items (handleFilesSelected host files s) = items s ++ newItems host (idCalls s) files.
Proof. reflexivity. Qed.

Lemma handleRemoveItem_items id s :
  items (handleRemoveItem id s) = filter (fun item => item_id item <> id) (items s).
Proof. reflexivity. Qed.

Lemma handleRetryItem_items id s :
  items (handleRetryItem host id s)
  = items (updateItem id
             {| p_status := Some PENDING; p_error := Some None;
                p_generatedImageUrl := Some None; p_originalPrompt := Some None;
                p_progressLog := Some ["Retrying..."] |} s).
Proof. reflexivity. Qed.

(** [findIndex] returns the first index that holds a pending item. *)
Lemma findPendingIndex_Some l i :
  findPendingIndex l = Some i <->
  exists item, l !! i = Some item /\ item_status item = PENDING /\
    forall j item', l !! j = Some item' -> j < i -> item_status item' <> PENDING.
Proof.
  unfold findPendingIndex. split.
  - intros H. apply fmap_Some in H as [[i' item] [H ->]]. simpl.
    apply list_find_Some in H as (Hi & Hp & Hlt). exists item. auto.
  - intros (item & Hi & Hp & Hlt). apply fmap_Some. exists (i, item). split; [|done].
    apply list_find_Some. auto.
Qed.

Lemma findPendingIndex_None l :
  findPendingIndex l = None <-> Forall (fun item => item_status item <> PENDING) l.
Proof.
  unfold findPendingIndex. rewrite fmap_None. apply list_find_None.
Qed.

End StoreFacts.

(** ** Retry *)

Section Retry.

Variable host : Host.

(** C3.  Retry, as the page offers it.  The retry control of an item is
    rendered only while its status is [ERROR], so on an item in any other
    status a retry is rejected: the state, and with it the item, is
    unchanged.  On a failed item the control runs [handleRetryItem]: the item
    is [PENDING] again with [error], [generatedImageUrl] and [originalPrompt]
    undefined, it keeps its id, its file and its position, and every item of
    another id stays as it is. *)
Theorem handleRetryItem_resets (s : State) (i : nat) (item : WorkItem) :
  items s !! i = Some item ->
  (item_status item <> ERROR -> ui_step host (ClickRetry i) s = s) /\
  (item_status item = ERROR ->
     ui_step host (ClickRetry i) s = handleRetryItem host (item_id item) s /\
     (exists item',
         items (ui_step host (ClickRetry i) s) !! i = Some item' /\
         item_id item' = item_id item /\ item_file item' = item_file item /\
         item_status item' = PENDING /\ item_error item' = None /\
         generatedImageUrl item' = None /\ originalPrompt item' = None) /\
     (forall j other, items s !! j = Some other -> item_id other <> item_id item ->
         items (ui_step host (ClickRetry i) s) !! j = Some other)).
Proof.
  intros Hi. split.
  - intros Hst. simpl. rewrite Hi. by rewrite decide_False.
  - intros Hst.
    assert (Hui : ui_step host (ClickRetry i) s = handleRetryItem host (item_id item) s).
    { simpl. rewrite Hi. by rewrite decide_True. }
    rewrite Hui. split; [done|]. split.
    + eexists. split.
      * rewrite handleRetryItem_items. by apply updateItem_lookup_eq.
      * done.
    + intros j other Hj Hne. rewrite handleRetryItem_items. by apply updateItem_lookup_ne.
Qed.

End Retry.

Lemma handleRetryItem_resets_witness :
  items sample_finished !! 1 = Some
    {| item_id := "2"; item_file := sample_file "b.png"; previewUrl := "blob:b.png";
       item_status := ERROR; progressLog := ["Queued for processing..."];
       originalPrompt := Some EmptyString; generatedImageUrl := None;
       item_error := Some "Analysis failed: 503 overloaded" |} /\
  item_status <$> items (ui_step sample_host (ClickRetry 1) sample_finished)
  = [COMPLETED; PENDING; COMPLETED].
Proof.
  assert (H : items sample_finished !! 1 = Some
    {| item_id := "2"; item_file := sample_file "b.png"; previewUrl := "blob:b.png";
       item_status := ERROR; progressLog := ["Queued for processing..."];
       originalPrompt := Some EmptyString; generatedImageUrl := None;
       item_error := Some "Analysis failed: 503 overloaded" |}) by reflexivity.
  split; [exact H|].
  destruct (handleRetryItem_resets sample_host sample_finished 1 _ H) as (_ & Hui).
  destruct (Hui eq_refl) as (Heq & _). rewrite Heq. reflexivity.
Defined.

(** ** Removal *)

Section Remove.

Variable host : Host.

(** C4, as the code has it.  Removal has no guard, neither in
    [handleRemoveItem] nor in the view, whose remove control is rendered for
    every item: clicking it on an item in any status, [ANALYZING] and
    [GENERATING] included, takes every item with that id out of the store and
    keeps the others in order; the updates the driver loop later issues for
    the removed id then change nothing. *)
Theorem handleRemoveItem_unguarded (s : State) (i : nat) (item : WorkItem) :
  items s !! i = Some item ->
  (items (ui_step host (ClickRemove i) s)
   = filter (fun other => item_id other <> item_id item) (items s)) /\
  (item ∉ items (ui_step host (ClickRemove i) s)) /\
  (forall other, other ∈ items s -> item_id other <> item_id item ->
      other ∈ items (ui_step host (ClickRemove i) s)) /\
  (forall updates,
      updateItem (item_id item) updates (ui_step host (ClickRemove i) s)
      = ui_step host (ClickRemove i) s).
Proof.
  intros Hi. simpl. rewrite Hi. rewrite handleRemoveItem_items. repeat split.
  - rewrite list_elem_of_filter. intros [Hne _]. by apply Hne.
  - intros other Hin Hne. apply list_elem_of_filter. done.
  - intros updates. apply updateItem_absent. rewrite handleRemoveItem_items.
    rewrite list_elem_of_fmap. intros (other & Hid & Hin).
    apply list_elem_of_filter in Hin as [Hne _]. congruence.
Qed.

End Remove.

Lemma handleRemoveItem_unguarded_witness :
  item_status <$> items sample_analyzing = [ANALYZING; PENDING; PENDING] /\
  item_id <$> items (ui_step sample_host (ClickRemove 0) sample_analyzing) = ["2"; "3"].
Proof.
  split; [reflexivity|].
  destruct (handleRemoveItem_unguarded sample_host sample_analyzing 0 _ eq_refl) as [-> _].
  reflexivity.
Defined.

(** C4 as stated fails: the remove control of the item under analysis is not
    rejected; the store loses the item while invocation 0 is still working
    on it. *)
Lemma remove_analyzing_not_rejected :
  item_status <$> items sample_analyzing = [ANALYZING; PENDING; PENDING] /\
  (exists c config fullText, workers sample_analyzing !! 0 = Some (Streaming c config fullText)
      /\ item_id c = "1") /\
  ui_step sample_host (ClickRemove 0) sample_analyzing <> sample_analyzing /\
  item_id <$> items (ui_step sample_host (ClickRemove 0) sample_analyzing) = ["2"; "3"].
Proof.
  split; [vm_compute; reflexivity|]. split; [by eexists _, _, _|].
  split; [|vm_compute; reflexivity].
  intros H. apply (f_equal (fun s => length (items s))) in H. vm_compute in H.
  discriminate H.
Qed.

(** ** Order of the store *)

Section Order.

Variable host : Host.

Lemma store_op_files (s : State) (op : StoreOp) :
  item_file <$> items (store_op host s op)
  = (item_file <$> items s) ++ added_files [op].
Proof.
  destruct op as [files|id u]; cbn [store_op added_files].
  - rewrite handleFilesSelected_items, fmap_app, newItems_files. by rewrite app_nil_r.
  - rewrite updateItem_files. by rewrite app_nil_r.
Qed.

Lemma store_ops_files (ops : list StoreOp) (s : State) :
  item_file <$> items (foldl (store_op host) s ops)
  = (item_file <$> items s) ++ added_files ops.
Proof.
  revert s. induction ops as [|op ops IH]; intros s; simpl.
  - by rewrite app_nil_r.
  - rewrite IH, store_op_files. rewrite <- app_assoc. f_equal.
    destruct op; cbn [added_files]; by rewrite ?app_nil_r.
Qed.

End Order.

(** ** The stage clients *)

Section StageClients.

Variable host : Host.

Lemma js_or_str_nonempty v d : d <> EmptyString -> js_or_str v d <> EmptyString.
Proof. intros Hd. destruct v as [s|]; simpl; [|done]. by destruct (decide (s = EmptyString)). Qed.

Lemma truthy_false_iff v : truthy v = false <-> js_or_str v EmptyString = EmptyString.
Proof. destruct v as [s|]; simpl; [|done]. by destruct (decide (s = EmptyString)). Qed.

(** [getEnv] yields the empty string exactly when neither table holds a
    truthy value for the key. *)
Lemma getEnv_empty key :
  getEnv host key = EmptyString <->
  truthy (env_lookup (meta_env host) ("VITE_" +:+ key)) = false /\
  truthy (env_lookup (process_env host) key) = false.
Proof.
  unfold getEnv, env_lookup.
  destruct (meta_env host) as [env|]; destruct (process_env host) as [penv|].
  all: repeat match goal with
    | |- context [if truthy ?v then _ else _] => destruct (truthy v) eqn:?
    end.
  all: rewrite <- ?truthy_false_iff.
  all: try (split; [intros ?; try split; congruence | intros [? ?]; congruence]).
  all: try tauto.
Qed.

Lemma resolveApiKey_None config :
  resolveApiKey host config = None <->
  truthy (apiKey config) = false /\ getEnv host "API_KEY" = EmptyString.
Proof.
  unfold resolveApiKey, js_or.
  destruct (truthy (apiKey config)) eqn:Hk.
  - rewrite Hk. split; [done|]. intros [? _]; done.
  - simpl. destruct (decide (getEnv host "API_KEY" = EmptyString)) as [He|He].
    + by split.
    + split; [done|]. intros [_ ?]; done.
Qed.

(** *** Timeouts *)



End StageClients.



Section Invariant.
Variable host : Host.

Lemma issued_mono n n' id : issued host n id -> n <= n' -> issued host n' id.
Proof. intros (k & Hk & ->) Hn. exists k. split; [lia|done]. Qed.

Lemma current_status ph c st : current ph = Some (c, st) -> st = ANALYZING \/ st = GENERATING.
Proof. destruct ph; simpl; intros [= <- <-]; auto. Qed.

Lemma update_id_ids id g l :
  (forall item, item ∈ l -> item_id item = id -> item_id (g item) = item_id item) ->
  item_id <$> update_id id g l = item_id <$> l.
Proof.
  intros Hg. unfold update_id. rewrite <- list_fmap_compose. apply list_fmap_ext.
  intros i item Hi. simpl. destruct (decide _) as [He|]; [|done].
  apply Hg; [|done]. by eapply list_elem_of_lookup_2.
Qed.

Lemma elem_of_update_id id g l item' :
  item' ∈ update_id id g l ->
  exists item, item ∈ l /\
    ((item_id item = id /\ item' = g item) \/ (item_id item <> id /\ item' = item)).
Proof.
  unfold update_id. rewrite list_elem_of_fmap. intros (item & -> & Hin).
  exists item. split; [done|]. destruct (decide _); auto.
Qed.

(** Items shrink or stay, every invocation keeps or drops its current item. *)
Lemma Inv_weaken s s' :
  Inv host s ->
  items s' `sublist_of` items s ->
  (forall w ph c st, workers s' !! w = Some ph -> current ph = Some (c, st) ->
     exists ph0, workers s !! w = Some ph0 /\ current ph0 = Some (c, st)) ->
  idCalls s <= idCalls s' ->
  Inv host s'.
Proof.
  intros [Hnd Hiss Hit Hcur Hinf] Hsub Hws Hn. split.
  - eapply sublist_NoDup; [exact Hnd|]. by apply fmap_sublist.
  - intros item Hin. eapply issued_mono; [|exact Hn]. apply Hiss. by eapply elem_of_sublist.
  - intros item Hin. apply Hit. by eapply elem_of_sublist.
  - intros w ph c st Hw Hc. destruct (Hws _ _ _ _ Hw Hc) as (ph0 & Hw0 & Hc0).
    destruct (Hcur _ _ _ _ Hw0 Hc0) as [Hi Hst]. split.
    + by eapply issued_mono.
    + intros item Hin. apply Hst. by eapply elem_of_sublist.
  - intros w1 w2 ph1 ph2 c1 c2 st1 st2 Hw1 Hw2 Hc1 Hc2 Hid.
    destruct (Hws _ _ _ _ Hw1 Hc1) as (p1 & Hp1 & Hq1).
    destruct (Hws _ _ _ _ Hw2 Hc2) as (p2 & Hp2 & Hq2).
    by eapply Hinf.
Qed.

(** Invocation [w] updates the items of id [id] by [g] and moves to [ph']. *)
Lemma Inv_engine s s' w id g ph' :
  Inv host s ->
  items s' = update_id id g (items s) ->
  workers s' = <[w := ph']> (workers s) ->
  idCalls s <= idCalls s' ->
  (forall w' ph c st, workers s !! w' = Some ph -> current ph = Some (c, st) ->
     w' <> w -> item_id c <> id) ->
  (forall item, item ∈ items s -> item_id item = id ->
     item_id (g item) = item_id item /\ item_consistent (g item)) ->
  (forall c st, current ph' = Some (c, st) ->
     item_id c = id /\ issued host (idCalls s) id /\
     forall item, item ∈ items s -> item_id item = id -> item_status (g item) = st) ->
  Inv host s'.
Proof.
  intros [Hnd Hiss Hit Hcur Hinf] Hitems Hws Hn Hoth Hg Hph. split.
  - rewrite Hitems, update_id_ids; [done|]. intros item Hin He. by apply Hg.
  - intros item' Hin. rewrite Hitems in Hin.
    apply elem_of_update_id in Hin as (item & Hin & [[He ->]|[Hne ->]]).
    + destruct (Hg _ Hin He) as [-> _]. eapply issued_mono; eauto.
    + eapply issued_mono; eauto.
  - intros item' Hin. rewrite Hitems in Hin.
    apply elem_of_update_id in Hin as (item & Hin & [[He ->]|[Hne ->]]).
    + by apply Hg.
    + by apply Hit.
  - intros w' ph c st Hw Hc. rewrite Hws in Hw.
    apply list_lookup_insert_Some in Hw as [(-> & -> & Hlt)|[Hne Hw]].
    + destruct (Hph _ _ Hc) as (Hid & Hi & Hst). split.
      * rewrite Hid. by eapply issued_mono.
      * intros item' Hin He. rewrite Hitems in Hin.
        apply elem_of_update_id in Hin as (item & Hin & [[He' ->]|[Hne ->]]).
        -- by apply Hst.
        -- congruence.
    + destruct (Hcur _ _ _ _ Hw Hc) as [Hi Hst]. split; [by eapply issued_mono|].
      assert (item_id c <> id) as Hcid by (eapply Hoth; eauto).
      intros item' Hin He. rewrite Hitems in Hin.
      apply elem_of_update_id in Hin as (item & Hin & [[He' ->]|[Hne' ->]]).
      * destruct (Hg _ Hin He') as [Hgid _]. congruence.
      * by apply Hst.
  - intros w1 w2 ph1 ph2 c1 c2 st1 st2 Hw1 Hw2 Hc1 Hc2 Hid.
    rewrite Hws in Hw1, Hw2.
    apply list_lookup_insert_Some in Hw1 as [(-> & -> & Hlt1)|[Hne1 Hw1]];
    apply list_lookup_insert_Some in Hw2 as [(-> & -> & Hlt2)|[Hne2 Hw2]]; try done.
    + destruct (Hph _ _ Hc1) as (Hid1 & _). exfalso. eapply Hoth; [exact Hw2|exact Hc2|done|].
      congruence.
    + destruct (Hph _ _ Hc2) as (Hid2 & _). exfalso. eapply Hoth; [exact Hw1|exact Hc1|done|].
      congruence.
    + by eapply Hinf.
Qed.

Lemma NoDup_ids_eq (l : list WorkItem) a b :
  NoDup (item_id <$> l) -> a ∈ l -> b ∈ l -> item_id a = item_id b -> a = b.
Proof.
  intros Hnd Ha Hb Hid.
  apply list_elem_of_lookup in Ha as [i Hi]. apply list_elem_of_lookup in Hb as [j Hj].
  assert (i = j) as ->.
  { eapply NoDup_lookup; [exact Hnd| |].
    - rewrite list_lookup_fmap, Hi. reflexivity.
    - rewrite list_lookup_fmap, Hj. simpl. by rewrite Hid. }
  congruence.
Qed.

(** An item that is not over carries neither a result nor an error message. *)
Lemma item_consistent_open item :
  item_consistent item ->
  item_status item <> COMPLETED -> item_status item <> ERROR ->
  generatedImageUrl item = None /\ item_error item = None.
Proof.
  intros (Hurl & Herr & _) Hc He. split.
  - destruct (generatedImageUrl item) eqn:E; [|done]. destruct Hc. apply Hurl. by eexists.
  - destruct (item_error item) eqn:E; [|done]. destruct He. apply Herr. by eexists.
Qed.

(** Closes the routine cases of [item_consistent] after an update. *)
Ltac consistent :=
  unfold item_consistent; simpl;
  repeat match goal with H : _ = None |- _ => rewrite H end;
  repeat split;
  first [ done | by intros [? ?] | by eexists | by intros [?|?] | idtac ].

Lemma Inv_initial : Inv host initial_state.
Proof.
  split; simpl.
  - constructor.
  - intros item Hin. by apply elem_of_nil in Hin.
  - intros item Hin. by apply elem_of_nil in Hin.
  - intros w ph c st Hw. by rewrite lookup_nil in Hw.
  - intros w1 w2 ph1 ph2 c1 c2 st1 st2 Hw. by rewrite lookup_nil in Hw.
Qed.

(** The state keeps its items and invocations; only the log, the flags, the
    settings or the id counter move. *)
Lemma Inv_same s s' :
  Inv host s -> items s' = items s -> workers s' = workers s -> idCalls s <= idCalls s' ->
  Inv host s'.
Proof.
  intros HI Hit Hws Hn. eapply Inv_weaken; [exact HI| | |exact Hn].
  - by rewrite Hit.
  - intros w ph c st Hw Hc. rewrite Hws in Hw. eauto.
Qed.

(** *** User commands *)

Lemma newItems_ids n files :
  item_id <$> newItems host n files = random_id host <$> seq n (length files).
Proof. revert n. induction files as [|f files IH]; intros n; simpl; [done|]. by rewrite IH. Qed.

Lemma newItems_elem n files item :
  item ∈ newItems host n files ->
  (exists k, n <= k < n + length files /\ item_id item = random_id host k) /\
  item_status item = PENDING /\ generatedImageUrl item = None /\ item_error item = None.
Proof.
  intros Hin. apply list_elem_of_lookup in Hin as [k Hk].
  pose proof (lookup_lt_Some _ _ _ Hk) as Hlt. rewrite newItems_length in Hlt.
  apply newItems_lookup in Hk as (Hid & Hst & Hurl & Herr & _).
  split; [|done]. exists (n + k). split; [lia|done].
Qed.

Section Fresh.

Hypothesis random_id_inj : Inj (=) (=) (random_id host).

Lemma Inv_handleFilesSelected files s :
  Inv host s -> Inv host (handleFilesSelected host files s).
Proof.
  intros [Hnd Hiss Hit Hcur Hinf].
  assert (Hn : idCalls (handleFilesSelected host files s) = S (idCalls s + length files))
    by reflexivity.
  assert (Hws : workers (handleFilesSelected host files s) = workers s) by reflexivity.
  split; rewrite ?handleFilesSelected_items, ?Hn, ?Hws.
  - rewrite fmap_app. apply NoDup_app. split; [done|]. split.
    + intros id Hold Hnew. rewrite newItems_ids in Hnew.
      apply list_elem_of_fmap in Hold as (item & -> & Hin).
      destruct (Hiss _ Hin) as (k & Hk & Hid).
      apply list_elem_of_fmap in Hnew as (k' & Hid' & Hk').
      apply elem_of_seq in Hk'. rewrite Hid in Hid'. apply random_id_inj in Hid'. lia.
    + rewrite newItems_ids. apply NoDup_fmap_2; [done|]. apply NoDup_seq.
  - intros item Hin. apply elem_of_app in Hin as [Hin|Hin].
    + eapply issued_mono; [by apply Hiss|lia].
    + apply newItems_elem in Hin as [(k & Hk & Hid) _]. exists k. split; [lia|done].
  - intros item Hin. apply elem_of_app in Hin as [Hin|Hin]; [by apply Hit|].
    apply newItems_elem in Hin as (_ & Hst & Hurl & Herr).
    unfold item_consistent. rewrite Hst, Hurl, Herr. consistent.
  - intros w ph c st Hw Hc. destruct (Hcur _ _ _ _ Hw Hc) as [Hi Hst].
    split; [eapply issued_mono; [done|lia]|].
    intros item Hin He. apply elem_of_app in Hin as [Hin|Hin]; [by apply Hst|].
    apply newItems_elem in Hin as [(k & Hk & Hid) _].
    destruct Hi as (k' & Hk' & Hid'). rewrite He, Hid' in Hid.
    apply random_id_inj in Hid. lia.
  - done.
Qed.

End Fresh.

(** *** Steps of the driver loop *)

Lemma catch_error_set_worker w c message ph s :
  catch_error host w c message (set_worker w ph s) = catch_error host w c message s.
Proof.
  destruct s. unfold catch_error, set_worker, set_workers, updateItem, setItems, addLog.
  simpl. f_equal. apply list_insert_insert_eq.
Qed.

Lemma update_id_twice id u1 u2 l :
  update_id id (fun item => spread item u2) (update_id id (fun item => spread item u1) l)
  = update_id id (fun item => spread (spread item u1) u2) l.
Proof.
  unfold update_id. rewrite <- list_fmap_compose. apply list_fmap_ext.
  intros i item _. simpl. destruct (decide (item_id item = id)) as [He|Hne].
  - by rewrite spread_id, decide_True.
  - by rewrite decide_False.
Qed.

(** No other invocation works on the item of an invocation in flight. *)
Lemma Inv_others_inflight s w ph c st :
  Inv host s -> workers s !! w = Some ph -> current ph = Some (c, st) ->
  forall w' ph' c' st', workers s !! w' = Some ph' -> current ph' = Some (c', st') ->
    w' <> w -> item_id c' <> item_id c.
Proof.
  intros HI Hw Hc w' ph' c' st' Hw' Hc' Hne Hid. apply Hne.
  eapply (inv_inflight _ _ HI); eauto.
Qed.

(** No invocation works on an item that is pending or over. *)
Lemma Inv_others_idle s item :
  Inv host s -> item ∈ items s ->
  item_status item <> ANALYZING -> item_status item <> GENERATING ->
  forall w' ph' c' st', workers s !! w' = Some ph' -> current ph' = Some (c', st') ->
    item_id c' <> item_id item.
Proof.
  intros HI Hin Ha Hg w' ph' c' st' Hw' Hc' Hid.
  destruct (inv_current _ _ HI _ _ _ _ Hw' Hc') as [_ Hst].
  specialize (Hst _ Hin (eq_sym Hid)).
  apply current_status in Hc' as [->| ->]; congruence.
Qed.

(** The item of an invocation in flight, as the store holds it. *)
Lemma Inv_inflight_item s w ph c st item :
  Inv host s -> workers s !! w = Some ph -> current ph = Some (c, st) ->
  item ∈ items s -> item_id item = item_id c ->
  item_status item = st /\ item_consistent item /\
  generatedImageUrl item = None /\ item_error item = None.
Proof.
  intros HI Hw Hc Hin Hid.
  destruct (inv_current _ _ HI _ _ _ _ Hw Hc) as [_ Hst]. specialize (Hst _ Hin Hid).
  pose proof (inv_items _ _ HI _ Hin) as Hcons.
  split; [done|]. split; [done|].
  apply item_consistent_open; [done| |];
    destruct (current_status _ _ _ Hc) as [Hs|Hs]; congruence.
Qed.

Lemma Inv_catch_error s w ph c st message :
  Inv host s -> workers s !! w = Some ph -> current ph = Some (c, st) ->
  Inv host (catch_error host w c message s).
Proof.
  intros HI Hw Hc.
  eapply (Inv_engine s _ w (item_id c) _ Pacing HI); [reflexivity|reflexivity|simpl; lia|..].
  - intros w' ph' c' st' Hw' Hc' Hne.
    by eapply (Inv_others_inflight s w ph c st HI Hw Hc).
  - intros item Hin Hid. split; [done|].
    destruct (Inv_inflight_item s w ph c st item HI Hw Hc Hin Hid)
      as (Hst & Hcons & Hurl & Herr).
    consistent.
  - intros c' st'. done.
Qed.

Lemma Inv_complete_item s w c request generatedImage :
  Inv host s -> workers s !! w = Some (Posting c request) ->
  Inv host (complete_item host w c generatedImage s).
Proof.
  intros HI Hw.
  eapply (Inv_engine s _ w (item_id c) _ Pacing HI); [reflexivity|reflexivity|simpl; lia|..].
  - intros w' ph' c' st' Hw' Hc' Hne.
    by eapply (Inv_others_inflight s w _ c GENERATING HI Hw eq_refl).
  - intros item Hin Hid. split; [done|].
    destruct (Inv_inflight_item s w _ c GENERATING item HI Hw eq_refl Hin Hid)
      as (Hst & Hcons & Hurl & Herr).
    destruct Hcons as (_ & _ & Hdesc).
    consistent. intros _. apply Hdesc. by left.
  - intros c' st'. done.
Qed.

Lemma Inv_set_worker_keep s w ph ph' :
  Inv host s -> workers s !! w = Some ph ->
  (forall x, current ph' = Some x -> current ph = Some x) ->
  Inv host (set_worker w ph' s).
Proof.
  intros HI Hw Hkeep. eapply Inv_weaken; [exact HI|done| |done].
  intros w' p c st Hw' Hc. simpl in Hw'.
  apply list_lookup_insert_Some in Hw' as [(-> & -> & _)|[_ Hw']]; eauto.
Qed.

Lemma Inv_finish_queue s w : Inv host s -> Inv host (finish_queue host w s).
Proof.
  intros HI. eapply Inv_weaken; [exact HI|done| |simpl; lia].
  intros w' p c st Hw' Hc. simpl in Hw'.
  apply list_lookup_insert_Some in Hw' as [(-> & <- & _)|[_ Hw']]; [done|eauto].
Qed.

Lemma Inv_begin_item s w ph0 c :
  Inv host s -> workers s !! w = Some ph0 -> current ph0 = None ->
  c ∈ items s -> item_status c = PENDING ->
  Inv host (begin_item host w c s).
Proof.
  intros HI Hw Hidle Hin Hpending.
  set (s1 := addLog host info "[Step 1] Sending to Vision API..."
               (updateItem (item_id c)
                  {| p_status := Some ANALYZING; p_originalPrompt := Some (Some EmptyString);
                     p_progressLog := None; p_generatedImageUrl := None; p_error := None |}
                  (addLog host info
                     ("Processing Item: " +:+ file_name (item_file c)
                        +:+ " (" +:+ item_id c +:+ ")") s))).
  assert (Hread : forall config key, Inv host (set_worker w (ReadingFile c config key) s1)).
  { intros config key.
    eapply (Inv_engine s _ w (item_id c) _ (ReadingFile c config key) HI);
      [reflexivity|reflexivity|simpl; lia|..].
    - intros w' ph' c' st' Hw' Hc' _.
      eapply (Inv_others_idle s c HI Hin); [congruence|congruence|exact Hw'|exact Hc'].
    - intros item Hin' Hid. split; [done|].
      assert (item = c) as -> by (eapply NoDup_ids_eq; eauto using inv_nodup).
      assert (generatedImageUrl c = None /\ item_error c = None) as [Hurl Herr].
      { apply item_consistent_open; [by eapply inv_items|congruence..]. }
      consistent.
    - intros c' st' [= <- <-]. split; [done|]. split; [by eapply inv_issued|done]. }
  unfold begin_item. fold s1.
  destruct (resolveApiKey host (analysisConfig (settings s1))) as [key|].
  - apply Hread.
  - rewrite <- (catch_error_set_worker w c _
                  (ReadingFile c (analysisConfig (settings s1)) EmptyString) s1).
    eapply (Inv_catch_error _ w (ReadingFile c (analysisConfig (settings s1)) EmptyString)
              c ANALYZING); [apply Hread| |reflexivity].
    simpl. apply list_lookup_insert_eq. by eapply lookup_lt_Some.
Qed.

Lemma Inv_begin_generation s w c config fullText description :
  Inv host s -> workers s !! w = Some (Streaming c config fullText) ->
  description <> EmptyString ->
  Inv host (begin_generation host w c description s).
Proof.
  intros HI Hw Hd.
  set (s1 := updateItem (item_id c)
               {| p_status := Some GENERATING; p_progressLog := None;
                  p_originalPrompt := None; p_generatedImageUrl := None; p_error := None |}
               (addLog host success "[Step 1] Analysis complete."
                  (updateItem (item_id c)
                     {| p_originalPrompt := Some (Some description); p_status := None;
                        p_progressLog := None; p_generatedImageUrl := None;
                        p_error := None |} s))).
  set (s2 := addLog host info
               ("[Step 2] Sending to Image Gen API (Ratio: "
                  +:+ js_or_str (aspectRatio (generationConfig (settings s1))) "Default"
                  +:+ ")...") s1).
  assert (Hpost : forall request, Inv host (set_worker w (Posting c request) s2)).
  { intros request.
    eapply (Inv_engine s _ w (item_id c)
              (fun item =>
                 spread (spread item
                   {| p_originalPrompt := Some (Some description); p_status := None;
                      p_progressLog := None; p_generatedImageUrl := None;
                      p_error := None |})
                   {| p_status := Some GENERATING; p_progressLog := None;
                      p_originalPrompt := None; p_generatedImageUrl := None;
                      p_error := None |})
              (Posting c request) HI);
      [rewrite <- update_id_twice; reflexivity|reflexivity|simpl; lia|..].
    - intros w' ph' c' st' Hw' Hc' Hne.
      by eapply (Inv_others_inflight s w _ c ANALYZING HI Hw eq_refl).
    - intros item Hin Hid. split; [reflexivity|].
      destruct (Inv_inflight_item s w _ c ANALYZING item HI Hw eq_refl Hin Hid)
        as (Hst & Hcons & Hurl & Herr).
      consistent.
    - intros c' st' [= <- <-]. split; [done|]. split; [|done].
      by destruct (inv_current _ _ HI _ _ _ _ Hw eq_refl). }
  unfold begin_generation. fold s1. fold s2.
  destruct (resolveApiKey host (generationConfig (settings s2))) as [key|].
  - apply Hpost.
  - rewrite <- (catch_error_set_worker w c _
                  (Posting c (generation_request description
                                (generationConfig (settings s2)) EmptyString)) s2).
    eapply (Inv_catch_error _ w
              (Posting c (generation_request description
                            (generationConfig (settings s2)) EmptyString))
              c GENERATING); [apply Hpost| |reflexivity].
    simpl. apply list_lookup_insert_eq. by eapply lookup_lt_Some.
Qed.

Lemma Inv_loop_head s w ph0 :
  Inv host s -> workers s !! w = Some ph0 -> current ph0 = None ->
  Inv host (loop_head host w (findPendingIndex (items s)) s).
Proof.
  intros HI Hw Hidle. unfold loop_head.
  destruct (findPendingIndex (items s)) as [i|] eqn:Hfind; [|by apply Inv_finish_queue].
  destruct (isProcessingRef s); [|by apply Inv_finish_queue].
  apply findPendingIndex_Some in Hfind as (c & Hi & Hp & _). rewrite Hi.
  eapply Inv_begin_item; eauto. by eapply list_elem_of_lookup_2.
Qed.

Lemma Inv_processQueue s : Inv host s -> Inv host (processQueue host s).
Proof.
  intros HI. unfold processQueue. destruct (isProcessingRef s); [done|].
  set (s0 := addLog host info "Queue processing started."
               (setIsProcessing true
                  (set_isProcessingRef true (set_workers (fun ws => ws ++ [Exited]) s)))).
  assert (H0 : Inv host s0).
  { eapply Inv_weaken; [exact HI|done| |simpl; lia].
    intros w ph c st Hw Hc. simpl in Hw.
    apply lookup_snoc_Some in Hw as [[_ Hw]|[_ <-]]; [eauto|done]. }
  change (Inv host (loop_head host (length (workers s)) (findPendingIndex (items s0)) s0)).
  eapply (Inv_loop_head s0 _ Exited); [exact H0| |reflexivity].
  simpl. apply lookup_snoc_Some. by right.
Qed.

Lemma Inv_engine_step s w e : Inv host s -> Inv host (engine_step host w e s).
Proof.
  intros HI. unfold engine_step.
  destruct (workers s !! w) as [[c config key|c config fullText|c request| |]|] eqn:Hw;
    destruct e as [[base64|message]|chunk_text|[|message|]|net|]; try done.
  - eapply Inv_set_worker_keep; eauto.
  - eapply (Inv_catch_error s w _ c ANALYZING); eauto.
  - destruct (describe_chunk fullText chunk_text) as [fullText' [partialText|]].
    + eapply (Inv_engine s _ w (item_id c) _ (Streaming c config fullText') HI);
        [reflexivity|reflexivity|done|..].
      * intros w' ph' c' st' Hw' Hc' Hne.
        by eapply (Inv_others_inflight s w _ c ANALYZING HI Hw eq_refl).
      * intros item Hin Hid. split; [done|].
        destruct (Inv_inflight_item s w _ c ANALYZING item HI Hw eq_refl Hin Hid)
          as (Hst & Hcons & Hurl & Herr).
        unfold item_consistent. simpl. rewrite Hst, Hurl, Herr. consistent.
      * intros c' st' [= <- <-]. split; [done|]. split.
        -- by destruct (inv_current _ _ HI _ _ _ _ Hw eq_refl).
        -- intros item Hin Hid.
           by destruct (Inv_inflight_item s w _ c ANALYZING item HI Hw eq_refl Hin Hid).
    + eapply Inv_set_worker_keep; eauto.
  - eapply Inv_begin_generation; eauto.
    unfold describe_return. by apply js_or_str_nonempty.
  - eapply (Inv_catch_error s w _ c ANALYZING); eauto.
  - destruct (generation_try host (net request)) as [t [generatedImage|message]|].
    + by eapply Inv_complete_item.
    + eapply (Inv_catch_error s w _ c GENERATING); eauto.
    + done.
  - eapply Inv_loop_head; eauto.
Qed.

Section Steps.

Hypothesis random_id_inj : Inj (=) (=) (random_id host).

Lemma Inv_ui_step s e : Inv host s -> Inv host (ui_step host e s).
Proof.
  intros HI. destruct e as [files|i|i| | | | | |newRatio|newSettings|]; simpl.
  - by apply Inv_handleFilesSelected.
  - destruct (items s !! i) as [item|] eqn:Hi; [|done].
    destruct (decide (item_status item = ERROR)) as [He|]; [|done].
    pose proof (list_elem_of_lookup_2 _ _ _ Hi) as Hin.
    eapply (Inv_engine s _ (length (workers s)) (item_id item) _ Exited HI);
      [reflexivity| |simpl; lia|..].
    + simpl. by rewrite list_insert_ge.
    + intros w' ph' c' st' Hw' Hc' _.
      eapply (Inv_others_idle s item HI Hin); [congruence|congruence|exact Hw'|exact Hc'].
    + intros other Hin' Hid. split; [done|]. consistent.
    + done.
  - destruct (items s !! i) as [item|] eqn:Hi; [|done].
    eapply Inv_weaken; [exact HI| |by eauto|done]. apply sublist_filter.
  - destruct (_ && _); [by apply Inv_processQueue|done].
  - destruct (_ && _); [|done]. eapply Inv_same; [exact HI|done|done|simpl; lia].
  - destruct (_ && _); [|done]. unfold clearCompleted. destruct (isProcessing s); [done|].
    eapply Inv_weaken; [exact HI| |by eauto|simpl; lia]. apply sublist_filter.
  - destruct (_ && _); [|done]. unfold resetAll. destruct (isProcessing s); [done|].
    eapply Inv_weaken; [exact HI| |by eauto|simpl; lia]. apply sublist_nil_l.
  - destruct (_ && _); [|done]. unfold handleBatchDownload.
    destruct (filter _ _); eapply Inv_same; try exact HI; try done; simpl; lia.
  - eapply Inv_same; [exact HI|done|done|simpl; lia].
  - eapply Inv_same; [exact HI|done|done|simpl; lia].
  - eapply Inv_same; [exact HI|done|done|done].
Qed.

Lemma Inv_step s e : Inv host s -> Inv host (step host e s).
Proof. destruct e; [apply Inv_ui_step|apply Inv_engine_step]. Qed.

Lemma Inv_reachable s : reachable host s -> Inv host s.
Proof. induction 1; [apply Inv_initial|by apply Inv_step]. Qed.

End Steps.
End Invariant.

(** ** One invocation, step by step *)

Section Advances.

Variable host : Host.

Lemma update_id_compose id g1 g2 l :
  (forall item, item_id (g1 item) = item_id item) ->
  update_id id g2 (update_id id g1 l) = update_id id (fun item => g2 (g1 item)) l.
Proof.
  intros Hg. unfold update_id. rewrite <- list_fmap_compose. apply list_fmap_ext.
  intros i item _. simpl. destruct (decide (item_id item = id)) as [He|Hne].
  - by rewrite decide_True by (by rewrite Hg).
  - by rewrite decide_False.
Qed.

Lemma update_id_ext id g1 g2 l :
  (forall item, g1 item = g2 item) -> update_id id g1 l = update_id id g2 l.
Proof.
  intros Hg. unfold update_id. apply list_fmap_ext. intros i item _. simpl.
  by rewrite Hg.
Qed.

Lemma update_id_lookup id g l i :
  update_id id g l !! i
  = (fun item => if decide (item_id item = id) then g item else item) <$> l !! i.
Proof. apply list_lookup_fmap. Qed.

Lemma advances_trans w ph1 ph2 id g1 g2 new1 new2 s s1 s2 :
  advances w ph1 id g1 new1 s s1 ->
  (forall item, item_id (g1 item) = item_id item) ->
  advances w ph2 id g2 new2 s1 s2 ->
  advances w ph2 id (fun item => g2 (g1 item)) (new1 ++ new2) s s2.
Proof.
  intros [Hw1 Hi1 Hl1 Hr1 Hp1 Hs1] Hg [Hw2 Hi2 Hl2 Hr2 Hp2 Hs2]. split.
  - rewrite Hw2, Hw1. apply list_insert_insert_eq.
  - rewrite Hi2, Hi1. by apply update_id_compose.
  - rewrite Hl2, Hl1. by rewrite app_assoc.
  - congruence.
  - congruence.
  - congruence.
Qed.

Lemma advances_ext w ph id g g' new s s' :
  advances w ph id g new s s' -> (forall item, g item = g' item) ->
  advances w ph id g' new s s'.
Proof.
  intros [Hw Hi Hl Hr Hp Hs] Hg. split; try done.
  rewrite Hi. by apply update_id_ext.
Qed.

Lemma advances_lookup w ph id g new s s' :
  advances w ph id g new s s' -> w < length (workers s) -> workers s' !! w = Some ph.
Proof. intros H Hlt. rewrite (adv_workers _ _ _ _ _ _ _ H). by apply list_lookup_insert_eq. Qed.

(** Two or three updates of one id in a row are one update. *)
Lemma update_id_spread2 id u1 u2 u l :
  (forall item, spread (spread item u1) u2 = spread item u) ->
  update_id id (fun item => spread item u2) (update_id id (fun item => spread item u1) l)
  = update_id id (fun item => spread item u) l.
Proof.
  intros Hu. rewrite update_id_compose by done. by apply update_id_ext.
Qed.

Lemma update_id_spread3 id u1 u2 u3 u l :
  (forall item, spread (spread (spread item u1) u2) u3 = spread item u) ->
  update_id id (fun item => spread item u3)
    (update_id id (fun item => spread item u2) (update_id id (fun item => spread item u1) l))
  = update_id id (fun item => spread item u) l.
Proof.
  intros Hu. rewrite !update_id_compose by done. by apply update_id_ext.
Qed.

Lemma log_view_addLog type message s :
  log_view <$> logs (addLog host type message s) = (log_view <$> logs s) ++ [(type, message)].
Proof. rewrite addLog_logs, fmap_app. reflexivity. Qed.

Lemma adv_catch_error w c message s :
  advances w Pacing (item_id c) (fun item => spread item (set_error (errorMsg_of message)))
    [failed_record c message] s (catch_error host w c message s).
Proof. split; try reflexivity. unfold catch_error. simpl. by rewrite fmap_app. Qed.

Lemma adv_begin_item w c key s :
  resolveApiKey host (analysisConfig (settings s)) = Some key ->
  advances w (ReadingFile c (analysisConfig (settings s)) key) (item_id c)
    (fun item => spread item set_analyzing)
    [(info, "Processing Item: " +:+ file_name (item_file c) +:+ " (" +:+ item_id c +:+ ")");
     (info, "[Step 1] Sending to Vision API...")]
    s (begin_item host w c s).
Proof.
  intros Hkey. unfold begin_item. simpl. rewrite Hkey.
  split; try reflexivity. simpl. rewrite !fmap_app, <- app_assoc. reflexivity.
Qed.

Lemma adv_begin_item_no_key w c s :
  resolveApiKey host (analysisConfig (settings s)) = None ->
  advances w Pacing (item_id c)
    (fun item => spread item
       {| p_status := Some ERROR; p_originalPrompt := Some (Some EmptyString);
          p_error := Some (Some analysis_key_missing);
          p_progressLog := None; p_generatedImageUrl := None |})
    [(info, "Processing Item: " +:+ file_name (item_file c) +:+ " (" +:+ item_id c +:+ ")");
     (info, "[Step 1] Sending to Vision API...");
     failed_record c (Some analysis_key_missing)]
    s (begin_item host w c s).
Proof.
  intros Hkey. unfold begin_item. simpl. rewrite Hkey.
  split; try reflexivity.
  - apply (update_id_spread2 (item_id c) set_analyzing
             (set_error (errorMsg_of (Some analysis_key_missing)))). done.
  - simpl. rewrite !fmap_app, <- !app_assoc. reflexivity.
Qed.

Lemma adv_begin_generation w c description key s :
  resolveApiKey host (generationConfig (settings s)) = Some key ->
  advances w (Posting c (generation_request description (generationConfig (settings s)) key))
    (item_id c) (fun item => spread item (set_generating description))
    [(success, "[Step 1] Analysis complete.");
     (info, "[Step 2] Sending to Image Gen API (Ratio: "
              +:+ js_or_str (aspectRatio (generationConfig (settings s))) "Default" +:+ ")...")]
    s (begin_generation host w c description s).
Proof.
  intros Hkey. unfold begin_generation. simpl. rewrite Hkey.
  split; try reflexivity.
  - apply (update_id_spread2 (item_id c) (set_prompt description)
             {| p_status := Some GENERATING; p_progressLog := None;
                p_originalPrompt := None; p_generatedImageUrl := None;
                p_error := None |}). done.
  - simpl. rewrite !fmap_app, <- !app_assoc. reflexivity.
Qed.

Lemma adv_begin_generation_no_key w c description s :
  resolveApiKey host (generationConfig (settings s)) = None ->
  advances w Pacing (item_id c)
    (fun item => spread item
       {| p_status := Some ERROR; p_originalPrompt := Some (Some description);
          p_error := Some (Some generation_key_missing);
          p_progressLog := None; p_generatedImageUrl := None |})
    [(success, "[Step 1] Analysis complete.");
     (info, "[Step 2] Sending to Image Gen API (Ratio: "
              +:+ js_or_str (aspectRatio (generationConfig (settings s))) "Default" +:+ ")...");
     failed_record c (Some generation_key_missing)]
    s (begin_generation host w c description s).
Proof.
  intros Hkey. unfold begin_generation. simpl. rewrite Hkey.
  split; try reflexivity.
  - apply (update_id_spread3 (item_id c) (set_prompt description)
             {| p_status := Some GENERATING; p_progressLog := None;
                p_originalPrompt := None; p_generatedImageUrl := None;
                p_error := None |}
             (set_error (errorMsg_of (Some generation_key_missing)))). done.
  - simpl. rewrite !fmap_app, <- !app_assoc. reflexivity.
Qed.

Lemma adv_complete_item w c generatedImage s :
  advances w Pacing (item_id c) (fun item => spread item (set_completed generatedImage))
    [(success, "[Step 2] Image generation successful.")]
    s (complete_item host w c generatedImage s).
Proof. split; try reflexivity. unfold complete_item. simpl. by rewrite fmap_app. Qed.


Lemma run_worker_app w es1 es2 s :
  run_worker host w (es1 ++ es2) s = run_worker host w es2 (run_worker host w es1 s).
Proof. apply foldl_app. Qed.

Lemma update_id_id id l : update_id id (fun item => item) l = l.
Proof.
  unfold update_id. rewrite <- (list_fmap_id l) at 2. apply list_fmap_ext.
  intros i item _. simpl. by destruct (decide _).
Qed.

Lemma adv_set_worker w ph id s :
  advances w ph id (fun item => item) [] s (set_worker w ph s).
Proof. split; try reflexivity; simpl; by rewrite ?update_id_id, ?app_nil_r. Qed.

Lemma keeps_but_prompt_id : keeps_but_prompt (fun item => item).
Proof. intros item. repeat split. Qed.

Lemma keeps_but_prompt_spread text : keeps_but_prompt (fun item => spread item (set_prompt text)).
Proof. intros item. repeat split. Qed.

Lemma keeps_but_prompt_compose g1 g2 :
  keeps_but_prompt g1 -> keeps_but_prompt g2 -> keeps_but_prompt (fun item => g2 (g1 item)).
Proof.
  intros H1 H2 item.
  destruct (H1 item) as (? & ? & ? & ? & ? & ? & ?).
  destruct (H2 (g1 item)) as (? & ? & ? & ? & ? & ? & ?).
  repeat split; congruence.
Qed.

(** While the stream delivers chunks, only the description of the item moves. *)
Lemma adv_chunks w c config chunks : forall fullText s,
  workers s !! w = Some (Streaming c config fullText) ->
  exists g,
    keeps_but_prompt g /\
    advances w (Streaming c config (stream_text fullText chunks)) (item_id c) g []
      s (run_worker host w (SdkChunk <$> chunks) s).
Proof.
  induction chunks as [|chunk chunks IH]; intros fullText s Hw.
  - exists (fun item => item). split; [apply keeps_but_prompt_id|].
    split; simpl; try reflexivity.
    + symmetry. by apply list_insert_id.
    + by rewrite update_id_id.
    + by rewrite app_nil_r.
  - simpl.
    set (s1 := engine_step host w (SdkChunk chunk) s).
    assert (exists g1, keeps_but_prompt g1 /\
              advances w (Streaming c config (describe_chunk fullText chunk).1) (item_id c)
                g1 [] s s1) as (g1 & Hk1 & Ha1).
    { unfold s1, engine_step. rewrite Hw.
      destruct (describe_chunk fullText chunk) as [fullText' [partialText|]]; simpl.
      - exists (fun item => spread item (set_prompt partialText)).
        split; [apply keeps_but_prompt_spread|].
        split; try reflexivity. simpl. by rewrite app_nil_r.
      - exists (fun item => item). split; [apply keeps_but_prompt_id|].
        apply adv_set_worker. }
    destruct (IH (describe_chunk fullText chunk).1 s1) as (g2 & Hk2 & Ha2).
    { eapply advances_lookup; [exact Ha1|]. by eapply lookup_lt_Some. }
    exists (fun item => g2 (g1 item)). split; [by apply keeps_but_prompt_compose|].
    change [] with (@nil (LogType * string) ++ []).
    eapply advances_trans; [exact Ha1| |exact Ha2].
    intros item. by destruct (Hk1 item).
Qed.


Lemma adv_analysis w c config key base64 chunks s :
  workers s !! w = Some (ReadingFile c config key) ->
  exists g,
    keeps_but_prompt g /\
    advances w (Streaming c config (stream_text EmptyString chunks)) (item_id c) g []
      s (run_worker host w (analysis_events base64 chunks) s).
Proof.
  intros Hw. unfold analysis_events. simpl.
  assert (Hstep : engine_step host w (FileReadDone (FileLoaded base64)) s
                  = set_worker w (Streaming c config EmptyString) s).
  { unfold engine_step. by rewrite Hw. }
  fold (run_worker host w (SdkChunk <$> chunks)
          (engine_step host w (FileReadDone (FileLoaded base64)) s)).
  rewrite Hstep.
  destruct (adv_chunks w c config chunks EmptyString
              (set_worker w (Streaming c config EmptyString) s)) as (g & Hk & Ha).
  { simpl. apply list_lookup_insert_eq. by eapply lookup_lt_Some. }
  exists g. split; [done|].
  change [] with (@nil (LogType * string) ++ []).
  eapply advances_ext.
  - eapply advances_trans; [apply (adv_set_worker w _ (item_id c))|done|exact Ha].
  - done.
Qed.

(** An item whose two stages succeed ends [COMPLETED]; nothing is logged as an
    error. *)
Lemma adv_item_success w c config key key2 base64 chunks net t generatedImage s :
  workers s !! w = Some (ReadingFile c config key) ->
  resolveApiKey host (generationConfig (settings s)) = Some key2 ->
  (forall request, generation_try host (net request) = At t (Resolved generatedImage)) ->
  exists g new,
    advances w Pacing (item_id c) g new
      s (run_worker host w (success_events base64 chunks net) s) /\
    (forall item,
        completed_as (describe_return (stream_text EmptyString chunks)) generatedImage
          item (g item)) /\
    Forall (fun r => r.1 <> error) new.
Proof.
  intros Hw Hkey Hnet.
  destruct (adv_analysis w c config key base64 chunks s Hw) as (g1 & Hk1 & Ha1).
  unfold success_events. rewrite run_worker_app.
  set (sA := run_worker host w (analysis_events base64 chunks) s) in *.
  assert (HwA : workers sA !! w = Some (Streaming c config (stream_text EmptyString chunks))).
  { eapply advances_lookup; [exact Ha1|]. by eapply lookup_lt_Some. }
  simpl.
  set (d := describe_return (stream_text EmptyString chunks)).
  assert (HsG : engine_step host w (SdkEnds EndOfStream) sA = begin_generation host w c d sA).
  { unfold engine_step. by rewrite HwA. }
  rewrite HsG.
  assert (HkeyA : resolveApiKey host (generationConfig (settings sA)) = Some key2).
  { by rewrite (adv_settings _ _ _ _ _ _ _ Ha1). }
  pose proof (adv_begin_generation w c d key2 sA HkeyA) as Ha2.
  set (sG := begin_generation host w c d sA) in *.
  set (request := generation_request d (generationConfig (settings sA)) key2) in *.
  assert (HwG : workers sG !! w = Some (Posting c request)).
  { eapply advances_lookup; [exact Ha2|]. by eapply lookup_lt_Some. }
  assert (HsC : engine_step host w (NetAnswers net) sG
                = complete_item host w c generatedImage sG).
  { unfold engine_step. by rewrite HwG, Hnet. }
  rewrite HsC.
  pose proof (adv_complete_item w c generatedImage sG) as Ha3.
  eexists _, _. split; [|split].
  - eapply advances_trans; [eapply advances_trans; [exact Ha1| |exact Ha2]| |exact Ha3].
    + intros item. by destruct (Hk1 item).
    + intros item. simpl. by destruct (Hk1 item).
  - intros item. destruct (Hk1 item) as (? & ? & ? & ? & ? & ? & ?).
    by repeat split.
  - simpl. repeat constructor; done.
Qed.

(** An item whose analysis fails ends [ERROR] with the message of the
    failure, and exactly one record is logged, the error record of the item. *)
Lemma adv_item_failure w c config key f s :
  workers s !! w = Some (ReadingFile c config key) ->
  exists g,
    advances w Pacing (item_id c) g [failed_record c (failure_message config f)]
      s (run_worker host w (failure_events f) s) /\
    (forall item, failed_as (errorMsg_of (failure_message config f)) item (g item)).
Proof.
  intros Hw. destruct f as [message|base64 chunks message];
    cbn [failure_events failure_message].
  - cbn [run_worker foldl].
    assert (Hstep : engine_step host w (FileReadDone (FileFailed message)) s
                    = catch_error host w c message s).
    { unfold engine_step. by rewrite Hw. }
    rewrite Hstep. eexists. split; [apply adv_catch_error|].
    intros item. by repeat split.
  - destruct (adv_analysis w c config key base64 chunks s Hw) as (g1 & Hk1 & Ha1).
    rewrite run_worker_app.
    set (sA := run_worker host w (analysis_events base64 chunks) s) in *.
    assert (HwA : workers sA !! w = Some (Streaming c config (stream_text EmptyString chunks))).
    { eapply advances_lookup; [exact Ha1|]. by eapply lookup_lt_Some. }
    simpl.
    assert (Hstep : engine_step host w (SdkEnds (StreamThrows message)) sA
                    = catch_error host w c (Some (describe_catch config message)) sA).
    { unfold engine_step. by rewrite HwA. }
    rewrite Hstep. eexists. split.
    + change [failed_record c (Some (describe_catch config message))]
        with ([] ++ [failed_record c (Some (describe_catch config message))]).
      eapply advances_trans; [exact Ha1| |apply adv_catch_error].
      intros item. by destruct (Hk1 item).
    + intros item. destruct (Hk1 item) as (? & ? & ? & ? & ? & ? & ?).
      by repeat split.
Qed.

(** *** The head of the loop *)

Lemma engine_step_loop_begin w i c s :
  workers s !! w = Some Pacing -> isProcessingRef s = true ->
  findPendingIndex (items s) = Some i -> items s !! i = Some c ->
  engine_step host w DelayElapsed s = begin_item host w c s.
Proof.
  intros Hw Href Hfind Hi. unfold engine_step. rewrite Hw.
  unfold loop_head. by rewrite Hfind, Href, Hi.
Qed.

Lemma engine_step_loop_exit w s :
  workers s !! w = Some Pacing ->
  isProcessingRef s = false \/ findPendingIndex (items s) = None ->
  engine_step host w DelayElapsed s = finish_queue host w s.
Proof.
  intros Hw Hexit. unfold engine_step. rewrite Hw. unfold loop_head.
  destruct Hexit as [Href|Hnone].
  - rewrite Href. destruct (findPendingIndex (items s)); [done|done].
  - by rewrite Hnone.
Qed.


Lemma findPendingIndex_cons_pending item l :
  item_status item = PENDING -> findPendingIndex (item :: l) = Some 0.
Proof. intros H. unfold findPendingIndex. simpl. by rewrite decide_True. Qed.

Lemma findPendingIndex_cons_other item l :
  item_status item <> PENDING -> findPendingIndex (item :: l) = S <$> findPendingIndex l.
Proof.
  intros H. unfold findPendingIndex. simpl. rewrite decide_False by done.
  by destruct (list_find _ l) as [[i x]|].
Qed.

(** One turn of the loop on an item whose two stages succeed. *)
Lemma adv_iteration_success w c key1 key2 base64 chunks net t generatedImage s :
  w < length (workers s) ->
  resolveApiKey host (analysisConfig (settings s)) = Some key1 ->
  resolveApiKey host (generationConfig (settings s)) = Some key2 ->
  (forall request, generation_try host (net request) = At t (Resolved generatedImage)) ->
  exists g new,
    advances w Pacing (item_id c) g new
      s (run_worker host w (success_events base64 chunks net) (begin_item host w c s)) /\
    (forall item,
        completed_as (describe_return (stream_text EmptyString chunks)) generatedImage
          item (g item)) /\
    Forall (fun r => r.1 <> error) new.
Proof.
  intros Hlt Hk1 Hk2 Hnet.
  pose proof (adv_begin_item w c key1 s Hk1) as Ha0.
  set (s1 := begin_item host w c s) in *.
  destruct (adv_item_success w c (analysisConfig (settings s)) key1 key2 base64 chunks net
              t generatedImage s1) as (g & new & Ha & Hg & Hnew).
  { by eapply advances_lookup. }
  { by rewrite (adv_settings _ _ _ _ _ _ _ Ha0). }
  { done. }
  eexists _, _. split; [|split].
  - eapply advances_trans; [exact Ha0|done|exact Ha].
  - intros item. destruct (Hg (spread item set_analyzing)) as (? & ? & ? & ? & ? & ?).
    by repeat split.
  - simpl. repeat constructor; done.
Qed.

(** One turn of the loop on an item whose analysis fails. *)
Lemma adv_iteration_failure w c key1 f s :
  w < length (workers s) ->
  resolveApiKey host (analysisConfig (settings s)) = Some key1 ->
  exists g new,
    advances w Pacing (item_id c) g new
      s (run_worker host w (failure_events f) (begin_item host w c s)) /\
    (forall item,
        failed_as (errorMsg_of (failure_message (analysisConfig (settings s)) f))
          item (g item)) /\
    filter (fun r => r.1 = error) new
    = [failed_record c (failure_message (analysisConfig (settings s)) f)].
Proof.
  intros Hlt Hk1.
  pose proof (adv_begin_item w c key1 s Hk1) as Ha0.
  set (s1 := begin_item host w c s) in *.
  destruct (adv_item_failure w c (analysisConfig (settings s)) key1 f s1) as (g & Ha & Hg).
  { by eapply advances_lookup. }
  eexists _, _. split; [|split].
  - eapply advances_trans; [exact Ha0|done|exact Ha].
  - intros item. destruct (Hg (spread item set_analyzing)) as (? & ? & ? & ? & ?).
    by repeat split.
  - reflexivity.
Qed.

Lemma update_id_3_first id g (a b c : WorkItem) :
  item_id a = id -> item_id b <> id -> item_id c <> id ->
  update_id id g [a; b; c] = [g a; b; c].
Proof.
  intros Ha Hb Hc. unfold update_id. simpl.
  by rewrite (decide_True (P := item_id a = id)),
     (decide_False (P := item_id b = id)), (decide_False (P := item_id c = id)).
Qed.

Lemma update_id_3_second id g (a b c : WorkItem) :
  item_id a <> id -> item_id b = id -> item_id c <> id ->
  update_id id g [a; b; c] = [a; g b; c].
Proof.
  intros Ha Hb Hc. unfold update_id. simpl.
  by rewrite (decide_False (P := item_id a = id)),
     (decide_True (P := item_id b = id)), (decide_False (P := item_id c = id)).
Qed.

Lemma update_id_3_third id g (a b c : WorkItem) :
  item_id a <> id -> item_id b <> id -> item_id c = id ->
  update_id id g [a; b; c] = [a; b; g c].
Proof.
  intros Ha Hb Hc. unfold update_id. simpl.
  by rewrite (decide_False (P := item_id a = id)),
     (decide_False (P := item_id b = id)), (decide_True (P := item_id c = id)).
Qed.

End Advances.

(** ** Credentials *)

Section Credentials.

Variable host : Host.

(** C9.  For both stage calls the guard on the credential throws exactly when
    the [apiKey] of the configuration is undefined or empty and the
    environment provides no [API_KEY] (neither [VITE_API_KEY] in the Vite
    table nor [API_KEY] in [process.env] is set to a non-empty value).  When
    it throws, the call rejects with its missing-key message before anything
    is read or sent, and the loop fails the item with that message.  When the
    configuration has no key and the environment has one, the call goes on
    with the environment's key, trimmed: the file is read and the SDK asked,
    the image request carries that key, and the loop, having marked the item
    [ANALYZING], waits for the file without logging an error. *)
Theorem credential_fallback (config : ServiceConfig) :
  (resolveApiKey host config = None <->
     truthy (apiKey config) = false /\
     truthy (env_lookup (meta_env host) "VITE_API_KEY") = false /\
     truthy (env_lookup (process_env host) "API_KEY") = false) /\
  (resolveApiKey host config = None ->
     (forall file read sdk,
         describeImage host file config read sdk
         = ([], Some (Rejected (Some analysis_key_missing)))) /\
     (forall file prompt net,
         generateVariation host file prompt config net
         = At 0 (Rejected (Some generation_key_missing))) /\
     (forall s w c, analysisConfig (settings s) = config ->
         exists u new,
           advances w Pacing (item_id c) (fun item => spread item u) new
             s (begin_item host w c s) /\
           p_status u = Some ERROR /\ p_error u = Some (Some analysis_key_missing) /\
           filter (fun r => r.1 = error) new
           = [failed_record c (Some analysis_key_missing)])) /\
  (truthy (apiKey config) = false -> getEnv host "API_KEY" <> EmptyString ->
     resolveApiKey host config = Some (trim (getEnv host "API_KEY")) /\
     (forall file base64 sdk,
         describeImage host file config (FileLoaded base64) sdk
         = describe_stream config EmptyString
             (chunks (sdk (describe_request file config (trim (getEnv host "API_KEY")) base64)))
             (finish (sdk (describe_request file config (trim (getEnv host "API_KEY")) base64)))) /\
     (forall file prompt net,
         generateVariation host file prompt config net
         = generation_try host
             (net (generation_request prompt config (trim (getEnv host "API_KEY"))))) /\
     (forall s w c, analysisConfig (settings s) = config ->
         exists new,
           advances w (ReadingFile c config (trim (getEnv host "API_KEY"))) (item_id c)
             (fun item => spread item set_analyzing) new s (begin_item host w c s) /\
           filter (fun r => r.1 = error) new = [])).
Proof.
  split; [|split].
  - rewrite resolveApiKey_None, getEnv_empty. simpl. tauto.
  - intros Hnone. split; [|split].
    + intros. unfold describeImage. by rewrite Hnone.
    + intros. unfold generateVariation. by rewrite Hnone.
    + intros s w c Hcfg. rewrite <- Hcfg in Hnone.
      eexists _, _. split; [by apply adv_begin_item_no_key|]. done.
  - intros Hk Henv.
    assert (Hres : resolveApiKey host config = Some (trim (getEnv host "API_KEY"))).
    { unfold resolveApiKey, js_or. rewrite Hk. simpl.
      by destruct (decide (getEnv host "API_KEY" = EmptyString)). }
    split; [done|]. split; [|split].
    + intros. unfold describeImage. by rewrite Hres.
    + intros. unfold generateVariation. by rewrite Hres.
    + intros s w c Hcfg. rewrite <- Hcfg in Hres.
      eexists. rewrite <- Hcfg. split; [by apply adv_begin_item|]. done.
Qed.

End Credentials.

Lemma credential_fallback_witness :
  truthy (apiKey (analysisConfig DEFAULT_SETTINGS)) = false /\
  getEnv sample_host_with_env "API_KEY" <> EmptyString /\
  resolveApiKey sample_host_with_env (analysisConfig DEFAULT_SETTINGS) = Some "env-key".
Proof.
  assert (H1 : truthy (apiKey (analysisConfig DEFAULT_SETTINGS)) = false) by reflexivity.
  assert (H2 : getEnv sample_host_with_env "API_KEY" <> EmptyString) by discriminate.
  split; [exact H1|]. split; [exact H2|].
  destruct (credential_fallback sample_host_with_env (analysisConfig DEFAULT_SETTINGS))
    as (_ & _ & H).
  destruct (H H1 H2) as [-> _]. reflexivity.
Defined.


(** ** Result, error message and description of the reachable items *)

Lemma reachable_run host es s : reachable host s -> reachable host (run host es s).
Proof.
  revert s. induction es as [|e es IH]; intros s Hs; simpl; [done|].
  apply IH. by constructor.
Qed.

Section Reachable.

Variable host : Host.
Hypothesis random_id_inj : Inj (=) (=) (random_id host).

(** C8.  In every state the page can reach, no item carries both a result and
    an error message; an item carries a result exactly when its status is
    [COMPLETED] and an error message exactly when its status is [ERROR].
    Every step of the driver loop and every user command leads to a state in
    which this holds again.  (The ids [generateId] hands out are taken to be
    pairwise different.) *)
Theorem result_error_exclusive (s : State) :
  reachable host s ->
  (forall item, item ∈ items s ->
     ~ (is_Some (generatedImageUrl item) /\ is_Some (item_error item)) /\
     (is_Some (generatedImageUrl item) <-> item_status item = COMPLETED) /\
     (is_Some (item_error item) <-> item_status item = ERROR)) /\
  (forall e item, item ∈ items (step host e s) ->
     ~ (is_Some (generatedImageUrl item) /\ is_Some (item_error item)) /\
     (is_Some (generatedImageUrl item) <-> item_status item = COMPLETED) /\
     (is_Some (item_error item) <-> item_status item = ERROR)).
Proof.
  intros Hs.
  assert (H : forall s', reachable host s' -> forall item, item ∈ items s' ->
     ~ (is_Some (generatedImageUrl item) /\ is_Some (item_error item)) /\
     (is_Some (generatedImageUrl item) <-> item_status item = COMPLETED) /\
     (is_Some (item_error item) <-> item_status item = ERROR)).
  { intros s' Hs' item Hin.
    destruct (inv_items _ _ (Inv_reachable host random_id_inj s' Hs') item Hin)
      as (Hurl & Herr & _).
    split; [|done]. intros [Hu He]. apply Hurl in Hu. apply Herr in He. congruence. }
  split; [by apply H|]. intros e. apply H. by constructor.
Qed.

End Reachable.

Lemma sample_finished_reachable : reachable sample_host sample_finished.
Proof. repeat apply reachable_run. constructor. Qed.

Lemma result_error_exclusive_witness :
  reachable sample_host sample_finished /\
  forall item, item ∈ items sample_finished ->
    ~ (is_Some (generatedImageUrl item) /\ is_Some (item_error item)).
Proof.
  split; [exact sample_finished_reachable|].
  intros item Hin.
  exact (proj1 (proj1 (result_error_exclusive sample_host pretty_nat_inj sample_finished
                         sample_finished_reachable) item Hin)).
Defined.

Section Description.

Variable host : Host.
Hypothesis random_id_inj : Inj (=) (=) (random_id host).

Lemma describe_return_nonempty fullText : describe_return fullText <> EmptyString.
Proof. unfold describe_return. by apply js_or_str_nonempty. Qed.

Lemma describe_chunk_falsy fullText chunk_text :
  truthy chunk_text = false -> describe_chunk fullText chunk_text = (fullText, None).
Proof. intros H. unfold describe_chunk. by rewrite H. Qed.

Lemma describe_stream_resolved config fullText chunks finish updates d :
  describe_stream config fullText chunks finish = (updates, Some (Resolved d)) ->
  d <> EmptyString /\
  (fullText = EmptyString -> Forall (fun t => truthy t = false) chunks ->
   d = "No description generated.").
Proof.
  revert fullText updates. induction chunks as [|c chunks IH]; intros fullText updates; simpl.
  - destruct finish; intros [= _ <-]. split; [apply describe_return_nonempty|].
    by intros ->.
  - destruct (describe_chunk fullText c) as [fullText' update] eqn:Hc.
    destruct (describe_stream config fullText' chunks finish) as [ups r] eqn:Hr.
    intros [= _ ->]. destruct (IH _ _ Hr) as [Hne Hplace]. split; [done|].
    intros -> Hall. apply Forall_cons in Hall as [Hfalsy Hall].
    rewrite describe_chunk_falsy in Hc by done. injection Hc as <- _. by apply Hplace.
Qed.

(** The three ways [describeImage] ends once the stream is open, in terms of
    the text the loop accumulates chunk by chunk. *)
Lemma describe_stream_settles config fullText chunks finish :
  (describe_stream config fullText chunks finish).2
  = match finish with
    | EndOfStream => Some (Resolved (describe_return (stream_text fullText chunks)))
    | StreamThrows message => Some (Rejected (Some (describe_catch config message)))
    | StreamStalls => None
    end.
Proof.
  revert fullText. induction chunks as [|c chunks IH]; intros fullText; simpl.
  - by destruct finish.
  - destruct (describe_chunk fullText c) as [fullText' update]. simpl.
    specialize (IH fullText').
    by destruct (describe_stream config fullText' chunks finish).
Qed.

(** C10.  A description [describeImage] resolves with is never empty: it is
    the text the chunks of the stream add up to or, when no chunk carried
    text, the fixed sentence.  When the stream of an invocation ends, the loop
    goes on with that description and writes it into the item, so in every
    reachable state a completed item has a non-empty description.  (The ids
    [generateId] hands out are taken to be pairwise different.) *)
Theorem description_never_empty (s : State) :
  reachable host s ->
  (forall file config read sdk updates d,
      describeImage host file config read sdk = (updates, Some (Resolved d)) ->
      d <> EmptyString) /\
  (forall config chunks updates d,
      describe_stream config EmptyString chunks EndOfStream = (updates, Some (Resolved d)) ->
      Forall (fun t => truthy t = false) chunks -> d = "No description generated.") /\
  (forall config fullText chunks,
      (describe_stream config fullText chunks EndOfStream).2
      = Some (Resolved (describe_return (stream_text fullText chunks)))) /\
  (forall w c config fullText,
      workers s !! w = Some (Streaming c config fullText) ->
      engine_step host w (SdkEnds EndOfStream) s
      = begin_generation host w c (describe_return fullText) s /\
      forall item, item ∈ items (engine_step host w (SdkEnds EndOfStream) s) ->
        item_id item = item_id c -> originalPrompt item = Some (describe_return fullText)) /\
  (forall item, item ∈ items s -> item_status item = COMPLETED ->
      exists d, originalPrompt item = Some d /\ d <> EmptyString).
Proof.
  intros Hs. split; [|split; [|split; [|split]]].
  - intros file config read sdk updates d. unfold describeImage.
    destruct (resolveApiKey host config); [|done]. destruct read; [|done].
    intros H. by apply describe_stream_resolved in H as [H _].
  - intros config chunks updates d H Hall.
    apply describe_stream_resolved in H as [_ H]. by apply H.
  - intros config fullText chunks.
    exact (describe_stream_settles config fullText chunks EndOfStream).
  - intros w c config fullText Hw.
    assert (Hstep : engine_step host w (SdkEnds EndOfStream) s
                    = begin_generation host w c (describe_return fullText) s).
    { unfold engine_step. by rewrite Hw. }
    split; [exact Hstep|]. rewrite Hstep. intros item Hin Hid.
    assert (exists u, items (begin_generation host w c (describe_return fullText) s)
                      = update_id (item_id c) (fun item => spread item u) (items s) /\
                      p_originalPrompt u = Some (Some (describe_return fullText)))
      as (u & Hitems & Hu).
    { destruct (resolveApiKey host (generationConfig (settings s))) as [key|] eqn:Hkey.
      - eexists. split;
          [exact (adv_items _ _ _ _ _ _ _
                    (adv_begin_generation host w c (describe_return fullText) key s Hkey))
          |reflexivity].
      - eexists. split;
          [exact (adv_items _ _ _ _ _ _ _
                    (adv_begin_generation_no_key host w c (describe_return fullText) s Hkey))
          |reflexivity]. }
    rewrite Hitems in Hin.
    apply elem_of_update_id in Hin as (item0 & Hin & [[He ->]|[Hne ->]]); [|done].
    simpl. by rewrite Hu.
  - intros item Hin Hst.
    destruct (inv_items _ _ (Inv_reachable host random_id_inj s Hs) item Hin)
      as (_ & _ & Hdesc).
    apply Hdesc. by right.
Qed.

End Description.

Lemma description_never_empty_witness :
  reachable sample_host sample_finished /\
  originalPrompt <$> items sample_finished
  = [Some "a cat"; Some EmptyString; Some "a dog"] /\
  forall item, item ∈ items sample_finished -> item_status item = COMPLETED ->
    exists d, originalPrompt item = Some d /\ d <> EmptyString.
Proof.
  split; [exact sample_finished_reachable|]. split; [vm_compute; reflexivity|].
  exact (proj2 (proj2 (proj2 (proj2 (description_never_empty sample_host pretty_nat_inj
                                       sample_finished sample_finished_reachable))))).
Defined.

(** ** A failing item does not stop the batch *)

Lemma filter_error_none (l : list (LogType * string)) :
  Forall (fun r => r.1 <> error) l -> filter (fun r => r.1 = error) l = [].
Proof.
  induction 1 as [|r l Hr _ IH]; [done|].
  rewrite filter_cons. by rewrite decide_False, IH.
Qed.

Section FailureIsolation.

Variable host : Host.

(** C1.  Three pending items with different ids, both keys configured, and
    [processQueue] started.  The two stages of the first and the third item
    succeed, the analysis of the second fails (the file cannot be read, or the
    SDK throws).  When the loop has finished, the first and the third item are
    [COMPLETED] with their results, the second is [ERROR] with the message of
    the failure, the invocation has left through [finally], and among the
    records logged during the run exactly one is an error record, the one of
    the second item. *)
Theorem failure_isolation (s : State) (i1 i2 i3 : WorkItem) (key1 key2 : string)
    (base64_1 : string) (chunks1 : list (option string)) (net1 : GenRequest -> NetBehaviour)
    (t1 : N) (url1 : string) (f2 : AnalysisFailure)
    (base64_3 : string) (chunks3 : list (option string)) (net3 : GenRequest -> NetBehaviour)
    (t3 : N) (url3 : string) :
  items s = [i1; i2; i3] ->
  item_status i1 = PENDING -> item_status i2 = PENDING -> item_status i3 = PENDING ->
  NoDup [item_id i1; item_id i2; item_id i3] ->
  isProcessingRef s = false ->
  resolveApiKey host (analysisConfig (settings s)) = Some key1 ->
  resolveApiKey host (generationConfig (settings s)) = Some key2 ->
  (forall request, generation_try host (net1 request) = At t1 (Resolved url1)) ->
  (forall request, generation_try host (net3 request) = At t3 (Resolved url3)) ->
  let w := length (workers s) in
  let s' :=
    run_worker host w
      (success_events base64_1 chunks1 net1 ++ [DelayElapsed] ++
       failure_events f2 ++ [DelayElapsed] ++
       success_events base64_3 chunks3 net3 ++ [DelayElapsed])
      (processQueue host s) in
  exists i1' i2' i3' new,
    items s' = [i1'; i2'; i3'] /\
    completed_as (describe_return (stream_text EmptyString chunks1)) url1 i1 i1' /\
    failed_as (errorMsg_of (failure_message (analysisConfig (settings s)) f2)) i2 i2' /\
    completed_as (describe_return (stream_text EmptyString chunks3)) url3 i3 i3' /\
    workers s' !! w = Some Exited /\
    isProcessingRef s' = false /\ isProcessing s' = false /\
    log_view <$> logs s' = (log_view <$> logs s) ++ new /\
    filter (fun r => r.1 = error) new
    = [failed_record i2 (failure_message (analysisConfig (settings s)) f2)].
Proof.
  intros Hitems Hp1 Hp2 Hp3 Hnd Href Hk1 Hk2 Hnet1 Hnet3 w s'.
  apply NoDup_cons in Hnd as [Hn1 Hnd]. apply NoDup_cons in Hnd as [Hn2 _].
  apply not_elem_of_cons in Hn1 as [H12 Hn1]. apply not_elem_of_cons in Hn1 as [H13 _].
  apply not_elem_of_cons in Hn2 as [H23 _].
  (* the start of the loop *)
  set (s0 := addLog host info "Queue processing started."
               (setIsProcessing true
                  (set_isProcessingRef true (set_workers (fun ws => ws ++ [Exited]) s)))).
  assert (Hw0 : w < length (workers s0)).
  { simpl. rewrite length_app. simpl. unfold w. lia. }
  assert (Hstart : processQueue host s = begin_item host w i1 s0).
  { unfold processQueue. rewrite Href. fold s0. fold w.
    change (loop_head host w (findPendingIndex (items s)) s0 = begin_item host w i1 s0).
    rewrite Hitems, findPendingIndex_cons_pending by done.
    unfold loop_head. change (isProcessingRef s0) with true. cbv iota.
    change (items s0) with (items s). by rewrite Hitems. }
  (* the first item *)
  destruct (adv_iteration_success host w i1 key1 key2 base64_1 chunks1 net1 t1 url1 s0
              Hw0 Hk1 Hk2 Hnet1) as (g1 & new1 & Ha1 & Hg1 & Hnew1).
  set (sA := run_worker host w (success_events base64_1 chunks1 net1)
               (begin_item host w i1 s0)) in *.
  assert (HiA : items sA = [g1 i1; i2; i3]).
  { rewrite (adv_items _ _ _ _ _ _ _ Ha1). change (items s0) with (items s).
    rewrite Hitems. by apply update_id_3_first. }
  destruct (Hg1 i1) as (Hid1 & Hfile1 & Hst1 & Hd1 & Hu1 & He1).
  assert (HwA : workers sA !! w = Some Pacing) by (by eapply advances_lookup).
  (* the second item *)
  assert (HstepA : engine_step host w DelayElapsed sA = begin_item host w i2 sA).
  { eapply (engine_step_loop_begin host w 1); [done| | |by rewrite HiA].
    - by rewrite (adv_ref _ _ _ _ _ _ _ Ha1).
    - rewrite HiA, findPendingIndex_cons_other by congruence.
      by rewrite findPendingIndex_cons_pending. }
  assert (HsetA : settings sA = settings s) by (by rewrite (adv_settings _ _ _ _ _ _ _ Ha1)).
  assert (HlenA : w < length (workers sA)) by (by eapply lookup_lt_Some).
  destruct (adv_iteration_failure host w i2 key1 f2 sA HlenA) as (g2 & new2 & Ha2 & Hg2 & Hnew2).
  { by rewrite HsetA. }
  rewrite HsetA in Hg2, Hnew2.
  set (sB := run_worker host w (failure_events f2) (begin_item host w i2 sA)) in *.
  assert (HiB : items sB = [g1 i1; g2 i2; i3]).
  { rewrite (adv_items _ _ _ _ _ _ _ Ha2), HiA. apply update_id_3_second; congruence. }
  destruct (Hg2 i2) as (Hid2 & Hfile2 & Hst2 & He2 & Hu2).
  assert (HwB : workers sB !! w = Some Pacing) by (by eapply advances_lookup).
  (* the third item *)
  assert (HstepB : engine_step host w DelayElapsed sB = begin_item host w i3 sB).
  { eapply (engine_step_loop_begin host w 2); [done| | |by rewrite HiB].
    - by rewrite (adv_ref _ _ _ _ _ _ _ Ha2), (adv_ref _ _ _ _ _ _ _ Ha1).
    - rewrite HiB, !findPendingIndex_cons_other by congruence.
      by rewrite findPendingIndex_cons_pending. }
  assert (HsetB : settings sB = settings s).
  { by rewrite (adv_settings _ _ _ _ _ _ _ Ha2). }
  assert (HlenB : w < length (workers sB)) by (by eapply lookup_lt_Some).
  destruct (adv_iteration_success host w i3 key1 key2 base64_3 chunks3 net3 t3 url3 sB
              HlenB) as (g3 & new3 & Ha3 & Hg3 & Hnew3); [by rewrite HsetB..|done|].
  set (sC := run_worker host w (success_events base64_3 chunks3 net3)
               (begin_item host w i3 sB)) in *.
  assert (HiC : items sC = [g1 i1; g2 i2; g3 i3]).
  { rewrite (adv_items _ _ _ _ _ _ _ Ha3), HiB. apply update_id_3_third; congruence. }
  destruct (Hg3 i3) as (Hid3 & Hfile3 & Hst3 & Hd3 & Hu3 & He3).
  assert (HwC : workers sC !! w = Some Pacing) by (by eapply advances_lookup).
  (* the end of the loop *)
  assert (HstepC : engine_step host w DelayElapsed sC = finish_queue host w sC).
  { apply engine_step_loop_exit; [done|]. right.
    rewrite HiC, !findPendingIndex_cons_other by congruence. done. }
  assert (Hs' : s' = finish_queue host w sC).
  { unfold s'. rewrite Hstart, !run_worker_app. fold sA.
    change (run_worker host w [DelayElapsed] sA) with (engine_step host w DelayElapsed sA).
    rewrite HstepA. fold sB.
    change (run_worker host w [DelayElapsed] sB) with (engine_step host w DelayElapsed sB).
    rewrite HstepB. fold sC.
    change (run_worker host w [DelayElapsed] sC) with (engine_step host w DelayElapsed sC).
    by rewrite HstepC. }
  exists (g1 i1), (g2 i2), (g3 i3),
    ([(info, "Queue processing started.")] ++ new1 ++ new2 ++ new3
       ++ [(info, "Queue processing finished or stopped.")]).
  rewrite Hs'. split; [exact HiC|]. split; [exact (Hg1 i1)|].
  split; [exact (Hg2 i2)|]. split; [exact (Hg3 i3)|].
  split. { simpl. apply list_lookup_insert_eq. by eapply lookup_lt_Some. }
  split; [reflexivity|]. split; [reflexivity|]. split.
  - simpl. rewrite fmap_app. simpl.
    rewrite (adv_logs _ _ _ _ _ _ _ Ha3), (adv_logs _ _ _ _ _ _ _ Ha2),
      (adv_logs _ _ _ _ _ _ _ Ha1).
    unfold s0. rewrite log_view_addLog. simpl. by rewrite <- !app_assoc.
  - rewrite !filter_app, Hnew2.
    by rewrite (filter_error_none new1), (filter_error_none new3).
Qed.

End FailureIsolation.

(** ** Stopping while an item is in flight *)

Section Drain.

Variable host : Host.

Lemma engine_step_not_awaited w ph e s :
  workers s !! w = Some ph -> awaited ph e = false -> engine_step host w e s = s.
Proof.
  intros Hw Ha. unfold engine_step. rewrite Hw.
  destruct ph, e as [[?|?]|?|[|?|]|?|]; simpl in Ha; try done.
Qed.

Lemma run_worker_not_awaited w ph es s :
  workers s !! w = Some ph -> Forall (fun e => awaited ph e = false) es ->
  run_worker host w es s = s.
Proof.
  intros Hw Hall. induction Hall as [|e es He _ IH]; [done|].
  simpl. rewrite (engine_step_not_awaited w ph e s Hw He). exact IH.
Qed.

Lemma terminal_as_compose g1 g2 :
  (forall item, item_id (g1 item) = item_id item /\ item_file (g1 item) = item_file item) ->
  (forall item, terminal_as item (g2 item)) ->
  forall item, terminal_as item (g2 (g1 item)).
Proof.
  intros H1 H2 item. destruct (H1 item) as [? ?].
  destruct (H2 (g1 item)) as (? & ? & ?). repeat split; congruence.
Qed.

(** The answer of the image service ends the item. *)
Lemma drain_posting w c request net s :
  workers s !! w = Some (Posting c request) ->
  generation_try host (net request) <> Never ->
  exists g new,
    advances w Pacing (item_id c) g new s (engine_step host w (NetAnswers net) s) /\
    forall item, terminal_as item (g item).
Proof.
  intros Hw Hnet. unfold engine_step. rewrite Hw.
  destruct (generation_try host (net request)) as [t [generatedImage|message]|]; [| |done].
  - eexists _, _. split; [apply adv_complete_item|].
    intros item. repeat split. by left.
  - eexists _, _. split; [apply adv_catch_error|].
    intros item. repeat split. by right.
Qed.

(** The end of the stream leads to the image request or to a failure, and
    the answer of the image service ends the item. *)
Lemma drain_stream_end w c config fullText finish net s :
  workers s !! w = Some (Streaming c config fullText) ->
  finish <> StreamStalls ->
  (forall request, generation_try host (net request) <> Never) ->
  exists g new,
    advances w Pacing (item_id c) g new
      s (run_worker host w [SdkEnds finish; NetAnswers net] s) /\
    forall item, terminal_as item (g item).
Proof.
  intros Hw Hfin Hnet. cbn [run_worker foldl].
  assert (Hlt : w < length (workers s)) by (by eapply lookup_lt_Some).
  destruct finish as [|message|]; [| |done].
  - assert (Hstep : engine_step host w (SdkEnds EndOfStream) s
                    = begin_generation host w c (describe_return fullText) s).
    { unfold engine_step. by rewrite Hw. }
    rewrite Hstep.
    destruct (resolveApiKey host (generationConfig (settings s))) as [key|] eqn:Hkey.
    + pose proof (adv_begin_generation host w c (describe_return fullText) key s Hkey) as Ha1.
      destruct (drain_posting w c _ net _ (advances_lookup _ _ _ _ _ _ _ Ha1 Hlt) (Hnet _))
        as (g2 & new2 & Ha2 & Hg2).
      eexists _, _. split; [eapply advances_trans; [exact Ha1|done|exact Ha2]|].
      intros item.
      exact (terminal_as_compose
               (fun item => spread item (set_generating (describe_return fullText))) g2
               (fun item => conj eq_refl eq_refl) Hg2 item).
    + pose proof (adv_begin_generation_no_key host w c (describe_return fullText) s Hkey)
        as Ha1.
      rewrite (engine_step_not_awaited w Pacing); [|by eapply advances_lookup|done].
      eexists _, _. split; [exact Ha1|]. intros item. repeat split. by right.
  - assert (Hstep : engine_step host w (SdkEnds (StreamThrows message)) s
                    = catch_error host w c (Some (describe_catch config message)) s).
    { unfold engine_step. by rewrite Hw. }
    rewrite Hstep.
    rewrite (engine_step_not_awaited w Pacing);
      [|by eapply advances_lookup; [apply adv_catch_error|]|done].
    eexists _, _. split; [apply adv_catch_error|]. intros item. repeat split. by right.
Qed.

Lemma drain_streaming w c config fullText chunks finish net s :
  workers s !! w = Some (Streaming c config fullText) ->
  finish <> StreamStalls ->
  (forall request, generation_try host (net request) <> Never) ->
  exists g new,
    advances w Pacing (item_id c) g new
      s (run_worker host w ((SdkChunk <$> chunks) ++ [SdkEnds finish; NetAnswers net]) s) /\
    forall item, terminal_as item (g item).
Proof.
  intros Hw Hfin Hnet. rewrite run_worker_app.
  assert (Hlt : w < length (workers s)) by (by eapply lookup_lt_Some).
  destruct (adv_chunks host w c config chunks fullText s Hw) as (g1 & Hk1 & Ha1).
  destruct (drain_stream_end w c config _ finish net _
              (advances_lookup _ _ _ _ _ _ _ Ha1 Hlt) Hfin Hnet) as (g2 & new2 & Ha2 & Hg2).
  eexists _, _. split.
  - eapply advances_trans; [exact Ha1| |exact Ha2]. intros item. by destruct (Hk1 item).
  - intros item.
    refine (terminal_as_compose g1 g2 _ Hg2 item).
    intros item'. by destruct (Hk1 item') as (? & ? & _).
Qed.

(** Whatever an invocation in flight is waiting for, the rest of its item
    brings the item to an end and the invocation to the pacing delay. *)
Lemma drain_item w ph c st read chunks finish net s :
  workers s !! w = Some ph -> current ph = Some (c, st) ->
  finish <> StreamStalls ->
  (forall request, generation_try host (net request) <> Never) ->
  exists g new,
    advances w Pacing (item_id c) g new
      s (run_worker host w (rest_of_item read chunks finish net) s) /\
    forall item, terminal_as item (g item).
Proof.
  intros Hw Hc Hfin Hnet. unfold rest_of_item.
  assert (Hlt : w < length (workers s)) by (by eapply lookup_lt_Some).
  destruct ph as [c0 config key|c0 config fullText|c0 request| |];
    simpl in Hc; try done; injection Hc as -> <-.
  - (* waiting for the file *)
    change (FileReadDone read :: (SdkChunk <$> chunks) ++ [SdkEnds finish; NetAnswers net])
      with ([FileReadDone read] ++ ((SdkChunk <$> chunks) ++ [SdkEnds finish; NetAnswers net])).
    rewrite run_worker_app.
    change (run_worker host w [FileReadDone read] s)
      with (engine_step host w (FileReadDone read) s).
    destruct read as [base64|message].
    + assert (Hstep : engine_step host w (FileReadDone (FileLoaded base64)) s
                      = set_worker w (Streaming c config EmptyString) s).
      { unfold engine_step. by rewrite Hw. }
      rewrite Hstep.
      pose proof (adv_set_worker w (Streaming c config EmptyString) (item_id c) s) as Ha1.
      destruct (drain_streaming w c config EmptyString chunks finish net _
                  (advances_lookup _ _ _ _ _ _ _ Ha1 Hlt) Hfin Hnet)
        as (g2 & new2 & Ha2 & Hg2).
      eexists _, _. split; [eapply advances_trans; [exact Ha1|done|exact Ha2]|done].
    + assert (Hstep : engine_step host w (FileReadDone (FileFailed message)) s
                      = catch_error host w c message s).
      { unfold engine_step. by rewrite Hw. }
      rewrite Hstep.
      rewrite (run_worker_not_awaited w Pacing).
      * eexists _, _. split; [apply adv_catch_error|]. intros item. repeat split. by right.
      * by eapply advances_lookup; [apply adv_catch_error|].
      * apply Forall_app. split; [|by repeat constructor].
        apply Forall_fmap. by apply Forall_true.
  - (* streaming *)
    change (run_worker host w
              (FileReadDone read :: (SdkChunk <$> chunks) ++ [SdkEnds finish; NetAnswers net]) s)
      with (run_worker host w ((SdkChunk <$> chunks) ++ [SdkEnds finish; NetAnswers net])
              (engine_step host w (FileReadDone read) s)).
    rewrite (engine_step_not_awaited w _ (FileReadDone read) s Hw eq_refl).
    by apply (drain_streaming w c config fullText).
  - (* waiting for the image *)
    assert (Hsplit :
      FileReadDone read :: (SdkChunk <$> chunks) ++ [SdkEnds finish; NetAnswers net]
      = (FileReadDone read :: (SdkChunk <$> chunks) ++ [SdkEnds finish]) ++ [NetAnswers net]).
    { simpl. f_equal. by rewrite <- app_assoc. }
    rewrite Hsplit, run_worker_app.
    rewrite (run_worker_not_awaited w (Posting c request) _ s Hw).
    + by apply (drain_posting w c request).
    + constructor; [done|]. apply Forall_app. split; [|by repeat constructor].
      apply Forall_fmap. by apply Forall_true.
Qed.

End Drain.

Section Stop.

Variable host : Host.








End Stop.

Section StopTheorem.

Variable host : Host.
Hypothesis random_id_inj : Inj (=) (=) (random_id host).


End StopTheorem.

Lemma sample_analyzing_reachable : reachable sample_host sample_analyzing.
Proof. repeat apply reachable_run. constructor. Qed.

Lemma failure_isolation_witness :
  item_status <$> items sample_loaded = [PENDING; PENDING; PENDING] /\
  isProcessingRef sample_loaded = false /\
  exists i1' i2' i3',
    items (run_worker sample_host (length (workers sample_loaded))
             (success_events "AAAA" [Some "a cat"]
                (fun _ => Responds 100 (sample_response "http://img/1")) ++ [DelayElapsed] ++
              failure_events (SdkFails "BBBB" [] (Some "503 overloaded")) ++ [DelayElapsed] ++
              success_events "CCCC" [Some "a dog"]
                (fun _ => Responds 100 (sample_response "http://img/3")) ++ [DelayElapsed])
             (processQueue sample_host sample_loaded))
    = [i1'; i2'; i3'] /\
    item_status i1' = COMPLETED /\ item_status i2' = ERROR /\ item_status i3' = COMPLETED.
Proof.
  split; [vm_compute; reflexivity|]. split; [vm_compute; reflexivity|].
  destruct (failure_isolation sample_host sample_loaded
              (sample_item "1" "a.png") (sample_item "2" "b.png") (sample_item "3" "c.png")
              "k1" "k2"
               "AAAA" [Some "a cat"] (fun _ => Responds 100 (sample_response "http://img/1"))
               105%N "http://img/1" (SdkFails "BBBB" [] (Some "503 overloaded"))
               "CCCC" [Some "a dog"] (fun _ => Responds 100 (sample_response "http://img/3"))
               105%N "http://img/3")
    as (i1' & i2' & i3' & new & Hitems & H1 & H2 & H3 & _).
  - vm_compute. reflexivity.
  - vm_compute. reflexivity.
  - vm_compute. reflexivity.
  - vm_compute. reflexivity.
  - apply (bool_decide_unpack _). vm_compute. exact I.
  - vm_compute. reflexivity.
  - vm_compute. reflexivity.
  - vm_compute. reflexivity.
  - intros request. vm_compute. reflexivity.
  - intros request. vm_compute. reflexivity.
  - exists i1', i2', i3'. split; [exact Hitems|].
    destruct H1 as (_ & _ & -> & _). destruct H2 as (_ & _ & -> & _).
    destruct H3 as (_ & _ & -> & _). repeat split; reflexivity.
Defined.


(** * Further properties of the code *)

(** ** The shape of a loop step *)

Section Shape.

Variable host : Host.

Lemma spread_write_nothing item : spread item write_nothing = item.
Proof. by destruct item. Qed.

Lemma errorMsg_of_nonempty message : errorMsg_of message <> EmptyString.
Proof. unfold errorMsg_of. by apply js_or_str_nonempty. Qed.

Lemma truthy_nonempty v : truthy v = true -> js_or_str v EmptyString <> EmptyString.
Proof. destruct v as [s|]; simpl; [|done]. by destruct (decide (s = EmptyString)). Qed.

Lemma generation_body_resolved_nonempty t response t' url :
  generation_body t response = At t' (Resolved url) -> url <> EmptyString.
Proof.
  unfold generation_body. destruct (ok response).
  - destruct (json response) as [d [u b64 str|m]|d m|]; try done.
    destruct (truthy u) eqn:Hu; [intros [= _ <-]; by apply truthy_nonempty|].
    destruct (truthy b64) eqn:Hb; [|done]. by intros [= _ <-].
  - by destruct (text response).
Qed.

Lemma generation_try_resolved_nonempty net t url :
  generation_try host net = At t (Resolved url) -> url <> EmptyString.
Proof.
  unfold generation_try.
  destruct (fetchWithTimeout host net None) as [t0 [response|message]|]; try done.
  apply generation_body_resolved_nonempty.
Qed.

(** Closes the fields of [update_ok] for a concrete update. *)
Ltac solve_update_ok :=
  split; simpl;
  first [ done
        | by left
        | by (right; eexists; repeat split; eauto using errorMsg_of_nonempty)
        | by (intros ? ? [= <- <-])
        | by (intros _; left)
        | by (intros _; right)
        | idtac ].

(** Starting an item: the item is marked [ANALYZING] and the invocation waits
    for its file, or the analysis key is missing and the item fails at once. *)
Lemma begin_item_shape w c s :
  exists ph' u new,
    advances w ph' (item_id c) (fun item => spread item u) new s (begin_item host w c s) /\
    update_ok PENDING c ph' u.
Proof.
  destruct (resolveApiKey host (analysisConfig (settings s))) as [key|] eqn:Hkey.
  - eexists _, _, _. split; [by apply adv_begin_item|]. solve_update_ok.
  - eexists _, _, _. split; [by apply adv_begin_item_no_key|]. solve_update_ok.
Qed.

(** A step of an invocation does nothing, or works on the item the invocation
    has in flight, or is the head of the loop: it leaves, or starts the first
    pending item. *)
Lemma engine_step_shape w e s :
  engine_step host w e s = s \/
  (exists ph c st ph' u new,
      workers s !! w = Some ph /\ current ph = Some (c, st) /\
      advances w ph' (item_id c) (fun item => spread item u) new
        s (engine_step host w e s) /\
      update_ok st c ph' u) \/
  (workers s !! w = Some Pacing /\ e = DelayElapsed /\
   (engine_step host w e s = finish_queue host w s \/
    exists i c ph' u new,
      isProcessingRef s = true /\ findPendingIndex (items s) = Some i /\
      items s !! i = Some c /\ item_status c = PENDING /\
      advances w ph' (item_id c) (fun item => spread item u) new
        s (engine_step host w e s) /\
      update_ok PENDING c ph' u)).
Proof.
  destruct (workers s !! w) as [ph|] eqn:Hw; [|left; unfold engine_step; by rewrite Hw].
  destruct (awaited ph e) eqn:Ha; [|left; by eapply engine_step_not_awaited].
  destruct ph as [c config key|c config fullText|c request| |],
    e as [[base64|message]|chunk_text|[|message|]|net|]; simpl in Ha; try done.
  - right; left. eexists _, c, _, _, _, _. split; [done|]. split; [done|].
    unfold engine_step. rewrite Hw. split.
    + eapply advances_ext; [apply adv_set_worker|].
      intros item. symmetry. apply spread_write_nothing.
    + solve_update_ok.
  - right; left. eexists _, c, _, _, _, _. split; [done|]. split; [done|].
    unfold engine_step. rewrite Hw. split; [apply adv_catch_error|]. solve_update_ok.
  - right; left. unfold engine_step. rewrite Hw.
    destruct (describe_chunk fullText chunk_text) as [fullText' [partialText|]].
    + eexists _, c, _, (Streaming c config fullText'), (set_prompt partialText), [].
      split; [done|]. split; [done|]. split.
      { split; try reflexivity. simpl. by rewrite app_nil_r. }
      solve_update_ok.
    + eexists _, c, _, _, _, _. split; [done|]. split; [done|]. split.
      * eapply advances_ext; [apply adv_set_worker|].
        intros item. symmetry. apply spread_write_nothing.
      * solve_update_ok.
  - right; left. unfold engine_step. rewrite Hw.
    destruct (resolveApiKey host (generationConfig (settings s))) as [key|] eqn:Hkey.
    + eexists _, c, _, _, _, _. split; [done|]. split; [done|].
      split; [by apply adv_begin_generation|]. solve_update_ok.
    + eexists _, c, _, _, _, _. split; [done|]. split; [done|].
      split; [by apply adv_begin_generation_no_key|]. solve_update_ok.
  - right; left. eexists _, c, _, _, _, _. split; [done|]. split; [done|].
    unfold engine_step. rewrite Hw. split; [apply adv_catch_error|]. solve_update_ok.
  - unfold engine_step. rewrite Hw.
    destruct (generation_try host (net request)) as [t [generatedImage|message]|] eqn:Htry.
    + right; left. eexists _, c, _, _, _, _. split; [done|]. split; [done|].
      split; [apply adv_complete_item|].
      pose proof (generation_try_resolved_nonempty _ _ _ Htry). solve_update_ok.
    + right; left. eexists _, c, _, _, _, _. split; [done|]. split; [done|].
      split; [apply adv_catch_error|]. solve_update_ok.
    + by left.
  - right; right. split; [done|]. split; [done|].
    unfold engine_step. rewrite Hw. unfold loop_head.
    destruct (findPendingIndex (items s)) as [i|] eqn:Hfind; [|by left].
    destruct (isProcessingRef s) eqn:Href; [|by left].
    apply findPendingIndex_Some in Hfind as (c & Hi & Hp & _). rewrite Hi.
    right. destruct (begin_item_shape w c s) as (ph' & u & new & Hadv & Hok).
    by exists i, c, ph', u, new.
Qed.

End Shape.

(** ** The running flags *)

Section Flags.

Variable host : Host.

(** The head of the loop leaves through [finally], or starts the item at the
    index it was given. *)
Lemma loop_head_shape w idx s :
  loop_head host w idx s = finish_queue host w s \/
  exists i c ph' u new,
    idx = Some i /\ isProcessingRef s = true /\ items s !! i = Some c /\
    advances w ph' (item_id c) (fun item => spread item u) new s (loop_head host w idx s) /\
    update_ok PENDING c ph' u.
Proof.
  unfold loop_head. destruct idx as [i|]; [|by left].
  destruct (isProcessingRef s) eqn:Href; [|by left].
  destruct (items s !! i) as [c|] eqn:Hi; [|by left].
  right. destruct (begin_item_shape host w c s) as (ph' & u & new & Hadv & Hok).
  by exists i, c, ph', u, new.
Qed.

(** A step that changes neither the flags nor the invocations. *)
Lemma flags_ok_same s s' :
  workers s' = workers s -> isProcessing s' = isProcessing s ->
  isProcessingRef s' = isProcessingRef s -> flags_ok s -> flags_ok s'.
Proof. unfold flags_ok. intros -> -> ->. done. Qed.

Lemma flags_ok_advances w ph' id g new s s' :
  advances w ph' id g new s s' -> w < length (workers s) -> ph' <> Exited ->
  isProcessing s = isProcessingRef s -> flags_ok s'.
Proof.
  intros Hadv Hlt Hph Hf. split.
  - rewrite (adv_ref _ _ _ _ _ _ _ Hadv), (adv_processing _ _ _ _ _ _ _ Hadv). done.
  - intros _. exists w, ph'. split; [|done]. by eapply advances_lookup.
Qed.

Lemma flags_ok_finish_queue w s : flags_ok (finish_queue host w s).
Proof. split; [reflexivity|]. intros H. discriminate H. Qed.

Lemma flags_ok_processQueue s : flags_ok s -> flags_ok (processQueue host s).
Proof.
  intros Hf. unfold processQueue. destruct (isProcessingRef s) eqn:Href; [done|].
  match goal with |- flags_ok (loop_head _ ?w ?idx ?s1) =>
    destruct (loop_head_shape w idx s1) as [->|(i & c & ph' & u & new & _ & _ & _ & Hadv & Hok)]
  end.
  - apply flags_ok_finish_queue.
  - eapply flags_ok_advances; [exact Hadv| |by destruct Hok|reflexivity].
    simpl. rewrite length_app. simpl. lia.
Qed.

Lemma flags_ok_engine_step w e s : flags_ok s -> flags_ok (engine_step host w e s).
Proof.
  intros Hf.
  destruct (engine_step_shape host w e s)
    as [->|[(ph & c & st & ph' & u & new & Hw & _ & Hadv & Hok)
           |(Hw & _ & [->|(i & c & ph' & u & new & _ & _ & _ & _ & Hadv & Hok)])]];
    [done| |apply flags_ok_finish_queue|].
  - eapply flags_ok_advances; [exact Hadv| |by destruct Hok|by destruct Hf].
    by eapply lookup_lt_Some.
  - eapply flags_ok_advances; [exact Hadv| |by destruct Hok|by destruct Hf].
    by eapply lookup_lt_Some.
Qed.

Lemma flags_ok_ui_step e s : flags_ok s -> flags_ok (ui_step host e s).
Proof.
  intros Hf. destruct e as [files|i|i| | | | | |newRatio|newSettings|]; simpl.
  - by apply (flags_ok_same s).
  - destruct (items s !! i) as [item|]; [|done].
    destruct (decide _); [|done]. by apply (flags_ok_same s).
  - destruct (items s !! i) as [item|]; [|done]. by apply (flags_ok_same s).
  - destruct (_ && _); [|done]. by apply flags_ok_processQueue.
  - destruct (_ && _); [|done]. split; [reflexivity|]. intros H. discriminate H.
  - destruct (_ && _); [|done]. unfold clearCompleted.
    destruct (isProcessing s); [done|]. by apply (flags_ok_same s).
  - destruct (_ && _); [|done]. unfold resetAll.
    destruct (isProcessing s); [done|]. by apply (flags_ok_same s).
  - destruct (_ && _); [|done]. unfold handleBatchDownload.
    destruct (filter _ _); by apply (flags_ok_same s).
  - by apply (flags_ok_same s).
  - by apply (flags_ok_same s).
  - by apply (flags_ok_same s).
Qed.

Lemma flags_ok_reachable s : reachable host s -> flags_ok s.
Proof.
  induction 1 as [|s e _ IH]; [split; [reflexivity|intros H; discriminate H]|].
  destruct e as [e|w e]; [by apply flags_ok_ui_step|by apply flags_ok_engine_step].
Qed.

(** X1. In every state the page can be in, the state flag [isProcessing]
    and the reference [isProcessingRef] agree, and while they are up some
    invocation of [processQueue] has not yet run its [finally] block: the
    page never shows the queue as running when no loop is left to end it. *)
Theorem running_flags_agree (s : State) :
  reachable host s ->
  isProcessing s = isProcessingRef s /\
  (isProcessing s = true ->
   exists w ph, workers s !! w = Some ph /\ ph <> Exited).
Proof.
  intros Hr. destruct (flags_ok_reachable s Hr) as [Heq Hw].
  split; [done|]. rewrite Heq. exact Hw.
Qed.

End Flags.

Lemma running_flags_agree_witness :
  isProcessing sample_analyzing = isProcessingRef sample_analyzing /\
  (isProcessing sample_analyzing = true ->
   exists w ph, workers sample_analyzing !! w = Some ph /\ ph <> Exited).
Proof. apply (running_flags_agree sample_host), sample_analyzing_reachable. Defined.

(** ** What a step changes *)

Section Changes.

Variable host : Host.

Lemma changes_loop_head user ws w ph idx s0 s :
  ws = workers s0 \/ ws = workers s0 ++ [Exited] ->
  workers s = ws -> items s = items s0 ->
  ws !! w = Some ph -> current ph = None ->
  idx = findPendingIndex (items s) ->
  changes host user s0 (loop_head host w idx s).
Proof.
  intros Hws Hw Hi Hph Hc ->.
  destruct (loop_head_shape host w (findPendingIndex (items s)) s)
    as [->|(i & c & ph' & u & new & Hfind & _ & Hic & Hadv & Hok)].
  - eapply changes_finish; [exact Hws|exact Hph|exact Hc|exact Hi|]. by rewrite <- Hw.
  - apply findPendingIndex_Some in Hfind as (c' & Hic' & Hp & _).
    assert (c' = c) as -> by congruence.
    eapply (changes_work _ _ _ _ ws w ph c PENDING ph' u); [exact Hws|exact Hph| | | |exact Hok].
    + right. split; [done|]. split; [done|]. split; [|done].
      rewrite <- Hi. by eapply list_elem_of_lookup_2.
    + rewrite (adv_items _ _ _ _ _ _ _ Hadv). by rewrite Hi.
    + rewrite (adv_workers _ _ _ _ _ _ _ Hadv). by rewrite Hw.
Qed.

Lemma changes_engine_step user w e s : changes host user s (engine_step host w e s).
Proof.
  destruct (workers s !! w) as [ph|] eqn:Hw;
    [|apply changes_same; unfold engine_step; by rewrite Hw].
  destruct (engine_step_shape host w e s)
    as [->|[(ph0 & c & st & ph' & u & new & Hw0 & Hc & Hadv & Hok)|(Hw0 & -> & _)]].
  - by apply changes_same.
  - eapply (changes_work _ _ _ _ (workers s) w ph0 c st ph' u);
      [by left|done|by left| | |done].
    + apply (adv_items _ _ _ _ _ _ _ Hadv).
    + apply (adv_workers _ _ _ _ _ _ _ Hadv).
  - unfold engine_step. rewrite Hw0.
    by eapply (changes_loop_head _ (workers s) w Pacing); [by left|..].
Qed.

Lemma changes_processQueue user s : changes host user s (processQueue host s).
Proof.
  unfold processQueue. destruct (isProcessingRef s); [by apply changes_same|].
  eapply (changes_loop_head _ (workers s ++ [Exited]) (length (workers s)) Exited);
    [by right|reflexivity|reflexivity| |reflexivity|reflexivity].
  by rewrite lookup_app_r, Nat.sub_diag.
Qed.

Lemma changes_ui_step e s : changes host true s (ui_step host e s).
Proof.
  destruct e as [files|i|i| | | | | |newRatio|newSettings|]; simpl.
  - by apply (changes_add _ _ _ _ files).
  - destruct (items s !! i) as [item|] eqn:Hi; [|by apply changes_same].
    destruct (decide _) as [He|]; [|by apply changes_same].
    by eapply (changes_retry _ _ _ _ i item).
  - destruct (items s !! i) as [item|]; [|by apply changes_same].
    apply changes_sublist; [done| |done]. apply sublist_filter.
  - destruct (_ && _); [|by apply changes_same]. apply changes_processQueue.
  - destruct (_ && _); by apply changes_same.
  - destruct (_ && _); [|by apply changes_same]. unfold clearCompleted.
    destruct (isProcessing s); [by apply changes_same|].
    apply changes_sublist; [done| |done]. apply sublist_filter.
  - destruct (_ && _); [|by apply changes_same]. unfold resetAll.
    destruct (isProcessing s); [by apply changes_same|].
    apply changes_sublist; [done| |done]. apply sublist_nil_l.
  - destruct (_ && _); [|by apply changes_same]. unfold handleBatchDownload.
    destruct (filter _ _); by apply changes_same.
  - by apply changes_same.
  - by apply changes_same.
  - by apply changes_same.
Qed.

Lemma changes_step e s : changes host (by_user e) s (step host e s).
Proof. destruct e; [apply changes_ui_step|apply changes_engine_step]. Qed.

End Changes.

(** ** Items under work *)

Section Attended.

Variable host : Host.

Lemma changes_old_worker s ws w0 ph0 :
  ws = workers s \/ ws = workers s ++ [Exited] ->
  workers s !! w0 = Some ph0 -> ws !! w0 = Some ph0.
Proof. intros [->| ->] Hw0; [done|]. by apply lookup_app_l_Some. Qed.

Lemma attended_weaken s s' :
  attended s ->
  (forall item', item' ∈ items s' -> active item' ->
     exists item, item ∈ items s /\ active item /\ item_id item = item_id item') ->
  (forall w ph c st, workers s !! w = Some ph -> current ph = Some (c, st) ->
     workers s' !! w = Some ph) ->
  attended s'.
Proof.
  intros Hatt Hitems Hkeep item' Hin' Hact.
  destruct (Hitems item' Hin' Hact) as (item & Hin & Ha & Hid).
  destruct (Hatt item Hin Ha) as (w & ph & c & st & Hw & Hc & Hidc).
  exists w, ph, c, st. split; [by eapply Hkeep|]. split; [done|]. congruence.
Qed.

Lemma attended_changes user s s' : changes host user s s' -> attended s -> attended s'.
Proof.
  intros Hch Hatt.
  destruct Hch as [Hi Hw|_ Hsub Hw|files _ Hi Hw|i item _ Hi He Hit Hw
                  |ws w ph c st ph' u Hor Hph Hc Hi Hw Hok|ws w ph Hor Hph Hc Hi Hw].
  - apply (attended_weaken s); [done| |intros; by rewrite Hw].
    intros item' Hin' Ha. exists item'. by rewrite <- Hi.
  - apply (attended_weaken s); [done| |intros; by rewrite Hw].
    intros item' Hin' Ha. exists item'. split; [|done].
    eapply elem_of_submseteq; [exact Hin'|]. by apply sublist_submseteq.
  - apply (attended_weaken s); [done| |intros; by rewrite Hw].
    intros item' Hin' Ha. rewrite Hi in Hin'. apply elem_of_app in Hin' as [Hin'|Hin'].
    + by exists item'.
    + apply newItems_elem in Hin' as (_ & Hst & _). destruct Ha; congruence.
  - apply (attended_weaken s); [done| |intros; by rewrite Hw].
    intros item' Hin' Ha. rewrite Hit in Hin'.
    apply elem_of_update_id in Hin' as (item0 & Hin0 & [[_ ->]|[_ ->]]).
    + destruct Ha as [Ha|Ha]; discriminate Ha.
    + by exists item0.
  - intros item' Hin' Ha. rewrite Hi in Hin'.
    apply elem_of_update_id in Hin' as (item0 & Hin0 & [[Hid ->]|[Hid ->]]).
    + destruct (current ph') as [[c' st']|] eqn:Hc'.
      * destruct (uo_current _ _ _ _ Hok c' st' Hc') as [-> _].
        exists w, ph', c, st'. split; [|done].
        rewrite Hw. apply list_lookup_insert_eq. by eapply lookup_lt_Some.
      * exfalso. destruct (uo_over _ _ _ _ Hok Hc') as [Hs|Hs], Ha as [Ha|Ha];
          simpl in Ha; rewrite Hs in Ha; discriminate Ha.
    + destruct (Hatt item0 Hin0 Ha) as (w0 & ph0 & c0 & st0 & Hw0 & Hc0 & Hid0).
      exists w0, ph0, c0, st0. split; [|done].
      pose proof (changes_old_worker _ _ _ _ Hor Hw0) as Hws.
      destruct (decide (w0 = w)) as [->|Hne].
      * exfalso. rewrite Hws in Hph. injection Hph as <-.
        destruct Hc as [Hc|[Hc _]]; congruence.
      * by rewrite Hw, list_lookup_insert_ne.
  - apply (attended_weaken s); [done|intros item' Hin' Ha; exists item'; by rewrite <- Hi|].
    intros w0 ph0 c0 st0 Hw0 Hc0.
    pose proof (changes_old_worker _ _ _ _ Hor Hw0) as Hws.
    destruct (decide (w0 = w)) as [->|Hne]; [congruence|].
    by rewrite Hw, list_lookup_insert_ne.
Qed.

(** X2. In every state the page can be in, an item shown as being analysed
    or generated has an invocation of [processQueue] in flight on an item of
    its id: no item is left in a working status with no loop to end it. *)
Theorem active_item_attended (s : State) (item : WorkItem) :
  reachable host s -> item ∈ items s ->
  item_status item = ANALYZING \/ item_status item = GENERATING ->
  exists w ph c st,
    workers s !! w = Some ph /\ current ph = Some (c, st) /\ item_id c = item_id item.
Proof.
  intros Hr. revert item. change (attended s).
  induction Hr as [|s e _ IH]; [intros item Hin; by apply elem_of_nil in Hin|].
  eapply attended_changes; [apply changes_step|exact IH].
Qed.

End Attended.

Lemma active_item_attended_witness :
  exists w ph c st,
    workers sample_analyzing !! w = Some ph /\ current ph = Some (c, st) /\
    item_id c = "1".
Proof.
  apply (active_item_attended sample_host sample_analyzing
           (spread (sample_item "1" "a.png") set_analyzing)).
  - apply sample_analyzing_reachable.
  - vm_compute. left.
  - by left.
Defined.

(** ** Stored results and messages *)

Section Filled.

Variable host : Host.

Lemma filled_changes user s s' :
  changes host user s s' ->
  (forall item, item ∈ items s -> filled item) ->
  forall item, item ∈ items s' -> filled item.
Proof.
  intros Hch Hf item' Hin'.
  destruct Hch as [Hi Hw|_ Hsub Hw|files _ Hi Hw|i item _ Hi He Hit Hw
                  |ws w ph c st ph' u Hor Hph Hc Hi Hw Hok|ws w ph Hor Hph Hc Hi Hw].
  - apply Hf. by rewrite <- Hi.
  - apply Hf. eapply elem_of_submseteq; [exact Hin'|]. by apply sublist_submseteq.
  - rewrite Hi in Hin'. apply elem_of_app in Hin' as [Hin'|Hin']; [by apply Hf|].
    apply newItems_elem in Hin' as (_ & _ & Hurl & Herr).
    split; intros x Hx; congruence.
  - rewrite Hit in Hin'.
    apply elem_of_update_id in Hin' as (item0 & Hin0 & [[_ ->]|[_ ->]]); [|by apply Hf].
    split; intros x Hx; discriminate Hx.
  - rewrite Hi in Hin'.
    apply elem_of_update_id in Hin' as (item0 & Hin0 & [[_ ->]|[_ ->]]); [|by apply Hf].
    destruct (Hf item0 Hin0) as [Hurl Herr]. split; intros x; simpl.
    + destruct (uo_result _ _ _ _ Hok) as [->|(url & -> & Hne & _)]; [apply Hurl|].
      by intros [= <-].
    + destruct (uo_error _ _ _ _ Hok) as [->|(msg & -> & Hne & _)]; [apply Herr|].
      by intros [= <-].
  - apply Hf. by rewrite <- Hi.
Qed.

Lemma filled_reachable s : reachable host s -> forall item, item ∈ items s -> filled item.
Proof.
  induction 1 as [|s e _ IH]; [intros item Hin; by apply elem_of_nil in Hin|].
  eapply filled_changes; [apply changes_step|exact IH].
Qed.

(** X3. In every state the page can be in, a result stored in an item is not
    the empty string and neither is a stored error message: the tests
    [item.generatedImageUrl] and [item.error] of the views are true exactly
    when the field is set. *)
Theorem stored_values_nonempty (s : State) (item : WorkItem) :
  reachable host s -> item ∈ items s ->
  (forall url, generatedImageUrl item = Some url -> url <> EmptyString) /\
  (forall msg, item_error item = Some msg -> msg <> EmptyString).
Proof. intros Hr Hin. by apply (filled_reachable s Hr item Hin). Qed.

End Filled.

Lemma stored_values_nonempty_witness :
  (forall url, Some "http://img/1" = Some url -> url <> EmptyString) /\
  (forall msg, @None string = Some msg -> msg <> EmptyString).
Proof.
  apply (stored_values_nonempty sample_host sample_finished
           (spread (spread (sample_item "1" "a.png") (set_generating "a cat"))
              (set_completed "http://img/1"))).
  - apply sample_finished_reachable.
  - vm_compute. left.
Defined.

(** ** What the driver loop never does *)

Section LoopFrame.

Variable host : Host.

Lemma update_id_keeps {A} (f : WorkItem -> A) id g l :
  (forall item, f (g item) = f item) -> f <$> update_id id g l = f <$> l.
Proof.
  intros Hg. unfold update_id. rewrite <- list_fmap_compose. apply list_fmap_ext.
  intros i item _. simpl. by destruct (decide _).
Qed.

Lemma engine_step_keeps {A} (f : WorkItem -> A) w e s :
  (forall item u, p_progressLog u = None -> f (spread item u) = f item) ->
  f <$> items (engine_step host w e s) = f <$> items s.
Proof.
  intros Hf.
  destruct (changes_engine_step host false w e s)
    as [Hi Hw|Hu|files Hu|i item Hu|ws w0 ph c st ph' u Hor Hph Hc Hi Hw Hok
       |ws w0 ph Hor Hph Hc Hi Hw]; try done.
  - by rewrite Hi.
  - rewrite Hi. apply update_id_keeps. intros item. apply Hf, (uo_progressLog _ _ _ _ Hok).
  - by rewrite Hi.
Qed.

(** X4. Whatever the invocations of [processQueue] receive, in any order
    and from any state, they neither add, remove nor reorder items, and they
    never write the id, the file, the preview URL or the [progressLog] of an
    item: these four fields of every position stay as they were. *)
Theorem loop_keeps_identity (es : list (nat * EngineEvent)) (s : State) :
  identity <$> items (run_engine host es s) = identity <$> items s /\
  progressLog <$> items (run_engine host es s) = progressLog <$> items s /\
  length (items (run_engine host es s)) = length (items s).
Proof.
  assert (H : forall {A} (f : WorkItem -> A),
             (forall item u, p_progressLog u = None -> f (spread item u) = f item) ->
             f <$> items (run_engine host es s) = f <$> items s).
  { intros A f Hf. revert s. induction es as [|[w e] es IH]; intros s; [done|].
    simpl. rewrite IH. by apply engine_step_keeps. }
  assert (Hid : identity <$> items (run_engine host es s) = identity <$> items s).
  { apply H. intros item u _. reflexivity. }
  split; [exact Hid|]. split.
  - apply H. intros item u Hu. simpl. by rewrite Hu.
  - by rewrite <- (length_fmap identity), Hid, length_fmap.
Qed.

End LoopFrame.

(** ** The life cycle of an item *)

Section Lifecycle.

Variable host : Host.
Hypothesis random_id_inj : Inj (=) (=) (random_id host).

Lemma changes_inflight s ws w ph c st :
  ws = workers s \/ ws = workers s ++ [Exited] ->
  ws !! w = Some ph -> current ph = Some (c, st) -> workers s !! w = Some ph.
Proof.
  intros [->| ->] Hph Hc; [done|].
  apply lookup_app_Some in Hph as [Hph|[_ Hph]]; [done|].
  apply list_elem_of_lookup_2, list_elem_of_singleton in Hph as ->. discriminate Hc.
Qed.

Lemma lifecycle_changes user s s' item item' :
  Inv host s -> changes host user s s' ->
  item ∈ items s -> item' ∈ items s' -> item_id item' = item_id item ->
  item' = item \/
  (active item /\ item_status item' = item_status item /\
   generatedImageUrl item' = generatedImageUrl item /\ item_error item' = item_error item /\
   progressLog item' = progressLog item) \/
  transition (item_status item) (item_status item') = true \/
  (user = true /\ item_status item = ERROR /\ item' = spread item set_retry).
Proof.
  intros HI Hch Hin Hin' Hid.
  pose proof (inv_nodup _ _ HI) as Hnd.
  destruct Hch as [Hi Hw|_ Hsub Hw|files _ Hi Hw|i itemE Hu Hi He Hit Hw
                  |ws w ph c st ph' u Hor Hph Hc Hi Hw Hok|ws w ph Hor Hph Hc Hi Hw].
  - left. rewrite Hi in Hin'. by eapply NoDup_ids_eq.
  - left. eapply NoDup_ids_eq; [exact Hnd| |exact Hin|exact Hid].
    eapply elem_of_submseteq; [exact Hin'|]. by apply sublist_submseteq.
  - left. rewrite Hi in Hin'. apply elem_of_app in Hin' as [Hin'|Hin'].
    + by eapply NoDup_ids_eq.
    + exfalso. apply newItems_elem in Hin' as ((k & Hk & Hidk) & _).
      destruct (inv_issued _ _ HI item Hin) as (k0 & Hk0 & Hid0).
      assert (k = k0) by (apply random_id_inj; congruence). lia.
  - rewrite Hit in Hin'.
    apply elem_of_update_id in Hin' as (item0 & Hin0 & [[Hid0 ->]|[Hid0 ->]]).
    + assert (item0 = item) as -> by (by eapply NoDup_ids_eq).
      assert (item = itemE) as ->.
      { eapply NoDup_ids_eq; [exact Hnd|exact Hin| |done]. by eapply list_elem_of_lookup_2. }
      right; right; right. done.
    + left. by eapply NoDup_ids_eq.
  - rewrite Hi in Hin'.
    apply elem_of_update_id in Hin' as (item0 & Hin0 & [[Hid0 ->]|[Hid0 ->]]);
      [|left; by eapply NoDup_ids_eq].
    assert (item0 = item) as -> by (by eapply NoDup_ids_eq).
    assert (Hst : item_status item = st).
    { destruct Hc as [Hc|(_ & -> & Hcin & Hp)].
      - pose proof (changes_inflight _ _ _ _ _ _ Hor Hph Hc) as Hw0.
        by apply (inv_current _ _ HI w ph c st Hw0 Hc).
      - assert (item = c) as -> by (by eapply NoDup_ids_eq). done. }
    right. destruct (uo_status _ _ _ _ Hok) as [Hs|(st' & Hs & Ht)].
    + left. destruct (current ph') as [[c' st']|] eqn:Hc'.
      * destruct (uo_current _ _ _ _ Hok c' st' Hc') as [_ Hd]. rewrite Hs in Hd. simpl in Hd.
        split; [unfold active; rewrite Hst, Hd; by eapply current_status|].
        simpl. rewrite Hs, (uo_progressLog _ _ _ _ Hok).
        destruct (uo_result _ _ _ _ Hok) as [->|(? & _ & _ & ?)]; [|congruence].
        destruct (uo_error _ _ _ _ Hok) as [->|(? & _ & _ & ?)]; [|congruence].
        done.
      * destruct (uo_over _ _ _ _ Hok Hc'); congruence.
    + right; left. simpl. rewrite Hs, Hst. exact Ht.
  - left. rewrite Hi in Hin'. by eapply NoDup_ids_eq.
Qed.

(** X5. The life cycle of an item, over every step of the page from a state
    it can be in (the ids of [generateId] taken pairwise different).  The
    item of a given id after the step is the one before, or it is an item
    under work of which the step changed at most the description, or its
    status moved along [PENDING] to [ANALYZING] to [GENERATING] to
    [COMPLETED] or from one of the first three to [ERROR], or it was a failed
    item and the user's retry reset it.  A completed item is never written
    again. *)
Theorem status_lifecycle (s : State) (e : Event) (item item' : WorkItem) :
  reachable host s ->
  item ∈ items s -> item' ∈ items (step host e s) -> item_id item' = item_id item ->
  (item' = item \/
   (active item /\ item_status item' = item_status item /\
    generatedImageUrl item' = generatedImageUrl item /\ item_error item' = item_error item /\
    progressLog item' = progressLog item) \/
   transition (item_status item) (item_status item') = true \/
   (by_user e = true /\ item_status item = ERROR /\ item' = spread item set_retry)) /\
  (item_status item = COMPLETED -> item' = item).
Proof.
  intros Hr Hin Hin' Hid.
  pose proof (lifecycle_changes _ _ _ _ _ (Inv_reachable host random_id_inj s Hr)
                (changes_step host e s) Hin Hin' Hid) as H.
  split; [exact H|]. intros Hc.
  destruct H as [H|[([Ha|Ha] & _)|[H|(_ & H & _)]]]; [done|congruence|congruence| |congruence].
  rewrite Hc in H. discriminate H.
Qed.

End Lifecycle.

Lemma status_lifecycle_witness :
  (sample_item_generating = sample_item_analyzing \/
   (active sample_item_analyzing /\
    item_status sample_item_generating = item_status sample_item_analyzing /\
    generatedImageUrl sample_item_generating = generatedImageUrl sample_item_analyzing /\
    item_error sample_item_generating = item_error sample_item_analyzing /\
    progressLog sample_item_generating = progressLog sample_item_analyzing) \/
   transition (item_status sample_item_analyzing) (item_status sample_item_generating) = true \/
   (by_user (Engine 0 (SdkEnds EndOfStream)) = true /\
    item_status sample_item_analyzing = ERROR /\
    sample_item_generating = spread sample_item_analyzing set_retry)) /\
  (item_status sample_item_analyzing = COMPLETED ->
   sample_item_generating = sample_item_analyzing).
Proof.
  apply (status_lifecycle sample_host pretty_nat_inj sample_analyzing).
  - apply sample_analyzing_reachable.
  - vm_compute. left.
  - vm_compute. left.
  - reflexivity.
Defined.

(** ** One item at a time *)

Section OneItem.

Variable host : Host.
Hypothesis random_id_inj : Inj (=) (=) (random_id host).

Lemma NoDup_ids_lookup (l : list WorkItem) i j a b :
  NoDup (item_id <$> l) -> l !! i = Some a -> l !! j = Some b -> item_id a = item_id b -> i = j.
Proof.
  intros Hnd Hi Hj Hid. eapply NoDup_lookup; [exact Hnd| |].
  - rewrite list_lookup_fmap, Hi. reflexivity.
  - rewrite list_lookup_fmap, Hj. simpl. by rewrite Hid.
Qed.

Lemma update_id_insert id g (l : list WorkItem) i item :
  NoDup (item_id <$> l) -> l !! i = Some item -> item_id item = id ->
  update_id id g l = <[i := g item]> l.
Proof.
  intros Hnd Hi Hid. apply list_eq. intros j. rewrite update_id_lookup.
  destruct (decide (j = i)) as [->|Hne].
  - rewrite Hi, list_lookup_insert_eq by (by eapply lookup_lt_Some).
    simpl. by rewrite decide_True.
  - rewrite list_lookup_insert_ne by done.
    destruct (l !! j) as [x|] eqn:Hj; [|done]. simpl.
    destruct (decide _) as [Hx|]; [|done].
    destruct Hne. eapply NoDup_ids_lookup; [exact Hnd|exact Hj|exact Hi|congruence].
Qed.

Lemma update_id_changed id g (l : list WorkItem) i :
  update_id id g l !! i <> l !! i -> exists item, l !! i = Some item /\ item_id item = id.
Proof.
  rewrite update_id_lookup. destruct (l !! i) as [x|]; [|done]. simpl.
  destruct (decide _); [|done]. intros _. by exists x.
Qed.

Lemma filter_all {A} (P : A -> Prop) `{!forall x, Decision (P x)} (l : list A) :
  Forall P l -> filter P l = l.
Proof.
  induction 1 as [|x l Hx _ IH]; [done|]. rewrite filter_cons_True by done. by rewrite IH.
Qed.

Lemma filter_ids_delete (l : list WorkItem) : forall i item,
  NoDup (item_id <$> l) -> l !! i = Some item ->
  filter (fun x => item_id x <> item_id item) l = delete i l.
Proof.
  induction l as [|a l IH]; intros i item Hnd Hi; [done|].
  rewrite fmap_cons in Hnd. apply NoDup_cons in Hnd as [Ha Hnd].
  destruct i as [|i]; simpl in Hi.
  - injection Hi as ->. rewrite filter_cons_False by (intros H; by apply H).
    simpl. apply filter_all, Forall_forall. intros x Hx Heq.
    apply Ha. rewrite <- Heq. apply list_elem_of_fmap. by exists x.
  - rewrite filter_cons_True.
    + simpl. f_equal. by apply IH.
    + intros Heq. apply Ha. rewrite Heq. apply list_elem_of_fmap. exists item.
      split; [done|]. by eapply list_elem_of_lookup_2.
Qed.

(** X6. In a state the page can be in (the ids of [generateId] taken
    pairwise different), the remove control of the item at position [i]
    takes out that position and nothing else, and the retry control of a
    failed item resets that position and nothing else; on an item that has
    not failed there is no retry control and the click changes nothing. *)
Theorem click_acts_on_one_item (s : State) (i : nat) (item : WorkItem) :
  reachable host s -> items s !! i = Some item ->
  items (ui_step host (ClickRemove i) s) = delete i (items s) /\
  (item_status item = ERROR ->
   items (ui_step host (ClickRetry i) s) = <[i := spread item set_retry]> (items s)) /\
  (item_status item <> ERROR -> ui_step host (ClickRetry i) s = s).
Proof.
  intros Hr Hi. pose proof (inv_nodup _ _ (Inv_reachable host random_id_inj s Hr)) as Hnd.
  simpl. rewrite Hi. split; [|split].
  - rewrite handleRemoveItem_items. by apply filter_ids_delete.
  - intros He. rewrite decide_True by done.
    rewrite handleRetryItem_items, updateItem_items.
    by apply (update_id_insert (item_id item) (fun item => spread item set_retry)).
  - intros He. by rewrite decide_False.
Qed.

(** X7. In a state the page can be in (ids pairwise different), a step of
    invocation [w] of [processQueue] writes to at most one position of the
    store: the one that holds the item the invocation has in flight, found in
    the status the invocation left it in, or, at the head of the loop, the
    first pending position.  Every other position is as before. *)
Theorem loop_step_writes_own_item (s : State) (w : nat) (e : EngineEvent) (i : nat) :
  reachable host s ->
  items (engine_step host w e s) !! i <> items s !! i ->
  (exists item, items s !! i = Some item /\
     ((exists ph c st, workers s !! w = Some ph /\ current ph = Some (c, st) /\
                       item_id c = item_id item /\ item_status item = st) \/
      (workers s !! w = Some Pacing /\ e = DelayElapsed /\
       findPendingIndex (items s) = Some i))) /\
  (forall j, items (engine_step host w e s) !! j <> items s !! j -> j = i).
Proof.
  intros Hr Hne. pose proof (Inv_reachable host random_id_inj s Hr) as HI.
  pose proof (inv_nodup _ _ HI) as Hnd.
  assert (Hone : forall id g, items (engine_step host w e s) = update_id id g (items s) ->
            (exists item, items s !! i = Some item /\ item_id item = id) /\
            forall j, items (engine_step host w e s) !! j <> items s !! j -> j = i).
  { intros id g Heq. rewrite Heq in Hne.
    destruct (update_id_changed _ _ _ _ Hne) as (item & Hi & Hid).
    split; [by exists item|]. intros j Hj. rewrite Heq in Hj.
    destruct (update_id_changed _ _ _ _ Hj) as (item' & Hj' & Hid').
    eapply NoDup_ids_lookup; [exact Hnd|exact Hj'|exact Hi|congruence]. }
  destruct (engine_step_shape host w e s)
    as [Heq|[(ph & c & st & ph' & u & new & Hw & Hc & Hadv & Hok)
            |(Hw & -> & [Heq|(k & c & ph' & u & new & _ & Hfind & Hk & Hp & Hadv & Hok)])]].
  - rewrite Heq in Hne. done.
  - destruct (Hone _ _ (adv_items _ _ _ _ _ _ _ Hadv)) as [(item & Hi & Hid) Huniq].
    split; [|exact Huniq]. exists item. split; [done|]. left.
    exists ph, c, st. split; [done|]. split; [done|]. split; [done|].
    apply (inv_current _ _ HI w ph c st Hw Hc); [|done]. by eapply list_elem_of_lookup_2.
  - rewrite Heq in Hne. done.
  - destruct (Hone _ _ (adv_items _ _ _ _ _ _ _ Hadv)) as [(item & Hi & Hid) Huniq].
    split; [|exact Huniq]. exists item. split; [done|]. right.
    split; [done|]. split; [done|].
    assert (i = k) as -> by (eapply NoDup_ids_lookup; [exact Hnd|exact Hi|exact Hk|done]).
    done.
Qed.

End OneItem.

Lemma click_acts_on_one_item_witness :
  items (ui_step sample_host (ClickRemove 1) sample_finished)
  = delete 1 (items sample_finished).
Proof.
  apply (click_acts_on_one_item sample_host pretty_nat_inj sample_finished 1
           (spread (spread (sample_item "2" "b.png") set_analyzing)
              (set_error "Analysis failed: 503 overloaded"))).
  - apply sample_finished_reachable.
  - vm_compute. reflexivity.
Defined.

Lemma loop_step_writes_own_item_witness :
  reachable sample_host sample_analyzing /\
  (forall j,
     items (engine_step sample_host 0 (SdkChunk (Some "a cat")) sample_analyzing) !! j
     <> items sample_analyzing !! j -> j = 0).
Proof.
  split; [apply sample_analyzing_reachable|].
  apply (loop_step_writes_own_item sample_host pretty_nat_inj sample_analyzing 0
           (SdkChunk (Some "a cat")) 0).
  - apply sample_analyzing_reachable.
  - vm_compute. intros H. discriminate H.
Defined.

(** ** The counters of the footer *)

Section Stats.

Variable host : Host.

Lemma count_status_cons st item l :
  count_status st (item :: l)
  = (if decide (item_status item = st) then 1 else 0) + count_status st l.
Proof.
  unfold count_status. destruct (decide _) as [H|H].
  - by rewrite filter_cons_True.
  - by rewrite filter_cons_False.
Qed.

Lemma count_status_app st l1 l2 :
  count_status st (l1 ++ l2) = count_status st l1 + count_status st l2.
Proof. unfold count_status. by rewrite filter_app, length_app. Qed.

Lemma count_status_total l :
  length l = count_status PENDING l + count_status ANALYZING l + count_status GENERATING l
             + count_status COMPLETED l + count_status ERROR l.
Proof.
  induction l as [|item l IH]; [done|]. rewrite !count_status_cons. simpl. rewrite IH.
  destruct (item_status item); simpl; lia.
Qed.

Lemma stats_fold acc l :
  let r := foldl (fun acc item =>
    {| total := S (total acc);
       completed := if decide (item_status item = COMPLETED) then S (completed acc) else completed acc;
       failed := if decide (item_status item = ERROR) then S (failed acc) else failed acc;
       pending := if decide (item_status item = PENDING) then S (pending acc) else pending acc |})
    acc l in
  total r = total acc + length l /\
  completed r = completed acc + count_status COMPLETED l /\
  failed r = failed acc + count_status ERROR l /\
  pending r = pending acc + count_status PENDING l.
Proof.
  revert acc. induction l as [|item l IH]; intros acc; simpl.
  - unfold count_status. simpl. lia.
  - destruct (IH {| total := S (total acc);
       completed := if decide (item_status item = COMPLETED) then S (completed acc) else completed acc;
       failed := if decide (item_status item = ERROR) then S (failed acc) else failed acc;
       pending := if decide (item_status item = PENDING) then S (pending acc) else pending acc |})
      as (Ht & Hc & Hf & Hp).
    rewrite Ht, Hc, Hf, Hp, !count_status_cons. simpl.
    repeat destruct (decide _); lia.
Qed.

Lemma stats_fields s :
  total (stats s) = length (items s) /\
  completed (stats s) = count_status COMPLETED (items s) /\
  failed (stats s) = count_status ERROR (items s) /\
  pending (stats s) = count_status PENDING (items s).
Proof. apply (stats_fold {| total := 0; completed := 0; failed := 0; pending := 0 |}). Qed.

(** X8. The counters [stats] computes are the number of items, of completed
    items, of failed items and of pending items of the store; the items
    counted by none of the last three are the ones under work, so the
    counters add up to the total exactly when no item is being analysed or
    generated. *)
Theorem stats_counts (s : State) :
  total (stats s) = length (items s) /\
  completed (stats s) = count_status COMPLETED (items s) /\
  failed (stats s) = count_status ERROR (items s) /\
  pending (stats s) = count_status PENDING (items s) /\
  total (stats s)
  = pending (stats s) + completed (stats s) + failed (stats s)
    + count_status ANALYZING (items s) + count_status GENERATING (items s).
Proof.
  destruct (stats_fields s) as (Ht & Hc & Hf & Hp).
  repeat split; try done. rewrite Ht, Hc, Hf, Hp, (count_status_total (items s)). lia.
Qed.

Lemma stats_eq (a b : ProcessingStats) :
  total a = total b -> completed a = completed b -> failed a = failed b ->
  pending a = pending b -> a = b.
Proof. destruct a, b; simpl; congruence. Qed.

Lemma count_status_newItems st n files :
  count_status st (newItems host n files) = if decide (st = PENDING) then length files else 0.
Proof.
  revert n. induction files as [|f files IH]; intros n; simpl.
  - by destruct (decide _).
  - rewrite count_status_cons, IH. simpl. destruct st; done.
Qed.

Lemma count_status_cleared st l :
  count_status st
    (filter (fun item => item_status item <> COMPLETED /\ item_status item <> ERROR) l)
  = if decide (st = COMPLETED \/ st = ERROR) then 0 else count_status st l.
Proof.
  induction l as [|item l IH]; [by destruct (decide _)|].
  destruct (decide (item_status item <> COMPLETED /\ item_status item <> ERROR)) as [H|H].
  - rewrite filter_cons_True by done. rewrite !count_status_cons, IH.
    destruct (decide (st = COMPLETED \/ st = ERROR)) as [[->| ->]|]; [| |done].
    + rewrite decide_False; [done|tauto].
    + rewrite decide_False; [done|tauto].
  - rewrite filter_cons_False by done. rewrite count_status_cons, IH.
    destruct (decide (st = COMPLETED \/ st = ERROR)) as [|Hn]; [done|].
    rewrite decide_False; [done|]. intros Heq. apply H.
    split; intros He; apply Hn; [left|right]; congruence.
Qed.

(** X9. How the commands of the user move the counters.  Adding files adds
    their number to the total and to the pending count.  On an idle page,
    clearing leaves no completed and no failed item and the pending count as
    it was, and a reset leaves all four counters at zero. *)
Theorem stats_follow_commands (s : State) :
  (forall files,
     stats (handleFilesSelected host files s)
     = {| total := total (stats s) + length files; completed := completed (stats s);
          failed := failed (stats s); pending := pending (stats s) + length files |}) /\
  (isProcessing s = false ->
   stats (clearCompleted host s)
   = {| total := total (stats s) - completed (stats s) - failed (stats s);
        completed := 0; failed := 0; pending := pending (stats s) |}) /\
  (isProcessing s = false ->
   stats (resetAll host s) = {| total := 0; completed := 0; failed := 0; pending := 0 |}).
Proof.
  destruct (stats_fields s) as (Ht & Hc & Hf & Hp). split; [|split].
  - intros files.
    destruct (stats_fields (handleFilesSelected host files s)) as (Ht' & Hc' & Hf' & Hp').
    rewrite handleFilesSelected_items in Ht', Hc', Hf', Hp'.
    rewrite count_status_app, count_status_newItems in Hc', Hf', Hp'.
    rewrite length_app, newItems_length in Ht'. simpl in Hc', Hf', Hp'.
    apply stats_eq; simpl; lia.
  - intros Hidle. unfold clearCompleted. rewrite Hidle.
    match goal with |- stats ?s' = _ => destruct (stats_fields s') as (Ht' & Hc' & Hf' & Hp') end.
    change (items _) with
      (filter (fun item => item_status item <> COMPLETED /\ item_status item <> ERROR) (items s))
      in Ht', Hc', Hf', Hp'.
    rewrite count_status_cleared in Hc', Hf', Hp'. simpl in Hc', Hf', Hp'.
    pose proof (count_status_total (items s)) as Hall.
    pose proof (count_status_total
      (filter (fun item => item_status item <> COMPLETED /\ item_status item <> ERROR) (items s)))
      as Hall'.
    rewrite !count_status_cleared in Hall'. simpl in Hall'.
    apply stats_eq; simpl; lia.
  - intros Hidle. unfold resetAll. rewrite Hidle. reflexivity.
Qed.

End Stats.

(** ** Starting the queue *)

Section Start.

Variable host : Host.
Hypothesis random_id_inj : Inj (=) (=) (random_id host).

Lemma count_status_zero st l :
  count_status st l = 0 <-> Forall (fun item => item_status item <> st) l.
Proof.
  induction l as [|item l IH]; [by split|].
  rewrite count_status_cons, Forall_cons, <- IH.
  destruct (decide _); simpl; [split; [lia|tauto]|tauto].
Qed.

Lemma pending_zero_iff s : pending (stats s) = 0 <-> findPendingIndex (items s) = None.
Proof.
  destruct (stats_fields s) as (_ & _ & _ & ->).
  by rewrite count_status_zero, findPendingIndex_None.
Qed.

Lemma processQueue_pending s i c :
  isProcessingRef s = false -> findPendingIndex (items s) = Some i -> items s !! i = Some c ->
  processQueue host s
  = begin_item host (length (workers s)) c
      (s |> set_workers (fun ws => ws ++ [Exited])
         |> set_isProcessingRef true
         |> setIsProcessing true
         |> addLog host info "Queue processing started.").
Proof.
  intros Href Hfind Hi. unfold processQueue. rewrite Href. unfold loop_head.
  change (items (addLog host info "Queue processing started." _)) with (items s).
  rewrite Hfind, Hi. reflexivity.
Qed.

Lemma start_enabled s i :
  isProcessing s = false -> findPendingIndex (items s) = Some i ->
  ui_step host ClickStart s = processQueue host s.
Proof.
  intros Hidle Hfind.
  assert (Hpend : Nat.eqb (pending (stats s)) 0 = false).
  { apply Nat.eqb_neq. rewrite pending_zero_iff. congruence. }
  assert (Hfoot : footer_shown s = true).
  { unfold footer_shown. destruct (items s); [done|done]. }
  unfold ui_step. by rewrite Hfoot, Hidle, Hpend.
Qed.

Lemma insert_last_worker (ws : list Phase) ph :
  <[length ws := ph]> (ws ++ [Exited]) = ws ++ [ph].
Proof. rewrite insert_app_r_alt, Nat.sub_diag by lia. done. Qed.

(** X10. On a page that is idle and holds a pending item (a state the page
    can be in, ids pairwise different), a click on Start raises both running
    flags and begins exactly one new invocation on the first pending
    position: with an analysis key the item there becomes [ANALYZING] with
    an empty description and the invocation reads its file; without one the
    item fails with the missing-key message and the invocation waits at its
    delay.  Nothing else in the store changes, and a second click on Start
    does nothing. *)
Theorem start_begins_first_pending (s : State) (i : nat) (c : WorkItem) :
  reachable host s -> isProcessing s = false ->
  findPendingIndex (items s) = Some i -> items s !! i = Some c ->
  isProcessing (ui_step host ClickStart s) = true /\
  isProcessingRef (ui_step host ClickStart s) = true /\
  match resolveApiKey host (analysisConfig (settings s)) with
  | Some key =>
      workers (ui_step host ClickStart s)
      = workers s ++ [ReadingFile c (analysisConfig (settings s)) key] /\
      items (ui_step host ClickStart s) = <[i := spread c set_analyzing]> (items s)
  | None =>
      workers (ui_step host ClickStart s) = workers s ++ [Pacing] /\
      items (ui_step host ClickStart s) = <[i := spread c set_no_analysis_key]> (items s)
  end /\
  ui_step host ClickStart (ui_step host ClickStart s) = ui_step host ClickStart s.
Proof.
  intros Hr Hidle Hfind Hi.
  pose proof (inv_nodup _ _ (Inv_reachable host random_id_inj s Hr)) as Hnd.
  destruct (flags_ok_reachable host s Hr) as [Hflags _].
  assert (Href : isProcessingRef s = false) by congruence.
  assert (Hstep : ui_step host ClickStart s
                  = begin_item host (length (workers s)) c
                      (s |> set_workers (fun ws => ws ++ [Exited])
                         |> set_isProcessingRef true
                         |> setIsProcessing true
                         |> addLog host info "Queue processing started.")).
  { rewrite (start_enabled s i) by done. by apply (processQueue_pending s i). }
  pose proof (insert_last_worker (workers s)) as Hlast.
  assert (Hagain : forall s', isProcessing s' = true -> ui_step host ClickStart s' = s').
  { intros s' H. unfold ui_step. rewrite H. simpl. by rewrite andb_false_r. }
  rewrite Hstep.
  destruct (resolveApiKey host (analysisConfig (settings s))) as [key|] eqn:Hkey.
  - match goal with |- context [begin_item host ?w c ?s1] =>
      pose proof (adv_begin_item host w c key s1 Hkey) as Hadv end.
    change (settings _) with (settings s) in Hadv.
    split; [by rewrite (adv_processing _ _ _ _ _ _ _ Hadv)|].
    split; [by rewrite (adv_ref _ _ _ _ _ _ _ Hadv)|].
    split; [split|].
    + rewrite (adv_workers _ _ _ _ _ _ _ Hadv). apply Hlast.
    + rewrite (adv_items _ _ _ _ _ _ _ Hadv). change (items _) with (items s) at 1.
      by apply (update_id_insert (item_id c) (fun item => spread item _)).
    + apply Hagain. by rewrite (adv_processing _ _ _ _ _ _ _ Hadv).
  - match goal with |- context [begin_item host ?w c ?s1] =>
      pose proof (adv_begin_item_no_key host w c s1 Hkey) as Hadv end.
    split; [by rewrite (adv_processing _ _ _ _ _ _ _ Hadv)|].
    split; [by rewrite (adv_ref _ _ _ _ _ _ _ Hadv)|].
    split; [split|].
    + rewrite (adv_workers _ _ _ _ _ _ _ Hadv). apply Hlast.
    + rewrite (adv_items _ _ _ _ _ _ _ Hadv). change (items _) with (items s) at 1.
      by apply (update_id_insert (item_id c) (fun item => spread item _)).
    + apply Hagain. by rewrite (adv_processing _ _ _ _ _ _ _ Hadv).
Qed.

(** X11. A stop does not end the invocation in flight, and it does not keep
    the queue from being started again before that invocation is done: after
    Stop and Start on a running page with a pending item, the invocation that
    was in flight is still on its item, a second invocation has begun beside
    it, and the reference flag the first one tests at its next loop head is
    up again. *)
Theorem restart_overlaps (s : State) (w : nat) (ph : Phase) (c : WorkItem)
    (st : WorkflowStatus) (i : nat) :
  isProcessing s = true ->
  workers s !! w = Some ph -> current ph = Some (c, st) ->
  findPendingIndex (items s) = Some i ->
  let s' := ui_step host ClickStart (ui_step host ClickStop s) in
  isProcessingRef s' = true /\
  workers s' !! w = Some ph /\
  exists ph2, workers s' = workers s ++ [ph2] /\ ph2 <> Exited.
Proof.
  intros Hrun Hw Hc Hfind s'.
  assert (Hfind' := Hfind). apply findPendingIndex_Some in Hfind' as (p & Hi & _).
  assert (Hfoot : footer_shown s = true).
  { unfold footer_shown. destruct (items s); [done|done]. }
  assert (Hstop : ui_step host ClickStop s = stopProcessing host s).
  { unfold ui_step. by rewrite Hfoot, Hrun. }
  subst s'. rewrite Hstop.
  rewrite (start_enabled _ i) by done.
  rewrite (processQueue_pending _ i p) by done.
  match goal with |- context [begin_item host ?w0 p ?s1] =>
    destruct (begin_item_shape host w0 p s1) as (ph2 & u & new & Hadv & Hok) end.
  change (workers (stopProcessing host s)) with (workers s) in *.
  split; [by rewrite (adv_ref _ _ _ _ _ _ _ Hadv)|].
  rewrite (adv_workers _ _ _ _ _ _ _ Hadv).
  change (workers (addLog _ _ _ _)) with (workers s ++ [Exited]).
  rewrite insert_last_worker. split.
  - by apply lookup_app_l_Some.
  - exists ph2. split; [done|]. by destruct Hok.
Qed.

End Start.

Lemma start_begins_first_pending_witness :
  isProcessing (ui_step sample_host ClickStart sample_loaded) = true /\
  workers (ui_step sample_host ClickStart sample_loaded)
  = [ReadingFile (sample_item "1" "a.png") (sample_config "k1") "k1"].
Proof.
  destruct (start_begins_first_pending sample_host pretty_nat_inj sample_loaded 0
              (sample_item "1" "a.png")) as (H1 & _ & H2 & _).
  - repeat apply reachable_run. constructor.
  - reflexivity.
  - vm_compute. reflexivity.
  - vm_compute. reflexivity.
  - split; [exact H1|]. exact (proj1 H2).
Defined.

Lemma restart_overlaps_witness :
  workers (ui_step sample_host ClickStart (ui_step sample_host ClickStop sample_analyzing)) !! 0
  = Some (Streaming (sample_item "1" "a.png") (sample_config "k1") EmptyString).
Proof.
  apply (restart_overlaps sample_host sample_analyzing 0 _ (sample_item "1" "a.png")
           ANALYZING 1).
  - reflexivity.
  - vm_compute. reflexivity.
  - reflexivity.
  - vm_compute. reflexivity.
Defined.

(** ** The log *)

Section Log.

Variable host : Host.

Lemma logs_extend_trans (s s1 s2 : State) :
  (exists k, logs s1 = logs s ++ k) -> (exists k, logs s2 = logs s1 ++ k) ->
  exists k, logs s2 = logs s ++ k.
Proof. intros [k1 H1] [k2 H2]. exists (k1 ++ k2). by rewrite H2, H1, app_assoc. Qed.

Lemma logs_extend_same (s s' : State) : logs s' = logs s -> exists k, logs s' = logs s ++ k.
Proof. intros ->. exists []. by rewrite app_nil_r. Qed.

(** Finds the records a sequence of statements has appended. *)
Ltac logs_extend :=
  simpl; rewrite <- ?app_assoc;
  first [ by eexists | by (exists []; rewrite app_nil_r) ].

Lemma logs_extend_catch_error w c message s :
  exists k, logs (catch_error host w c message s) = logs s ++ k.
Proof. logs_extend. Qed.

Lemma logs_extend_begin_item w c s : exists k, logs (begin_item host w c s) = logs s ++ k.
Proof. unfold begin_item. destruct (resolveApiKey _ _); logs_extend. Qed.

Lemma logs_extend_begin_generation w c description s :
  exists k, logs (begin_generation host w c description s) = logs s ++ k.
Proof. unfold begin_generation. destruct (resolveApiKey _ _); logs_extend. Qed.

Lemma logs_extend_loop_head w idx s : exists k, logs (loop_head host w idx s) = logs s ++ k.
Proof.
  unfold loop_head. destruct idx as [i|]; [|logs_extend].
  destruct (isProcessingRef s); [|logs_extend].
  destruct (items s !! i); [apply logs_extend_begin_item|logs_extend].
Qed.

Lemma logs_extend_engine_step w e s : exists k, logs (engine_step host w e s) = logs s ++ k.
Proof.
  unfold engine_step.
  destruct (workers s !! w) as [[c config key|c config fullText|c request| |]|];
    destruct e as [[base64|message]|chunk_text|[|message|]|net|];
    try (by apply logs_extend_same); try apply logs_extend_catch_error.
  - destruct (describe_chunk fullText chunk_text) as [fullText' [partialText|]];
      by apply logs_extend_same.
  - apply logs_extend_begin_generation.
  - destruct (generation_try host (net request)) as [t [generatedImage|message]|].
    + logs_extend.
    + apply logs_extend_catch_error.
    + by apply logs_extend_same.
  - apply logs_extend_loop_head.
Qed.

Lemma logs_extend_ui_step e s :
  e <> ClearLogs -> exists k, logs (ui_step host e s) = logs s ++ k.
Proof.
  intros Hne. destruct e as [files|i|i| | | | | |newRatio|newSettings|]; simpl; try done.
  - logs_extend.
  - destruct (items s !! i) as [item|]; [|by apply logs_extend_same].
    destruct (decide _); [logs_extend|by apply logs_extend_same].
  - destruct (items s !! i) as [item|]; by apply logs_extend_same.
  - destruct (_ && _); [|by apply logs_extend_same].
    unfold processQueue. destruct (isProcessingRef s); [by apply logs_extend_same|].
    eapply logs_extend_trans; [|apply logs_extend_loop_head]. logs_extend.
  - destruct (_ && _); [logs_extend|by apply logs_extend_same].
  - destruct (_ && _); [|by apply logs_extend_same].
    unfold clearCompleted. destruct (isProcessing s); [by apply logs_extend_same|logs_extend].
  - destruct (_ && _); [|by apply logs_extend_same].
    unfold resetAll. destruct (isProcessing s); [by apply logs_extend_same|logs_extend].
  - destruct (_ && _); [|by apply logs_extend_same].
    unfold handleBatchDownload. destruct (filter _ _); logs_extend.
  - logs_extend.
  - logs_extend.
Qed.

(** X12. The log is append-only: every step of the page other than the
    Clear control of the debug console leaves the records that were there,
    with their ids and in their order, and adds its own behind them; so the
    error mark of the console button, once on, stays on until the log is
    cleared, and clearing empties the log. *)
Theorem log_append_only (s : State) (e : Event) :
  (e <> Ui ClearLogs ->
   (exists new, logs (step host e s) = logs s ++ new) /\
   (error_mark s = true -> error_mark (step host e s) = true)) /\
  logs (step host (Ui ClearLogs) s) = [].
Proof.
  split; [|reflexivity]. intros Hne.
  assert (H : exists new, logs (step host e s) = logs s ++ new).
  { destruct e as [e|w e]; [|apply logs_extend_engine_step].
    apply logs_extend_ui_step. congruence. }
  split; [exact H|]. destruct H as [new H]. unfold error_mark. rewrite H, existsb_app.
  intros ->. reflexivity.
Qed.

End Log.

(** ** A whole run of the queue *)

Section Queue.

Variable host : Host.

Lemma count_status_insert st (l : list WorkItem) : forall i a b,
  l !! i = Some a ->
  count_status st (<[i := b]> l) + (if decide (item_status a = st) then 1 else 0)
  = count_status st l + (if decide (item_status b = st) then 1 else 0).
Proof.
  induction l as [|x l IH]; intros i a b Hi; [done|].
  destruct i as [|i]; simpl in Hi.
  - injection Hi as ->. simpl. rewrite !count_status_cons. lia.
  - simpl. rewrite !count_status_cons. specialize (IH i a b Hi). lia.
Qed.

(** The rest of an item that has just been started brings it to an end. *)
Lemma drain_begun w c o s :
  w < length (workers s) -> settles host o ->
  exists g new,
    advances w Pacing (item_id c) g new s
      (run_worker host w (rest_of_item (o_read o) (o_chunks o) (o_finish o) (o_net o))
         (begin_item host w c s)) /\
    forall item, terminal_as item (g item).
Proof.
  intros Hlt [Hfin Hnet].
  destruct (begin_item_shape host w c s) as (ph' & u & new & Hadv & Hok).
  pose proof (advances_lookup _ _ _ _ _ _ _ Hadv Hlt) as Hw'.
  destruct (current ph') as [[c' st']|] eqn:Hc'.
  - destruct (uo_current _ _ _ _ Hok c' st' Hc') as [-> _].
    destruct (drain_item host w ph' c st' (o_read o) (o_chunks o) (o_finish o) (o_net o) _
                Hw' Hc' Hfin Hnet) as (g2 & new2 & Ha2 & Hg2).
    eexists _, _. split; [eapply advances_trans; [exact Hadv|done|exact Ha2]|].
    intros item.
    exact (terminal_as_compose (fun item => spread item u) g2
             (fun item => conj eq_refl eq_refl) Hg2 item).
  - assert (ph' = Pacing) as ->.
    { destruct ph'; simpl in Hc'; try done. by destruct (uo_exited _ _ _ _ Hok). }
    rewrite (run_worker_not_awaited host w Pacing); [|done|].
    + eexists _, _. split; [exact Hadv|]. intros item. repeat split.
      simpl. destruct (uo_over _ _ _ _ Hok Hc') as [-> | ->]; [by left|by right].
    + unfold rest_of_item. constructor; [done|]. apply Forall_app.
      split; [|by repeat constructor]. apply Forall_fmap. by apply Forall_true.
Qed.

(** One item done: the state the next loop head finds. *)
Lemma drained_state w c i g new s s2 :
  NoDup (item_id <$> items s) -> w < length (workers s) ->
  items s !! i = Some c -> item_status c = PENDING ->
  advances w Pacing (item_id c) g new s s2 -> (forall item, terminal_as item (g item)) ->
  NoDup (item_id <$> items s2) /\ workers s2 !! w = Some Pacing /\
  items s2 = <[i := g c]> (items s) /\
  S (count_status PENDING (items s2)) = count_status PENDING (items s).
Proof.
  intros Hnd Hlt Hi Hp Hadv Hg.
  assert (Hitems : items s2 = <[i := g c]> (items s)).
  { rewrite (adv_items _ _ _ _ _ _ _ Hadv). by apply update_id_insert. }
  split; [|split; [|split]].
  - rewrite (adv_items _ _ _ _ _ _ _ Hadv), update_id_ids; [done|].
    intros item _ _. by destruct (Hg item).
  - by eapply advances_lookup.
  - done.
  - rewrite Hitems.
    pose proof (count_status_insert PENDING (items s) i c (g c) Hi) as Hcount.
    rewrite (decide_True (P := item_status c = PENDING)) in Hcount by done.
    rewrite decide_False in Hcount; [lia|].
    destruct (Hg c) as (_ & _ & [-> | ->]); done.
Qed.

Lemma finished_from_step i c g (l : list WorkItem) (final : list WorkItem) :
  l !! i = Some c -> item_status c = PENDING -> terminal_as c (g c) ->
  (forall j item, <[i := g c]> l !! j = Some item ->
     exists item', final !! j = Some item' /\ finished_from item item') ->
  forall j item, l !! j = Some item ->
    exists item', final !! j = Some item' /\ finished_from item item'.
Proof.
  intros Hi Hp Hg Hfinal j item Hj. destruct (decide (j = i)) as [->|Hne].
  - assert (item = c) as -> by congruence.
    destruct (Hfinal i (g c)) as (item' & Hi' & Hf).
    { apply list_lookup_insert_eq. by eapply lookup_lt_Some. }
    exists item'. split; [done|].
    unfold finished_from in *. rewrite decide_True by done.
    rewrite decide_False in Hf; [by subst|].
    destruct Hg as (_ & _ & [-> | ->]); done.
  - apply Hfinal. by rewrite list_lookup_insert_ne.
Qed.

(** From a loop head on, with as many outcomes as there are pending items. *)
Lemma queue_drains_from_delay w plan : forall s,
  NoDup (item_id <$> items s) -> workers s !! w = Some Pacing ->
  isProcessingRef s = true ->
  length plan = count_status PENDING (items s) -> Forall (settles host) plan ->
  let s' := run_worker host w (DelayElapsed :: queue_events plan) s in
  workers s' !! w = Some Exited /\ isProcessingRef s' = false /\ isProcessing s' = false /\
  forall j item, items s !! j = Some item ->
    exists item', items s' !! j = Some item' /\ finished_from item item'.
Proof.
  induction plan as [|o plan IH]; intros s Hnd Hw Href Hlen Hall.
  - cbn [queue_events flat_map run_worker foldl].
    rewrite engine_step_loop_exit; [|done|].
    + split; [|split; [done|split; [done|]]].
      * simpl. apply list_lookup_insert_eq. by eapply lookup_lt_Some.
      * intros j item Hj. exists item. split; [done|].
        unfold finished_from. rewrite decide_False; [done|].
        symmetry in Hlen. apply count_status_zero in Hlen.
        rewrite Forall_forall in Hlen. apply Hlen. by eapply list_elem_of_lookup_2.
    + right. apply findPendingIndex_None. by apply count_status_zero.
  - apply Forall_cons in Hall as [Ho Hall].
    assert (Hlt : w < length (workers s)) by (by eapply lookup_lt_Some).
    destruct (findPendingIndex (items s)) as [i|] eqn:Hfind.
    2: { apply findPendingIndex_None, count_status_zero in Hfind.
         rewrite Hfind in Hlen. discriminate Hlen. }
    assert (Hfind' := Hfind). apply findPendingIndex_Some in Hfind' as (c & Hi & Hp & _).
    destruct (drain_begun w c o s Hlt Ho) as (g & new & Hadv & Hg).
    destruct (drained_state w c i g new s _ Hnd Hlt Hi Hp Hadv Hg) as (Hnd2 & Hw2 & Hit2 & Hc2).
    assert (Hrun : run_worker host w (DelayElapsed :: queue_events (o :: plan)) s
                   = run_worker host w (DelayElapsed :: queue_events plan)
                       (run_worker host w
                          (rest_of_item (o_read o) (o_chunks o) (o_finish o) (o_net o))
                          (begin_item host w c s))).
    { cbn [queue_events flat_map]. fold (queue_events plan).
      rewrite <- app_assoc. cbn [run_worker foldl].
      rewrite (engine_step_loop_begin host w i c s Hw Href Hfind Hi).
      by rewrite foldl_app. }
    cbv zeta. rewrite Hrun.
    destruct (IH _ Hnd2 Hw2) as (Hex & Hr & Hp' & Hfinal).
    + by rewrite (adv_ref _ _ _ _ _ _ _ Hadv).
    + simpl in Hlen. lia.
    + done.
    + split; [done|]. split; [done|]. split; [done|].
      apply (finished_from_step i c g (items s)); [done|done|apply Hg|].
      rewrite <- Hit2. exact Hfinal.
Qed.

Lemma run_engine_events w es s :
  run host (Engine w <$> es) s = run_worker host w es s.
Proof. revert s. induction es as [|e es IH]; intros s; [done|]. simpl. apply IH. Qed.

Lemma run_worker_ids w es s :
  item_id <$> items (run_worker host w es s) = item_id <$> items s.
Proof.
  revert s. induction es as [|e es IH]; intros s; [done|]. simpl.
  fold (run_worker host w es (engine_step host w e s)). rewrite IH.
  by apply engine_step_keeps.
Qed.

Lemma finished_from_not_pending item item' :
  finished_from item item' -> item_status item' <> PENDING.
Proof.
  unfold finished_from. destruct (decide _) as [|Hne].
  - intros (_ & _ & [-> | ->]); done.
  - by intros ->.
Qed.

Hypothesis random_id_inj : Inj (=) (=) (random_id host).

(** X13. A whole run.  On an idle page the page can be in (ids pairwise
    different) with at least one pending item, Start followed by the events
    of its invocation, one settling outcome per pending item, works the
    queue off: the invocation leaves through [finally], both running flags
    are down, no item is pending any more, every item that was pending has
    ended [COMPLETED] or [ERROR] with its id and file, and every other item
    is as it was, each in its position. *)
Theorem start_drains_queue (s : State) (o : Outcome) (plan : list Outcome) :
  reachable host s -> isProcessing s = false ->
  S (length plan) = pending (stats s) ->
  settles host o -> Forall (settles host) plan ->
  let w := length (workers s) in
  let s' := run host (Ui ClickStart :: (Engine w <$> queue_events (o :: plan))) s in
  workers s' !! w = Some Exited /\
  isProcessing s' = false /\ isProcessingRef s' = false /\
  pending (stats s') = 0 /\
  length (items s') = length (items s) /\
  forall j item, items s !! j = Some item ->
    exists item', items s' !! j = Some item' /\ finished_from item item'.
Proof.
  intros Hr Hidle Hlen Ho Hall w s'.
  pose proof (inv_nodup _ _ (Inv_reachable host random_id_inj s Hr)) as Hnd.
  destruct (flags_ok_reachable host s Hr) as [Hflags _].
  assert (Href : isProcessingRef s = false) by congruence.
  destruct (stats_fields s) as (_ & _ & _ & Hpend). rewrite Hpend in Hlen.
  destruct (findPendingIndex (items s)) as [i|] eqn:Hfind.
  2: { apply findPendingIndex_None, count_status_zero in Hfind.
       rewrite Hfind in Hlen. discriminate Hlen. }
  assert (Hfind' := Hfind). apply findPendingIndex_Some in Hfind' as (c & Hi & Hp & _).
  set (s1 := s |> set_workers (fun ws => ws ++ [Exited])
               |> set_isProcessingRef true
               |> setIsProcessing true
               |> addLog host info "Queue processing started.").
  assert (Hlt : w < length (workers s1)).
  { unfold s1, w. simpl. rewrite length_app. simpl. lia. }
  destruct (drain_begun w c o s1 Hlt Ho) as (g & new & Hadv & Hg).
  destruct (drained_state w c i g new s1 _ Hnd Hlt Hi Hp Hadv Hg) as (Hnd2 & Hw2 & Hit2 & Hc2).
  assert (Hrun : s' = run_worker host w (DelayElapsed :: queue_events plan)
                        (run_worker host w
                           (rest_of_item (o_read o) (o_chunks o) (o_finish o) (o_net o))
                           (begin_item host w c s1))).
  { unfold s'.
    change (run host (Ui ClickStart :: (Engine w <$> queue_events (o :: plan))) s)
      with (run host (Engine w <$> queue_events (o :: plan)) (ui_step host ClickStart s)).
    rewrite (start_enabled host s i Hidle Hfind), (processQueue_pending host s i c Href Hfind Hi).
    rewrite run_engine_events. cbn [queue_events flat_map]. fold (queue_events plan).
    rewrite <- app_assoc. unfold run_worker. by rewrite foldl_app. }
  destruct (queue_drains_from_delay w plan _ Hnd2 Hw2) as (Hex & Hr' & Hp' & Hfinal).
  { by rewrite (adv_ref _ _ _ _ _ _ _ Hadv). }
  { change (items s1) with (items s) in Hc2. lia. }
  { done. }
  cbv zeta in Hex, Hr', Hp', Hfinal. rewrite <- Hrun in Hex, Hr', Hp', Hfinal.
  assert (Hpos : forall j item, items s !! j = Some item ->
            exists item', items s' !! j = Some item' /\ finished_from item item').
  { apply (finished_from_step i c g (items s)); [done|done|apply Hg|].
    change (items s1) with (items s) in Hit2. rewrite <- Hit2. exact Hfinal. }
  assert (Hlength : length (items s') = length (items s)).
  { rewrite <- (length_fmap item_id (items s')), <- (length_fmap item_id (items s)).
    rewrite Hrun, !run_worker_ids. unfold begin_item.
    destruct (resolveApiKey _ _); simpl; by rewrite !length_fmap. }
  split; [done|]. split; [done|]. split; [done|]. split; [|split; [done|done]].
  destruct (stats_fields s') as (_ & _ & _ & ->).
  apply count_status_zero, Forall_forall. intros item' Hin'.
  apply list_elem_of_lookup in Hin' as [j Hj].
  destruct (items s !! j) as [item|] eqn:Hj0.
  - destruct (Hpos j item Hj0) as (item'' & Hj' & Hf).
    assert (item'' = item') as -> by congruence.
    by eapply finished_from_not_pending.
  - apply lookup_ge_None in Hj0. apply lookup_lt_Some in Hj. lia.
Qed.

End Queue.

Lemma start_drains_queue_witness :
  isProcessing
    (run sample_host
       (Ui ClickStart ::
        (Engine (length (workers sample_loaded)) <$>
           queue_events [sample_outcome "http://img/1"; sample_outcome_failing;
                         sample_outcome "http://img/3"]))
       sample_loaded) = false /\
  pending
    (stats
       (run sample_host
          (Ui ClickStart ::
           (Engine (length (workers sample_loaded)) <$>
              queue_events [sample_outcome "http://img/1"; sample_outcome_failing;
                            sample_outcome "http://img/3"]))
          sample_loaded)) = 0.
Proof.
  destruct (start_drains_queue sample_host pretty_nat_inj sample_loaded
              (sample_outcome "http://img/1")
              [sample_outcome_failing; sample_outcome "http://img/3"])
    as (_ & H1 & _ & H2 & _).
  - repeat apply reachable_run. constructor.
  - vm_compute. reflexivity.
  - vm_compute. reflexivity.
  - split; [done|]. intros request H. vm_compute in H. discriminate H.
  - repeat constructor; try done; intros request H; vm_compute in H; discriminate H.
  - split; [exact H1|exact H2].
Defined.

(** ** The stage clients *)

Section Clients.

Variable host : Host.

Lemma string_app_assoc (a b c : string) : (a +:+ b) +:+ c = a +:+ (b +:+ c).
Proof.
  induction a as [|x a IH]; [done|].
  change (String x ((a +:+ b) +:+ c) = String x (a +:+ b +:+ c)). by rewrite IH.
Qed.

Lemma string_app_nonempty_r (a b : string) : b <> EmptyString -> a +:+ b <> EmptyString.
Proof. destruct a; [done|]. simpl. discriminate. Qed.

Lemma trim_start_blank s : blank s = true -> trim_start s = EmptyString.
Proof.
  induction s as [|c r IH]; simpl; [done|].
  intros [Hc Hr]%andb_true_iff. rewrite Hc. by apply IH.
Qed.

Lemma trim_blank s : blank s = true -> trim s = EmptyString.
Proof. intros H. unfold trim. by rewrite (trim_start_blank s H). Qed.

(** X14. A key of ASCII characters set in the configuration is the one both
    stage calls use, whatever the environment holds, and they use it
    trimmed.  The guard against a missing key tests the key before it is
    trimmed: a key of white space only passes it, and the image request is
    then sent with an empty bearer token. *)
Theorem configured_key_used (config : ServiceConfig) (k : string) :
  apiKey config = Some k -> k <> EmptyString -> ascii_only k = true ->
  resolveApiKey host config = Some (trim k) /\
  (forall file prompt net,
     generateVariation host file prompt config net
     = generation_try host (net (generation_request prompt config (trim k)))) /\
  (forall file base64 sdk,
     describeImage host file config (FileLoaded base64) sdk
     = describe_stream config EmptyString
         (chunks (sdk (describe_request file config (trim k) base64)))
         (finish (sdk (describe_request file config (trim k) base64)))) /\
  (blank k = true ->
   forall prompt, req_authorization (generation_request prompt config (trim k)) = "Bearer ").
Proof.
  intros Hk Hne _.
  assert (Hres : resolveApiKey host config = Some (trim k)).
  { unfold resolveApiKey, js_or. rewrite Hk. simpl.
    rewrite !(decide_False (P := k = EmptyString)) by done. simpl.
    by rewrite !(decide_False (P := k = EmptyString)). }
  split; [done|]. split; [|split].
  - intros file prompt net. unfold generateVariation. by rewrite Hres.
  - intros file base64 sdk. unfold describeImage. by rewrite Hres.
  - intros Hb prompt. simpl. by rewrite (trim_blank k Hb).
Qed.

(** X15. The image request is always well formed: it is posted to a
    non-empty base followed by [/images/generations], names a model and a
    size, carries the key as bearer token and ends its prompt with the
    description; a base URL that is missing or blank gives the default
    endpoint, a missing or blank model the default model, and a missing
    aspect ratio the size 16:9. *)
Theorem generation_request_wellformed (prompt : string) (config : ServiceConfig)
    (key : string) :
  let request := generation_request prompt config key in
  (exists base, base <> EmptyString /\ req_url request = base +:+ "/images/generations") /\
  req_model request <> EmptyString /\
  req_size request <> EmptyString /\
  req_authorization request = "Bearer " +:+ key /\
  (exists instruction, req_prompt request = instruction +:+ prompt) /\
  (truthy (trim <$> baseUrl config) = false ->
   req_url request = "https://api.apicore.ai/v1/images/generations") /\
  (truthy (trim <$> model config) = false ->
   req_model request = "gemini-3-pro-image-preview") /\
  (truthy (aspectRatio config) = false -> req_size request = "16:9").
Proof.
  cbv zeta. unfold generation_request. cbn [req_url req_model req_size req_authorization req_prompt].
  split; [|split; [|split; [|split; [|split; [|split; [|split]]]]]].
  - destruct (truthy (Some (cleanBaseUrl (trim <$> baseUrl config)))) eqn:Ht.
    + exists (cleanBaseUrl (trim <$> baseUrl config)). split; [|done].
      simpl in Ht. by destruct (decide _).
    + by exists "https://api.apicore.ai/v1".
  - by apply js_or_str_nonempty.
  - by apply js_or_str_nonempty.
  - done.
  - destruct (truthy (systemInstruction config)).
    + exists (js_or_str (systemInstruction config) EmptyString +:+ newline +:+ newline
                +:+ "Positive Prompt: ").
      by rewrite !string_app_assoc.
    + by exists EmptyString.
  - intros Hb. unfold cleanBaseUrl. rewrite Hb. done.
  - intros Hm. destruct (trim <$> model config) as [m|]; simpl in *; [|done].
    by destruct (decide (m = EmptyString)).
  - intros Ha. destruct (aspectRatio config) as [a|]; simpl in *; [|done].
    by destruct (decide (a = EmptyString)).
Qed.

Lemma drop_trailing_slash_app u : drop_trailing_slash (u +:+ "/") = u.
Proof.
  induction u as [|c r IH]; [done|].
  change (String c r +:+ "/") with (String c (r +:+ "/")).
  cbn [drop_trailing_slash]. rewrite IH. by destruct r.
Qed.

Lemma drop_trailing_slash_none u :
  (forall v, u <> v +:+ "/") -> drop_trailing_slash u = u.
Proof.
  induction u as [|c r IH]; intros Hu; [done|]. destruct r as [|c' r'].
  - simpl. destruct (Ascii.eqb c "/") eqn:Hc; [|done].
    apply Ascii.eqb_eq in Hc as ->. by destruct (Hu EmptyString).
  - change (drop_trailing_slash (String c (String c' r')))
      with (String c (drop_trailing_slash (String c' r'))).
    rewrite IH; [done|]. intros v Hv. apply (Hu (String c v)). simpl. by rewrite Hv.
Qed.

Lemma trim_end_app_slash s : trim_end (s +:+ "/") = s +:+ "/".
Proof.
  induction s as [|c r IH]; [done|].
  change (String c r +:+ "/") with (String c (r +:+ "/")).
  cbn [trim_end]. rewrite IH. by destruct r.
Qed.

Lemma trim_end_length s : String.length (trim_end s) <= String.length s.
Proof.
  induction s as [|c r IH]; simpl; [lia|].
  destruct (trim_end r); [destruct (is_space c)|]; simpl in *; lia.
Qed.

Lemma trim_start_length s : String.length (trim_start s) <= String.length s.
Proof. induction s as [|c r IH]; simpl; [lia|]. destruct (is_space c); simpl; lia. Qed.

Lemma trim_fixed_start s : trim s = s -> trim_start s = s.
Proof.
  destruct s as [|c r]; [done|]. unfold trim. simpl.
  destruct (is_space c); [|done]. intros H.
  pose proof (trim_end_length (trim_start r)). pose proof (trim_start_length r).
  rewrite H in *. simpl in *. lia.
Qed.

Lemma trim_app_slash u : trim u = u -> u <> EmptyString -> trim (u +:+ "/") = u +:+ "/".
Proof.
  intros Hu Hne. apply trim_fixed_start in Hu. unfold trim.
  assert (Hs : trim_start (u +:+ "/") = u +:+ "/").
  { destruct u as [|c r]; [done|]. simpl in *.
    destruct (is_space c); [|done].
    pose proof (trim_start_length r) as Hl. rewrite Hu in Hl. simpl in Hl. lia. }
  rewrite Hs. apply trim_end_app_slash.
Qed.

(** X16. One slash at the end of a base URL is dropped and nothing else is:
    [cleanBaseUrl] turns [u/] into [u], leaves a URL that does not end in a
    slash as it is, and gives the empty string for a missing one.  So for a
    non-empty [u] without white space around it and without a slash at its
    end, the image request goes to the same endpoint whether the settings
    hold [u] or [u/]. *)
Theorem trailing_slash_tolerated (u : string) :
  cleanBaseUrl (Some (u +:+ "/")) = u /\
  cleanBaseUrl None = EmptyString /\
  ((forall v, u <> v +:+ "/") ->
   cleanBaseUrl (Some u) = u /\
   (trim u = u -> u <> EmptyString ->
    forall prompt config key,
      req_url (generation_request prompt (with_baseUrl (Some (u +:+ "/")) config) key)
      = u +:+ "/images/generations" /\
      req_url (generation_request prompt (with_baseUrl (Some u) config) key)
      = u +:+ "/images/generations")).
Proof.
  assert (Hslash : cleanBaseUrl (Some (u +:+ "/")) = u).
  { unfold cleanBaseUrl. simpl. rewrite !decide_False by (by apply string_app_nonempty_r).
    apply drop_trailing_slash_app. }
  split; [done|]. split; [done|]. intros Hends.
  assert (Hplain : cleanBaseUrl (Some u) = u).
  { unfold cleanBaseUrl. simpl. destruct (decide (u = EmptyString)) as [->|]; [done|].
    by apply drop_trailing_slash_none. }
  split; [done|]. intros Htrim Hne prompt config key.
  unfold generation_request. cbn [req_url with_baseUrl baseUrl fmap option_fmap option_map].
  rewrite (trim_app_slash u Htrim Hne), Htrim, Hslash, Hplain.
  simpl. by rewrite decide_False.
Qed.

(** X17. The generation call resolves in one case only: the image service
    answered within the 120 s of the fetch timeout with an ok status and a
    body whose first [data] entry holds a non-empty [url] or a non-empty
    [b64_json].  It then resolves with the URL, which takes precedence, or
    with the base64 data as a PNG data URL.  A status that is not ok, a
    failed or aborted fetch and a body without an image never resolve. *)
Theorem generation_resolves_only_with_image (net : NetBehaviour) (t : N) (r : string) :
  generation_try host net = At t (Resolved r) <->
  exists latency response d url b64_json stringified,
    net = Responds latency response /\ (latency < 120000)%N /\ ok response = true /\
    json response = Arrives d (DataObject url b64_json stringified) /\
    t = (latency + d)%N /\
    ((truthy url = true /\ r = js_or_str url EmptyString) \/
     (truthy url = false /\ truthy b64_json = true /\
      r = "data:image/png;base64," +:+ js_or_str b64_json EmptyString)).
Proof.
  unfold generation_try, fetchWithTimeout. simpl. split.
  - destruct net as [latency response|latency message|]; [| |done].
    + destruct (N.ltb_spec latency 120000) as [Hlt|]; [|done].
      unfold generation_body. destruct (ok response) eqn:Hok.
      * destruct (json response) as [d [url b64 str|m]|d m|] eqn:Hjson; try done.
        destruct (truthy url) eqn:Hu.
        { intros [= <- <-]. exists latency, response, d, url, b64, str. repeat split; auto. }
        destruct (truthy b64) eqn:Hb; [|done].
        intros [= <- <-]. exists latency, response, d, url, b64, str. repeat split; auto.
      * by destruct (text response).
    + by destruct (latency <? 120000)%N.
  - intros (latency & response & d & url & b64 & str & -> & Hlt & Hok & Hjson & -> & Hr).
    apply N.ltb_lt in Hlt. rewrite Hlt. unfold generation_body. rewrite Hok, Hjson.
    destruct Hr as [[Hu ->]|(Hu & Hb & ->)]; rewrite Hu; [done|]. by rewrite Hb.
Qed.

Lemma describe_stream_updates config chunks finish : forall fullText updates r,
  describe_stream config fullText chunks finish = (updates, r) ->
  length updates = length (filter (fun c => truthy c = true) chunks) /\
  Forall (fun a => exists c, c <> EmptyString /\ a = fullText +:+ c) updates /\
  (forall i a b, updates !! i = Some a -> updates !! S i = Some b ->
     exists c, c <> EmptyString /\ b = a +:+ c) /\
  (forall d, r = Some (Resolved d) ->
     finish = EndOfStream /\ d = describe_return (default fullText (last updates))).
Proof.
  induction chunks as [|chunk chunks IH]; intros fullText updates r; simpl.
  - destruct finish; intros [= <- <-];
      (split; [done|]; split; [done|];
       split; [intros i a b Ha; by rewrite lookup_nil in Ha|]);
      intros d Hd; try done. by injection Hd as <-.
  - unfold describe_chunk. destruct (truthy chunk) eqn:Hc.
    + destruct (describe_stream config (fullText +:+ js_or_str chunk EmptyString) chunks finish)
        as [updates' r'] eqn:Hs.
      intros [= <- <-]. destruct (IH _ _ _ Hs) as (Hlen & Hall & Hadj & Hres).
      assert (Hne : js_or_str chunk EmptyString <> EmptyString) by (by apply truthy_nonempty).
      rewrite filter_cons_True by done. simpl. split; [by rewrite Hlen|]. split; [|split].
      * constructor; [by eexists|].
        eapply Forall_impl; [exact Hall|]. intros a (c & Hcne & ->).
        exists (js_or_str chunk EmptyString +:+ c). split.
        -- by apply string_app_nonempty_r.
        -- by rewrite string_app_assoc.
      * intros [|i] a b Ha Hb; simpl in Ha, Hb.
        -- injection Ha as <-. destruct updates' as [|b' rest]; [done|].
           injection Hb as <-. by apply Forall_cons in Hall as [? _].
        -- by eapply Hadj.
      * intros d Hd. destruct (Hres d Hd) as [Hf ->]. split; [done|].
        rewrite last_cons. by destruct (last updates').
    + destruct (describe_stream config fullText chunks finish) as [updates' r'] eqn:Hs.
      intros [= <- <-]. destruct (IH _ _ _ Hs) as (Hlen & Hall & Hadj & Hres).
      rewrite filter_cons_False by (by rewrite Hc). done.
Qed.

(** X18. The text [describeImage] streams to its caller only grows: it
    calls [onStreamUpdate] once for every chunk that carries text, every
    update is the one before followed by the non-empty text of the chunk,
    and when the call resolves its result is the last update it made, or
    the text "No description generated." when no chunk carried text. *)
Theorem stream_updates_cumulative (config : ServiceConfig) (chunks : list (option string))
    (finish : StreamEnd) (updates : list string) (r : option (Settled string)) :
  describe_stream config EmptyString chunks finish = (updates, r) ->
  length updates = length (filter (fun c => truthy c = true) chunks) /\
  Forall (fun a => a <> EmptyString) updates /\
  (forall i a b, updates !! i = Some a -> updates !! S i = Some b ->
     exists c, c <> EmptyString /\ b = a +:+ c) /\
  (forall d, r = Some (Resolved d) ->
     match last updates with
     | Some a => d = a
     | None => d = "No description generated."
     end).
Proof.
  intros Hs. destruct (describe_stream_updates _ _ _ _ _ _ Hs) as (Hlen & Hall & Hadj & Hres).
  assert (Hne : Forall (fun a => a <> EmptyString) updates).
  { eapply Forall_impl; [exact Hall|]. by intros a (c & Hc & ->). }
  split; [done|]. split; [done|]. split; [done|].
  intros d Hd. destruct (Hres d Hd) as [_ ->].
  destruct (last updates) as [a|] eqn:Hlast; [|done]. simpl.
  unfold describe_return. simpl. rewrite decide_False; [done|].
  rewrite Forall_forall in Hne. apply Hne. rewrite last_lookup in Hlast.
  by eapply list_elem_of_lookup_2.
Qed.

Lemma split_on_plain sep s : has_char sep s = false -> split_on sep s = [s].
Proof.
  induction s as [|c r IH]; simpl; [done|].
  intros [Hc Hr]%orb_false_iff. rewrite Hc, (IH Hr). done.
Qed.

Lemma split_on_app sep a b :
  has_char sep a = false -> split_on sep (a +:+ String sep b) = a :: split_on sep b.
Proof.
  induction a as [|c r IH]; simpl.
  - intros _. by rewrite Ascii.eqb_refl.
  - intros [Hc Hr]%orb_false_iff. rewrite Hc, (IH Hr). done.
Qed.

(** X19. [fileToBase64] resolves with what stands between the first and the
    second comma of the reader's result: for a data URL, whose header and
    payload hold no comma, that is the payload.  A result without a comma
    still resolves, with [undefined]; the call rejects only when the result
    is not a string or the reader reports an error. *)
Theorem fileToBase64_takes_payload (header payload : string) :
  has_char "," header = false -> has_char "," payload = false ->
  fileToBase64 (OnLoad (ResultString (header +:+ "," +:+ payload))) = Resolved (Some payload) /\
  (forall rest,
     fileToBase64 (OnLoad (ResultString (header +:+ "," +:+ payload +:+ "," +:+ rest)))
     = Resolved (Some payload)) /\
  fileToBase64 (OnLoad (ResultString header)) = Resolved None /\
  (forall e r, fileToBase64 e = Rejected r ->
     e = OnLoad ResultOther \/ exists message, e = OnError message).
Proof.
  intros Hh Hp. split; [|split; [|split]].
  - simpl. change ("," +:+ payload) with (String "," payload).
    by rewrite (split_on_app _ _ _ Hh), (split_on_plain _ _ Hp).
  - intros rest. simpl. change ("," +:+ payload +:+ "," +:+ rest)
      with (String "," (payload +:+ String "," rest)).
    by rewrite (split_on_app _ _ _ Hh), (split_on_app _ _ _ Hp).
  - simpl. by rewrite (split_on_plain _ _ Hh).
  - intros [[s|]|message] r; simpl; [done|by left|right; by eexists].
Qed.

End Clients.

Lemma configured_key_used_witness :
  resolveApiKey sample_host_with_env (sample_config "   ") = Some EmptyString.
Proof.
  destruct (configured_key_used sample_host_with_env (sample_config "   ") "   ")
    as [H _]; [reflexivity|done|reflexivity|exact H].
Defined.

Lemma stream_updates_cumulative_witness :
  length ["a cat"; "a cat on a mat"]
  = length (filter (fun c => truthy c = true) [Some "a cat"; None; Some " on a mat"]).
Proof.
  apply (stream_updates_cumulative (sample_config "k1")
           [Some "a cat"; None; Some " on a mat"] EndOfStream
           ["a cat"; "a cat on a mat"] (Some (Resolved "a cat on a mat"))).
  reflexivity.
Defined.

Lemma fileToBase64_takes_payload_witness :
  fileToBase64 (OnLoad (ResultString ("data:image/png;base64" +:+ "," +:+ "iVBORw0KGgo=")))
  = Resolved (Some "iVBORw0KGgo=").
Proof. apply (fileToBase64_takes_payload "data:image/png;base64" "iVBORw0KGgo="); reflexivity. Defined.

(** ** The view of an item *)

Section View.

Variable host : Host.
Hypothesis random_id_inj : Inj (=) (=) (random_id host).

Lemma newItems_prompt n files item :
  item ∈ newItems host n files -> originalPrompt item = None.
Proof.
  revert n. induction files as [|f files IH]; intros n; simpl.
  - intros H. by apply elem_of_nil in H.
  - intros [->|H]%elem_of_cons; [done|]. by eapply IH.
Qed.

Lemma changes_origin user s s' item' :
  changes host user s s' -> item' ∈ items s' ->
  (exists item, item ∈ items s /\ item_id item' = item_id item) \/
  (exists files, item' ∈ newItems host (idCalls s) files).
Proof.
  intros Hch Hin'.
  destruct Hch as [Hi Hw|_ Hsub Hw|files _ Hi Hw|i item _ Hi He Hit Hw
                  |ws w ph c st ph' u Hor Hph Hc Hi Hw Hok|ws w ph Hor Hph Hc Hi Hw].
  - left. exists item'. by rewrite <- Hi.
  - left. exists item'. split; [|done].
    eapply elem_of_submseteq; [exact Hin'|]. by apply sublist_submseteq.
  - rewrite Hi in Hin'. apply elem_of_app in Hin' as [Hin'|Hin'].
    + left. by exists item'.
    + right. by exists files.
  - left. rewrite Hit in Hin'.
    apply elem_of_update_id in Hin' as (item0 & Hin0 & [[_ ->]|[_ ->]]); by exists item0.
  - left. rewrite Hi in Hin'.
    apply elem_of_update_id in Hin' as (item0 & Hin0 & [[_ ->]|[_ ->]]); by exists item0.
  - left. exists item'. by rewrite <- Hi.
Qed.

Lemma pending_blank_changes user s s' :
  Inv host s -> changes host user s s' -> pending_blank s -> pending_blank s'.
Proof.
  intros HI Hch Hpb item' Hin' Hp.
  destruct (changes_origin _ _ _ _ Hch Hin') as [(item & Hin & Hid)|(files & Hnew)];
    [|by eapply newItems_prompt].
  destruct (lifecycle_changes host random_id_inj _ _ _ _ _ HI Hch Hin Hin' Hid)
    as [->|[([Ha|Ha] & Hs & _)|[Ht|(_ & _ & ->)]]].
  - by apply Hpb.
  - congruence.
  - congruence.
  - rewrite Hp in Ht. by destruct (item_status item).
  - done.
Qed.

Lemma pending_blank_reachable s : reachable host s -> pending_blank s.
Proof.
  induction 1 as [|s e Hr IH]; [intros item Hin; by apply elem_of_nil in Hin|].
  eapply pending_blank_changes; [|apply changes_step|exact IH].
  by apply Inv_reachable.
Qed.

(** X20. What the view of an item shows, status by status, in every state
    the page can be in (ids pairwise different).  A pending item shows the
    placeholder "Waiting for analysis...", no error box and no retry
    control.  An item under analysis shows its growing text with the cursor,
    and, as long as no text has arrived, the placeholder "Analysis failed.".
    An item under generation shows its description and the spinner.  A
    completed item shows its description, its image and the badge.  A failed
    item shows the error box with its message, the retry control, and no
    image.  The image is shown for completed items only, the error box and
    the retry control for failed items only. *)
Theorem item_view_follows_status (s : State) (item : WorkItem) :
  reachable host s -> item ∈ items s ->
  match item_status item with
  | PENDING =>
      prompt_pane item = PromptPlaceholder "Waiting for analysis..." /\
      output_pane item = OutputWaiting /\ error_box item = None /\
      retry_shown true item = false /\ done_badge item = false
  | ANALYZING =>
      (prompt_pane item = PromptPlaceholder "Analysis failed." \/
       exists text, text <> EmptyString /\ prompt_pane item = PromptText text true) /\
      output_pane item = OutputWaiting /\ error_box item = None /\
      retry_shown true item = false /\ done_badge item = false
  | GENERATING =>
      (exists text, text <> EmptyString /\ prompt_pane item = PromptText text false) /\
      output_pane item = OutputRendering /\ error_box item = None /\
      retry_shown true item = false /\ done_badge item = false
  | COMPLETED =>
      (exists text, text <> EmptyString /\ prompt_pane item = PromptText text false) /\
      (exists url, url <> EmptyString /\ output_pane item = OutputImage url) /\
      error_box item = None /\ retry_shown true item = false /\ done_badge item = true
  | ERROR =>
      output_pane item = OutputWaiting /\
      (exists msg, msg <> EmptyString /\ error_box item = Some msg) /\
      retry_shown true item = true /\ done_badge item = false
  end /\
  (forall c, prompt_pane (spread c set_analyzing) = PromptPlaceholder "Analysis failed.").
Proof.
  intros Hr Hin. split; [|done].
  destruct (inv_items _ _ (Inv_reachable host random_id_inj s Hr) item Hin)
    as (Hurl & Herr & Hdesc).
  destruct (filled_reachable host s Hr item Hin) as [Hfu Hfe].
  pose proof (pending_blank_reachable s Hr item Hin) as Hpb.
  unfold prompt_pane, output_pane, error_box, retry_shown, done_badge.
  assert (Hu : item_status item <> COMPLETED -> generatedImageUrl item = None).
  { intros Hne. destruct (generatedImageUrl item) eqn:E; [|done].
    destruct Hne. apply Hurl. by eexists. }
  assert (He : item_status item <> ERROR -> item_error item = None).
  { intros Hne. destruct (item_error item) eqn:E; [|done].
    destruct Hne. apply Herr. by eexists. }
  assert (Hd : item_status item = GENERATING \/ item_status item = COMPLETED ->
               exists text, text <> EmptyString /\
                 (if truthy (originalPrompt item)
                  then PromptText (js_or_str (originalPrompt item) EmptyString) false
                  else PromptPlaceholder "Analysis failed.") = PromptText text false).
  { intros Hst. destruct (Hdesc Hst) as (d & -> & Hne). exists d. split; [done|].
    simpl. by rewrite !decide_False. }
  destruct (item_status item) eqn:Hst.
  - rewrite (Hpb eq_refl), Hu, He by done. done.
  - rewrite Hu, He by done. split; [|done].
    destruct (originalPrompt item) as [text|]; simpl; [|by left].
    destruct (decide (text = EmptyString)); [by left|]. right. by exists text.
  - rewrite Hu, He by done. split; [|done]. apply Hd. by left.
  - rewrite He by done. split; [apply Hd; by right|].
    destruct (proj2 Hurl eq_refl) as [url Hsome]. rewrite Hsome.
    split; [|done]. exists url. split; [by apply Hfu|].
    simpl. rewrite !decide_False; [done|by apply Hfu..].
  - rewrite Hu by done. split; [done|].
    destruct (proj2 Herr eq_refl) as [msg Hsome]. rewrite Hsome.
    split; [|done]. exists msg. split; [by apply Hfe|].
    simpl. rewrite decide_False; [done|by apply Hfe].
Qed.

End View.

Lemma item_view_follows_status_witness :
  retry_shown true sample_item_completed = false /\
  done_badge sample_item_completed = true.
Proof.
  pose proof (item_view_follows_status sample_host pretty_nat_inj sample_finished
                sample_item_completed) as H.
  destruct H as [(_ & _ & _ & Hretry & Hdone) _].
  - apply sample_finished_reachable.
  - vm_compute. left.
  - split; [exact Hretry|exact Hdone].
Defined.

(** ** The batch download *)

Section Download.

Variable host : Host.
Hypothesis random_id_inj : Inj (=) (=) (random_id host).

Lemma filter_ext_in {A} (P Q : A -> Prop) `{!forall x, Decision (P x)}
    `{!forall x, Decision (Q x)} (l : list A) :
  (forall x, x ∈ l -> P x <-> Q x) -> filter P l = filter Q l.
Proof.
  induction l as [|x l IH]; intros Hiff; [done|].
  assert (Hl : filter P l = filter Q l).
  { apply IH. intros y Hy. apply Hiff. by right. }
  destruct (decide (P x)) as [HP|HP].
  - rewrite !filter_cons_True; [by rewrite Hl|by apply Hiff; [left|]|done].
  - rewrite !filter_cons_False; [done| |done]. intros HQ. apply HP, Hiff; [left|done].
Qed.

Lemma completedItems_reachable s :
  reachable host s ->
  completedItems (items s) = filter (fun item => item_status item = COMPLETED) (items s).
Proof.
  intros Hr. apply filter_ext_in. intros item Hin. split; [by intros [? _]|].
  intros Hc. split; [done|].
  destruct (inv_items _ _ (Inv_reachable host random_id_inj s Hr) item Hin) as (Hurl & _).
  destruct (proj2 Hurl Hc) as [url Hsome].
  destruct (filled_reachable host s Hr item Hin) as [Hf _].
  rewrite Hsome. simpl. rewrite decide_False; [done|by apply Hf].
Qed.

Lemma stem_app a b : has_char "." a = false -> stem (a +:+ "." +:+ b) = a.
Proof.
  intros Ha. unfold stem. change ("." +:+ b) with (String "." b).
  by rewrite (split_on_app _ _ _ Ha).
Qed.

(** X21. The batch download, in a state the page can be in (ids pairwise
    different).  It downloads the results of the completed items, all of
    them and in the order of the store, the k-th (from 0) after k times 500
    ms under the name batch-(k+1)-(stem).png, where the stem is the file
    name up to its first dot.  When the Download All control is enabled,
    the click logs the start of the download with the number of completed
    items; the warning that there is nothing to download is never logged. *)
Theorem batch_download_plan (s : State) :
  reachable host s ->
  length (batchDownloads (items s)) = completed (stats s) /\
  Some <$> (dl_href <$> batchDownloads (items s))
  = generatedImageUrl <$> filter (fun item => item_status item = COMPLETED) (items s) /\
  (forall k d, batchDownloads (items s) !! k = Some d ->
     dl_delay d = k * 500 /\
     exists item, item ∈ items s /\ item_status item = COMPLETED /\
       generatedImageUrl item = Some (dl_href d) /\
       dl_name d = "batch-" +:+ pretty (k + 1) +:+ "-"
                     +:+ stem (file_name (item_file item)) +:+ ".png") /\
  (log_view <$> logs (ui_step host ClickDownloadAll s) = log_view <$> logs s \/
   log_view <$> logs (ui_step host ClickDownloadAll s)
   = (log_view <$> logs s)
       ++ [(info, "Starting batch download for " +:+ pretty (completed (stats s))
                    +:+ " images...")]) /\
  (forall a b, has_char "." a = false -> stem (a +:+ "." +:+ b) = a /\ stem a = a).
Proof.
  intros Hr.
  pose proof (completedItems_reachable s Hr) as Hcompleted.
  destruct (stats_fields s) as (_ & Hc & _ & _). unfold count_status in Hc.
  assert (Hlen : length (completedItems (items s)) = completed (stats s)).
  { by rewrite Hcompleted, Hc. }
  assert (Hurl : forall item, item ∈ completedItems (items s) ->
            item ∈ items s /\ item_status item = COMPLETED /\
            generatedImageUrl item = Some (js_or_str (generatedImageUrl item) EmptyString)).
  { intros item Hin. unfold completedItems in Hin.
    apply list_elem_of_filter in Hin as [[Hst Ht] Hin]. split; [done|]. split; [done|].
    destruct (generatedImageUrl item) as [url|]; [|done]. simpl in *.
    by destruct (decide (url = EmptyString)). }
  split; [|split; [|split; [|split]]].
  - unfold batchDownloads. by rewrite length_imap.
  - rewrite <- Hcompleted. unfold batchDownloads.
    apply list_eq. intros k. rewrite !list_lookup_fmap, list_lookup_imap.
    destruct (completedItems (items s) !! k) as [item|] eqn:Hk; [|done]. simpl.
    f_equal. symmetry. apply Hurl. by eapply list_elem_of_lookup_2.
  - intros k d. unfold batchDownloads. rewrite list_lookup_imap.
    destruct (completedItems (items s) !! k) as [item|] eqn:Hk; [|done].
    intros [= <-]. split; [done|]. exists item.
    destruct (Hurl item) as (Hin & Hst & Hu); [by eapply list_elem_of_lookup_2|]. done.
  - simpl. destruct (_ && _) eqn:Hcond; [|by left]. right.
    apply andb_true_iff in Hcond as [_ Hcond].
    apply negb_true_iff, orb_false_iff in Hcond as [_ Hcond]. apply Nat.eqb_neq in Hcond.
    unfold handleBatchDownload. fold (completedItems (items s)).
    destruct (completedItems (items s)) as [|item rest] eqn:Hlist; [simpl in Hlen; lia|].
    rewrite log_view_addLog, Hlen. done.
  - intros a b Ha. split; [by apply stem_app|].
    unfold stem. by rewrite (split_on_plain _ _ Ha).
Qed.

End Download.

Lemma batch_download_plan_witness :
  length (batchDownloads (items sample_finished)) = completed (stats sample_finished).
Proof.
  pose proof (batch_download_plan sample_host pretty_nat_inj sample_finished
                sample_finished_reachable) as [H _].
  exact H.
Defined.

(** ** The settings *)

Section Settings.

Variable host : Host.

Lemma edit_form_aspectRatio edits : forall formData,
  aspectRatio (analysisConfig (edit_form edits formData)) = aspectRatio (analysisConfig formData) /\
  aspectRatio (generationConfig (edit_form edits formData))
  = aspectRatio (generationConfig formData).
Proof.
  induction edits as [|[[section input] value] edits IH]; intros formData; [done|].
  simpl. destruct (IH (handleChange section (input_field input) value formData)) as [-> ->].
  by destruct section, input.
Qed.

(** X22. The settings form.  Whatever is typed into its inputs, on either
    tab and in any order, saving it leaves the aspect ratio chosen in the
    header as it was: the form has no input bound to it.  An input that is
    emptied counts as a field that is not set: the image request then goes
    to the default endpoint, respectively names the default model, and with
    the key input emptied the call resolves its key as it does when the
    settings hold no key: the key is found missing exactly when
    [getEnv('API_KEY')] is empty, and otherwise it is the key of the
    environment, trimmed (stated for a key of ASCII characters). *)
Theorem settings_form_edits (s : State) (edits : list (ConfigSection * FormInput * string)) :
  (let saved := settings (ui_step host (SaveSettings (edit_form edits (settings s))) s) in
   aspectRatio (generationConfig saved) = aspectRatio (generationConfig (settings s)) /\
   aspectRatio (analysisConfig saved) = aspectRatio (analysisConfig (settings s))) /\
  (forall formData prompt key,
     req_url (generation_request prompt
                (generationConfig
                   (handleChange GenerationSection (input_field BaseUrlInput) EmptyString formData))
                key)
     = "https://api.apicore.ai/v1/images/generations" /\
     req_model (generation_request prompt
                  (generationConfig
                     (handleChange GenerationSection (input_field ModelInput) EmptyString formData))
                  key)
     = "gemini-3-pro-image-preview") /\
  (forall formData section,
     let config :=
       match section with
       | AnalysisSection =>
           analysisConfig (handleChange section (input_field ApiKeyInput) EmptyString formData)
       | GenerationSection =>
           generationConfig (handleChange section (input_field ApiKeyInput) EmptyString formData)
       end in
     resolveApiKey host config = resolveApiKey host (without_apiKey config) /\
     (resolveApiKey host config = None <-> getEnv host "API_KEY" = EmptyString) /\
     (ascii_only (getEnv host "API_KEY") = true ->
      getEnv host "API_KEY" <> EmptyString ->
      resolveApiKey host config = Some (trim (getEnv host "API_KEY")))).
Proof.
  split; [|split].
  - cbv zeta. change (settings (ui_step _ _ _)) with (edit_form edits (settings s)).
    destruct (edit_form_aspectRatio edits (settings s)) as [-> ->]. done.
  - intros formData prompt key. done.
  - intros formData section. cbv zeta. unfold resolveApiKey, js_or.
    destruct section; simpl;
      destruct (decide (getEnv host "API_KEY" = EmptyString)) as [He|Hne];
      (split; [reflexivity|]; split; [split; [done|]; by intros ?|]; by intros _ ?).
Qed.

(** X23. Each stage reads the settings when it starts, not when the item or
    the queue was started.  If the settings are saved, or the aspect ratio
    is changed, while an item is still being analysed, its image request is
    built from the new generation settings; the hint of a failed analysis is
    still worded for the analysis settings the item started with. *)
Theorem settings_read_when_stage_starts (s : State) (w : nat) (c : WorkItem)
    (config : ServiceConfig) (fullText : string) :
  workers s !! w = Some (Streaming c config fullText) ->
  (forall newSettings key,
     resolveApiKey host (generationConfig newSettings) = Some key ->
     workers (engine_step host w (SdkEnds EndOfStream)
                (ui_step host (SaveSettings newSettings) s)) !! w
     = Some (Posting c (generation_request (describe_return fullText)
                          (generationConfig newSettings) key))) /\
  (forall newRatio key,
     resolveApiKey host (generationConfig (settings s)) = Some key ->
     exists request,
       workers (engine_step host w (SdkEnds EndOfStream)
                  (ui_step host (ChangeAspectRatio newRatio) s)) !! w
       = Some (Posting c request) /\
       req_size request = js_or_str (Some newRatio) "16:9") /\
  (forall newSettings message,
     items (engine_step host w (SdkEnds (StreamThrows message))
              (ui_step host (SaveSettings newSettings) s))
     = update_id (item_id c)
         (fun item => spread item (set_error (describe_catch config message))) (items s)).
Proof.
  intros Hw. assert (Hlt : w < length (workers s)) by (by eapply lookup_lt_Some).
  split; [|split].
  - intros newSettings key Hkey.
    set (s1 := ui_step host (SaveSettings newSettings) s).
    assert (Hw1 : workers s1 !! w = Some (Streaming c config fullText)) by exact Hw.
    unfold engine_step. rewrite Hw1.
    pose proof (adv_begin_generation host w c (describe_return fullText) key s1 Hkey) as Hadv.
    by apply (advances_lookup _ _ _ _ _ _ _ Hadv).
  - intros newRatio key Hkey.
    set (s1 := ui_step host (ChangeAspectRatio newRatio) s).
    assert (Hw1 : workers s1 !! w = Some (Streaming c config fullText)) by exact Hw.
    assert (Hkey1 : resolveApiKey host (generationConfig (settings s1)) = Some key) by exact Hkey.
    unfold engine_step. rewrite Hw1.
    pose proof (adv_begin_generation host w c (describe_return fullText) key s1 Hkey1) as Hadv.
    eexists. split; [by apply (advances_lookup _ _ _ _ _ _ _ Hadv)|]. reflexivity.
  - intros newSettings message.
    set (s1 := ui_step host (SaveSettings newSettings) s).
    assert (Hw1 : workers s1 !! w = Some (Streaming c config fullText)) by exact Hw.
    unfold engine_step. rewrite Hw1.
    apply (adv_items _ _ _ _ _ _ _
             (adv_catch_error host w c (Some (describe_catch config message)) s1)).
Qed.

End Settings.

Lemma settings_read_when_stage_starts_witness :
  exists request,
    workers (engine_step sample_host 0 (SdkEnds EndOfStream)
               (ui_step sample_host (ChangeAspectRatio "1:1") sample_analyzing)) !! 0
    = Some (Posting (sample_item "1" "a.png") request) /\
    req_size request = "1:1".
Proof.
  destruct (settings_read_when_stage_starts sample_host sample_analyzing 0
              (sample_item "1" "a.png") (sample_config "k1") EmptyString) as (_ & H & _).
  - vm_compute. reflexivity.
  - destruct (H "1:1" "k2") as (request & Hw & Hsize); [vm_compute; reflexivity|].
    exists request. split; [exact Hw|exact Hsize].
Defined.

(** ** Ids and positions *)

Section Positions.

Variable host : Host.
Hypothesis random_id_inj : Inj (=) (=) (random_id host).

(** X24. A retry keeps the place of the item in the queue.  After the retry
    control of the failed item at position [i] (in a state the page can be
    in, ids pairwise different), the position the loop takes next is [i] or
    the first pending position before it: the retried item is worked before
    every pending item that stands behind it. *)
Theorem retry_keeps_queue_position (s : State) (i : nat) (item : WorkItem) :
  reachable host s -> items s !! i = Some item -> item_status item = ERROR ->
  findPendingIndex (items (ui_step host (ClickRetry i) s))
  = Some (match findPendingIndex (items s) with
          | Some j => Nat.min i j
          | None => i
          end).
Proof.
  intros Hr Hi He.
  pose proof (inv_nodup _ _ (Inv_reachable host random_id_inj s Hr)) as Hnd.
  assert (Hitems : items (ui_step host (ClickRetry i) s)
                   = <[i := spread item set_retry]> (items s)).
  { simpl. rewrite Hi, decide_True by done.
    rewrite handleRetryItem_items, updateItem_items.
    by apply (update_id_insert (item_id item) (fun item => spread item set_retry)). }
  rewrite Hitems. assert (Hlt : i < length (items s)) by (by eapply lookup_lt_Some).
  apply findPendingIndex_Some.
  destruct (findPendingIndex (items s)) as [j|] eqn:Hfind.
  - apply findPendingIndex_Some in Hfind as (p & Hj & Hp & Hbefore).
    assert (j <> i) by (intros ->; congruence).
    destruct (Nat.min_spec i j) as [[Hij ->]|[Hji ->]].
    + exists (spread item set_retry). split; [by apply list_lookup_insert_eq|].
      split; [done|]. intros m x Hm Hmi. rewrite list_lookup_insert_ne in Hm by lia.
      eapply Hbefore; [exact Hm|lia].
    + exists p. split; [by rewrite list_lookup_insert_ne|]. split; [done|].
      intros m x Hm Hmj. rewrite list_lookup_insert_ne in Hm by lia.
      by eapply Hbefore.
  - exists (spread item set_retry). split; [by apply list_lookup_insert_eq|].
    split; [done|]. intros m x Hm Hmi. rewrite list_lookup_insert_ne in Hm by lia.
    apply findPendingIndex_None in Hfind. rewrite Forall_forall in Hfind.
    apply Hfind. by eapply list_elem_of_lookup_2.
Qed.

(** X25. In every state the page can be in (the ids of [generateId] taken
    pairwise different), the ids of the items are pairwise different and
    each of them was handed out by one of the calls of [generateId] made so
    far; and no two invocations of [processQueue] have an item of the same
    id in flight, whatever the user stopped and started: no item is worked
    by two invocations at once. *)
Theorem item_ids_unique (s : State) :
  reachable host s ->
  NoDup (item_id <$> items s) /\
  (forall item, item ∈ items s ->
     exists k, k < idCalls s /\ item_id item = random_id host k) /\
  (forall w1 w2 ph1 ph2 c1 c2 st1 st2,
     workers s !! w1 = Some ph1 -> workers s !! w2 = Some ph2 ->
     current ph1 = Some (c1, st1) -> current ph2 = Some (c2, st2) ->
     item_id c1 = item_id c2 -> w1 = w2).
Proof.
  intros Hr. destruct (Inv_reachable host random_id_inj s Hr) as [Hnd Hiss _ _ Hinf].
  split; [done|]. split; [exact Hiss|exact Hinf].
Qed.

End Positions.

Lemma retry_keeps_queue_position_witness :
  findPendingIndex (items (ui_step sample_host (ClickRetry 1) sample_finished)) = Some 1.
Proof.
  pose proof (retry_keeps_queue_position sample_host pretty_nat_inj sample_finished 1
                (spread (spread (sample_item "2" "b.png") set_analyzing)
                   (set_error "Analysis failed: 503 overloaded"))
                sample_finished_reachable) as H.
  rewrite H; [vm_compute; reflexivity|vm_compute; reflexivity|reflexivity].
Defined.

Lemma item_ids_unique_witness :
  reachable sample_host sample_finished /\ NoDup (item_id <$> items sample_finished).
Proof.
  split; [exact sample_finished_reachable|].
  exact (proj1 (item_ids_unique sample_host pretty_nat_inj sample_finished
                  sample_finished_reachable)).
Defined.

(** ** Failures and the log *)

Section FailureLog.

Variable host : Host.

Lemma reports_quiet w ph' id u new s s' :
  advances w ph' id (fun item => spread item u) new s s' ->
  filter (fun r : LogType * string => r.1 = error) new = [] ->
  p_status u <> Some ERROR ->
  reports_failures s s'.
Proof.
  intros Hadv Hnew Hu. exists new. split; [apply (adv_logs _ _ _ _ _ _ _ Hadv)|].
  left. split; [done|].
  intros i item item' Hi Hi'. rewrite (adv_items _ _ _ _ _ _ _ Hadv), update_id_lookup, Hi in Hi'.
  simpl in Hi'. injection Hi' as <-. destruct (decide _); [|done].
  simpl. destruct (p_status u) as [st|]; simpl; [|done]. intros ->. done.
Qed.

Lemma reports_failure w ph' c message u new s s' :
  advances w ph' (item_id c) (fun item => spread item u) new s s' ->
  filter (fun r : LogType * string => r.1 = error) new = [failed_record c message] ->
  p_status u = Some ERROR -> p_error u = Some (Some (errorMsg_of message)) ->
  reports_failures s s'.
Proof.
  intros Hadv Hnew Hst Herr. exists new. split; [apply (adv_logs _ _ _ _ _ _ _ Hadv)|].
  right. exists c, (errorMsg_of message).
  split; [exact Hnew|]. split; [apply errorMsg_of_nonempty|].
  intros i item item' Hi Hi'. rewrite (adv_items _ _ _ _ _ _ _ Hadv), update_id_lookup, Hi in Hi'.
  simpl in Hi'. injection Hi' as <-. split; intros Hid.
  - rewrite decide_True by done. simpl. by rewrite Hst, Herr.
  - by rewrite decide_False.
Qed.

Lemma reports_same_items new s s' :
  log_view <$> logs s' = (log_view <$> logs s) ++ new ->
  filter (fun r : LogType * string => r.1 = error) new = [] ->
  items s' = items s -> reports_failures s s'.
Proof.
  intros Hl Hf Hi. exists new. split; [done|]. left. split; [done|].
  intros i item item' Hj Hj'. rewrite Hi in Hj'. congruence.
Qed.

Lemma reports_begin_item w c s : reports_failures s (begin_item host w c s).
Proof.
  destruct (resolveApiKey host (analysisConfig (settings s))) as [key|] eqn:Hkey.
  - by apply (reports_quiet _ _ _ _ _ _ _ (adv_begin_item host w c key s Hkey)).
  - by apply (reports_failure _ _ _ (Some analysis_key_missing) _ _ _ _
                (adv_begin_item_no_key host w c s Hkey)).
Qed.

Lemma reports_catch_error w c message s : reports_failures s (catch_error host w c message s).
Proof. by apply (reports_failure _ _ _ message _ _ _ _ (adv_catch_error host w c message s)). Qed.

(** X26. Failures and the log agree.  A step of an invocation of
    [processQueue] appends at most one error record.  If it appends none, no
    item turns [ERROR] in the step.  If it appends one, the record reads
    "Failed processing (file name of the item taken): (message)", the
    message is not empty, every item of that id in the store is [ERROR]
    after the step with this very message as its error, and all other items
    are untouched. *)
Theorem failure_is_logged (s : State) (w : nat) (e : EngineEvent) :
  exists new,
    log_view <$> logs (engine_step host w e s) = (log_view <$> logs s) ++ new /\
    ((filter (fun r : LogType * string => r.1 = error) new = [] /\
      forall i item item',
        items s !! i = Some item -> items (engine_step host w e s) !! i = Some item' ->
        item_status item' = ERROR -> item_status item = ERROR) \/
     (exists c msg,
        filter (fun r : LogType * string => r.1 = error) new
        = [(error, "Failed processing " +:+ file_name (item_file c) +:+ ": " +:+ msg)] /\
        msg <> EmptyString /\
        forall i item item',
          items s !! i = Some item -> items (engine_step host w e s) !! i = Some item' ->
          (item_id item = item_id c ->
           item_status item' = ERROR /\ item_error item' = Some msg) /\
          (item_id item <> item_id c -> item' = item))).
Proof.
  change (reports_failures s (engine_step host w e s)).
  assert (Hsame : forall s', reports_failures s' s').
  { intros s'. apply (reports_same_items []); [by rewrite app_nil_r|done|done]. }
  unfold engine_step.
  destruct (workers s !! w) as [[c config key|c config fullText|c request| |]|];
    destruct e as [[base64|message]|chunk_text|[|message|]|net|];
    try apply Hsame; try apply reports_catch_error.
  - apply (reports_same_items []); [by rewrite app_nil_r|done|done].
  - destruct (describe_chunk fullText chunk_text) as [fullText' [partialText|]].
    + apply (reports_quiet w (Streaming c config fullText') (item_id c)
               (set_prompt partialText) []); [|done|done].
      split; try reflexivity. simpl. by rewrite app_nil_r.
    + apply (reports_same_items []); [by rewrite app_nil_r|done|done].
  - destruct (resolveApiKey host (generationConfig (settings s))) as [key|] eqn:Hkey.
    + by apply (reports_quiet _ _ _ _ _ _ _
                  (adv_begin_generation host w c (describe_return fullText) key s Hkey)).
    + by apply (reports_failure _ _ _ (Some generation_key_missing) _ _ _ _
                  (adv_begin_generation_no_key host w c (describe_return fullText) s Hkey)).
  - destruct (generation_try host (net request)) as [t [generatedImage|message]|].
    + by apply (reports_quiet _ _ _ _ _ _ _ (adv_complete_item host w c generatedImage s)).
    + apply reports_catch_error.
    + apply Hsame.
  - assert (Hexit : reports_failures s (finish_queue host w s)).
    { apply (reports_same_items [(info, "Queue processing finished or stopped.")]);
        [unfold finish_queue; simpl; by rewrite fmap_app|done|done]. }
    unfold loop_head. destruct (findPendingIndex (items s)) as [i|]; [|done].
    destruct (isProcessingRef s); [|done].
    destruct (items s !! i) as [c|]; [|done]. apply reports_begin_item.
Qed.

End FailureLog.

(** ** The analysis request *)

Section AnalysisRequest.

(** X27. The request of the analysis call: it carries the key, the type of
    the file and the base64 data it was given, and a model that is never
    empty, [gemini-3-flash-preview] when none is configured.  A base URL
    that is missing or blank sends the call to the official endpoint (no
    base URL is passed); any other base URL of ASCII characters is passed
    with one trailing slash dropped but, unlike in the generation call,
    without being trimmed: for the same setting the image request uses the
    trimmed URL. *)
Theorem describe_request_wellformed (file : File) (config : ServiceConfig)
    (key base64 : string) :
  let request := describe_request file config key base64 in
  sdk_apiKey request = key /\ sdk_mimeType request = file_type file /\
  sdk_data request = base64 /\ sdk_systemInstruction request = systemInstruction config /\
  sdk_model request <> EmptyString /\
  (truthy (model config) = false -> sdk_model request = "gemini-3-flash-preview") /\
  (truthy (trim <$> baseUrl config) = false -> sdk_baseUrl request = None) /\
  (forall u, baseUrl config = Some u -> ascii_only u = true -> trim u <> EmptyString ->
     sdk_baseUrl request = Some (drop_trailing_slash u) /\
     forall prompt key2,
       drop_trailing_slash (trim u) <> EmptyString ->
       req_url (generation_request prompt config key2)
       = drop_trailing_slash (trim u) +:+ "/images/generations").
Proof.
  cbv zeta. unfold describe_request.
  cbn [sdk_apiKey sdk_mimeType sdk_data sdk_systemInstruction sdk_model sdk_baseUrl].
  split; [done|]. split; [done|]. split; [done|]. split; [done|].
  split; [by apply js_or_str_nonempty|]. split; [|split].
  - intros Hm. destruct (model config) as [m|]; simpl in *; [|done].
    by destruct (decide (m = EmptyString)).
  - intros Hb. unfold usingCustomUrl. rewrite Hb. by rewrite andb_false_r.
  - intros u Hu _ Hne. assert (Hu0 : u <> EmptyString) by (by intros ->).
    unfold usingCustomUrl, generation_request, cleanBaseUrl. rewrite Hu. simpl.
    rewrite !(decide_False (P := u = EmptyString)) by done.
    rewrite !(decide_False (P := trim u = EmptyString)) by done. simpl.
    split; [done|]. intros prompt key2 Hd.
    by rewrite !(decide_False (P := drop_trailing_slash (trim u) = EmptyString)).
Qed.

End AnalysisRequest.

(** * The order of the queue and the guard of the bulk commands *)

(** ** Order of the store *)

Section QueueOrder.

Variable host : Host.

(** Starting the item found at a position of the store. *)
Lemma begin_item_begins w i item s0 s :
  items s = items s0 -> items s0 !! i = Some item -> w < length (workers s) ->
  begins_item w i item s0 (begin_item host w item s).
Proof.
  intros Hitems Hi Hlt.
  assert (Hshape : exists ph' u new,
            advances w ph' (item_id item) (fun x => spread x u) new s (begin_item host w item s) /\
            (p_status u = Some ANALYZING \/ p_status u = Some ERROR) /\
            ph' <> Exited /\ forall c st, current ph' = Some (c, st) -> c = item).
  { destruct (resolveApiKey host (analysisConfig (settings s))) as [key|] eqn:Hkey.
    - eexists _, _, _. split; [by apply adv_begin_item|].
      split; [by left|]. split; [done|]. by intros c st [= <- _].
    - eexists _, _, _. split; [by apply adv_begin_item_no_key|].
      split; [by right|]. split; [done|]. by intros c st. }
  destruct Hshape as (ph' & u & new & Hadv & Hu & Hph & Hc).
  pose proof (adv_items _ _ _ _ _ _ _ Hadv) as Hit. rewrite Hitems in Hit.
  split; [|split; [|split]].
  - exists (spread item u). split.
    + rewrite Hit, update_id_lookup, Hi. simpl. by rewrite decide_True.
    + split; [done|]. split; [done|]. simpl. by destruct Hu as [-> | ->]; [left|right].
  - intros j other Hj Hne. rewrite Hit, update_id_lookup, Hj. simpl. by rewrite decide_False.
  - rewrite Hit. unfold update_id. by rewrite length_fmap.
  - exists ph'. split; [by eapply advances_lookup|]. by split.
Qed.

(** C6.  After any sequence of [addFiles] calls and updates, the store holds
    the files it held before followed by the added files in call order and,
    within a call, in the order of the call.  An update keeps every item at
    its index with its id.  The engine takes the first pending item in that
    order.  The index [findIndex] yields holds a pending item and no earlier
    index does; an invocation of [processQueue] that comes to the head of its
    loop with the running flag set, and [processQueue] itself when it is
    started, begin that very item: it leaves [PENDING] at its position, the
    items of other ids are untouched, and the invocation holds no other item.
    When no item is pending the invocation at the head of its loop leaves
    without touching the store, and so does a [processQueue] just started. *)
Theorem store_order_fifo (s : State) :
  (forall ops, item_file <$> items (foldl (store_op host) s ops)
               = (item_file <$> items s) ++ added_files ops) /\
  (forall id updates,
      item_id <$> items (updateItem id updates s) = item_id <$> items s /\
      length (items (updateItem id updates s)) = length (items s)) /\
  (forall files, items (handleFilesSelected host files s)
                 = items s ++ newItems host (idCalls s) files) /\
  match findPendingIndex (items s) with
  | Some i =>
      exists item, items s !! i = Some item /\ item_status item = PENDING /\
        (forall j item', items s !! j = Some item' -> j < i -> item_status item' <> PENDING) /\
        (forall w, isProcessingRef s = true ->
                   loop_head host w (Some i) s = begin_item host w item s) /\
        (forall w, workers s !! w = Some Pacing -> isProcessingRef s = true ->
                   engine_step host w DelayElapsed s = begin_item host w item s /\
                   begins_item w i item s (engine_step host w DelayElapsed s)) /\
        (isProcessingRef s = false ->
           begins_item (length (workers s)) i item s (processQueue host s))
  | None =>
      Forall (fun item => item_status item <> PENDING) (items s) /\
      (forall w, workers s !! w = Some Pacing ->
         items (engine_step host w DelayElapsed s) = items s /\
         workers (engine_step host w DelayElapsed s) !! w = Some Exited) /\
      (isProcessingRef s = false ->
         items (processQueue host s) = items s /\
         workers (processQueue host s) = workers s ++ [Exited])
  end.
Proof.
  split; [intros ops; apply store_ops_files|].
  split; [intros id u; split; [apply updateItem_ids|apply updateItem_length]|].
  split; [intros files; apply handleFilesSelected_items|].
  destruct (findPendingIndex (items s)) as [i|] eqn:Hfind.
  - assert (Hfind' := Hfind). apply findPendingIndex_Some in Hfind' as (item & Hi & Hp & Hlt).
    exists item. split; [done|]. split; [done|]. split; [done|]. split; [|split].
    + intros w Href. unfold loop_head. by rewrite Href, Hi.
    + intros w Hw Href.
      rewrite (engine_step_loop_begin host w i item s Hw Href Hfind Hi).
      split; [done|]. apply begin_item_begins; [done|done|by eapply lookup_lt_Some].
    + intros Href. rewrite (processQueue_pending host s i item Href Hfind Hi).
      apply begin_item_begins; [done|done|].
      simpl. rewrite length_app. simpl. lia.
  - split; [by apply findPendingIndex_None|]. split.
    + intros w Hw. rewrite (engine_step_loop_exit host w s Hw) by (by right).
      split; [done|]. simpl. apply list_lookup_insert_eq. by eapply lookup_lt_Some.
    + intros Href. unfold processQueue. rewrite Href. unfold loop_head.
      change (items (addLog host info "Queue processing started." _)) with (items s).
      rewrite Hfind. split; [done|]. simpl. apply insert_last_worker.
Qed.

End QueueOrder.

Lemma store_order_fifo_witness :
  item_file <$> items (foldl (store_op sample_host) sample_loaded
      [AddFiles [sample_file "d.png"; sample_file "e.png"];
       Update "2" {| p_status := Some ERROR; p_progressLog := None;
                     p_originalPrompt := None; p_generatedImageUrl := None;
                     p_error := Some (Some "failed") |};
       AddFiles [sample_file "f.png"]])
  = sample_file <$> ["a.png"; "b.png"; "c.png"; "d.png"; "e.png"; "f.png"].
Proof.
  destruct (store_order_fifo sample_host sample_loaded) as [H _].
  rewrite H. reflexivity.
Defined.

(** ** Clearing and resetting *)

Section Clear.

Variable host : Host.

(** C7, as the code has it.  The guard of [clearCompleted] and [resetAll] is
    the flag [isProcessing] and nothing else.  While it is set they return at
    once: the store and the log stay as they are, and no record is logged.
    While it is clear they act: [clearCompleted] keeps exactly the items that
    are neither [COMPLETED] nor [ERROR], in their order (every pending item
    among them), and logs one [info] record; [resetAll] empties the store and
    logs one [warning] record.  The flag is clear on every page whose loops
    have all ended; it is also clear after Stop while a loop is still inside
    its item, and the two commands act then as well. *)
Theorem clear_reset_guard (s : State) :
  (isProcessing s = true -> clearCompleted host s = s /\ resetAll host s = s) /\
  (isProcessing s = false ->
     items (clearCompleted host s)
     = filter (fun item => item_status item <> COMPLETED /\ item_status item <> ERROR) (items s) /\
     (forall item, item ∈ items (clearCompleted host s) <->
                   item ∈ items s /\ item_status item <> COMPLETED /\ item_status item <> ERROR) /\
     (forall item, item ∈ items s -> item_status item = PENDING ->
                   item ∈ items (clearCompleted host s)) /\
     (exists r, logs (clearCompleted host s) = logs s ++ [r] /\ log_type r = info) /\
     items (resetAll host s) = [] /\
     (exists r, logs (resetAll host s) = logs s ++ [r] /\ log_type r = warning)) /\
  (reachable host s -> loop_ended s -> isProcessing s = false).
Proof.
  split; [|split].
  - intros Hp. unfold clearCompleted, resetAll. by rewrite Hp.
  - intros Hp.
    assert (Hitems : items (clearCompleted host s)
        = filter (fun item => item_status item <> COMPLETED /\ item_status item <> ERROR)
            (items s)).
    { unfold clearCompleted. by rewrite Hp. }
    split; [exact Hitems|].
    split. { intros item. rewrite Hitems, list_elem_of_filter. tauto. }
    split.
    { intros item Hin Hst. rewrite Hitems. apply list_elem_of_filter. by rewrite Hst. }
    split.
    { eexists. unfold clearCompleted. rewrite Hp, addLog_logs. split; reflexivity. }
    split. { unfold resetAll. by rewrite Hp. }
    eexists. unfold resetAll. rewrite Hp, addLog_logs. split; reflexivity.
  - intros Hr Hended. destruct (flags_ok_reachable host s Hr) as [Heq Hlive].
    destruct (isProcessing s) eqn:Hp; [|done].
    destruct Hlive as (w & ph & Hw & Hph); [by rewrite <- Heq|].
    destruct Hph. by eapply Hended.
Qed.

End Clear.

Lemma clear_reset_guard_witness :
  isProcessing sample_finished = false /\
  item_status <$> items (clearCompleted sample_host (handleRetryItem sample_host "2" sample_finished))
  = [PENDING].
Proof.
  split; [reflexivity|].
  destruct (clear_reset_guard sample_host (handleRetryItem sample_host "2" sample_finished))
    as (_ & H & _).
  destruct (H eq_refl) as [-> _]. reflexivity.
Defined.

Lemma sample_stopped_reachable : reachable sample_host sample_stopped.
Proof. apply reachable_run, sample_analyzing_reachable. Qed.

Lemma sample_stopped_later_reachable : reachable sample_host sample_stopped_later.
Proof. repeat apply reachable_run. constructor. Qed.

(** C7 as stated fails twice.  While the queue is running, [clearCompleted]
    and [resetAll] are rejected without a word: the log receives no warning
    record.  And the engine need not be idle for them to act: after Stop the
    flag is down while the loop is still inside its item, and on that page
    Reset All empties the store under the loop and Clear Completed takes the
    finished item out. *)
Lemma clear_reset_not_as_specified :
  (isProcessing sample_analyzing = true /\
   logs (clearCompleted sample_host sample_analyzing) = logs sample_analyzing /\
   logs (resetAll sample_host sample_analyzing) = logs sample_analyzing /\
   ~ (exists r, log_type r = warning /\
                logs (clearCompleted sample_host sample_analyzing)
                = logs sample_analyzing ++ [r])) /\
  (reachable sample_host sample_stopped /\
   isProcessing sample_stopped = false /\
   workers sample_stopped
   = [Streaming (sample_item "1" "a.png") (sample_config "k1") EmptyString] /\
   item_status <$> items sample_stopped = [ANALYZING; PENDING; PENDING] /\
   items (ui_step sample_host ClickResetAll sample_stopped) = [] /\
   log_message <$> logs (ui_step sample_host ClickResetAll sample_stopped)
   = (log_message <$> logs sample_stopped) ++ ["All items reset."]) /\
  (reachable sample_host sample_stopped_later /\
   isProcessing sample_stopped_later = false /\
   (exists c config, workers sample_stopped_later = [Streaming c config EmptyString]) /\
   item_status <$> items sample_stopped_later = [COMPLETED; ANALYZING; PENDING] /\
   item_status <$> items (ui_step sample_host ClickClearCompleted sample_stopped_later)
   = [ANALYZING; PENDING]).
Proof.
  split; [|split].
  - repeat split.
    intros (r & _ & H). apply (f_equal length) in H. rewrite length_app in H.
    simpl in H. lia.
  - split; [exact sample_stopped_reachable|].
    repeat split; vm_compute; reflexivity.
  - split; [exact sample_stopped_later_reachable|].
    split; [vm_compute; reflexivity|]. split; [|split; vm_compute; reflexivity].
    eexists _, _. vm_compute. reflexivity.
Qed.
